(** * Mechanical Karma backend: lap windowing, per-lap features, component risk

    A shallow embedding of [backend/src/feature_engineering.py] and
    [backend/src/karma_stream.py], and the properties their design
    document states about them; then the helpers they are used with
    ([utils.py], [config.py], the feature selection of [modeling.py] and
    [component_modeling.py], the hand-over in [api.py]) and further
    properties of the code.

    Modelling conventions.
    - A Python [float] is an exact rational ([Q]); equality of scores is
      [Qeq] ([==]).  The builtins [min(a, b)] and [max(a, b)] return
      their first argument unless the second is strictly smaller (resp.
      larger), which is what [Qmin] and [Qmax] compute.
    - A pandas timestamp is its int64 count of nanoseconds, held in a
      [Z].  In the lap tables, where the code subtracts timestamps, the
      least int64 is the missing timestamp [NaT], and a difference that
      is not an int64 raises [OverflowError].
    - A [dict] is a [gmap]; a [dict] that is only iterated (the feature
      weights of a component) is an association list in insertion order.
    - A data frame is its list of column labels together with its rows in
      index order.  The columns a function reads as keys are typed fields
      of the row ([string] vehicle, [Z] lap or timestamp), so a row always
      has them; a nullable numeric cell is an [option Q] or an absent map
      entry.  Signal Pivot, which works on the labels alone, takes a table
      of untyped cells addressed by position.
    - An exception a function raises itself is a constructor of its
      outcome type.
    - A function whose control flow reads the column labels only (the
      schema checks, [merge_weather], [_split_features]) is modelled on
      the labels; a call into pandas that is not evaluated is a
      constructor that keeps its arguments.  The reshaping of Signal
      Pivot is such a call: the properties of Signal Pivot hold for
      whatever it returns, and [pandas_pivot] evaluates it on small
      tables. *)

From Stdlib Require Import QArith Qminmax Lqa.
From stdpp Require Import gmap strings list sorting pretty.

(** ** pandas operations shared by both modules *)

Module pandas.

Section sort_values.
Context {A : Type} (R : relation A) `{!RelDecision R}.

(** [DataFrame.sort_values] on several keys is a stable sort: a row is
    placed in front of the rows that follow it in the input and compare
    equal to it. *)
Fixpoint insert_row (x : A) (l : list A) : list A :=
  match l with
  | [] => [x]
  | y :: l' => if decide (R x y) then x :: y :: l' else y :: insert_row x l'
  end.

Definition sort_values (l : list A) : list A := foldr insert_row [] l.

End sort_values.

(** Lexicographic order on a (vehicle, number) key: strings compare as
    Python compares them (by code point), numbers numerically. *)
Definition key_le (a b : string * Z) : Prop :=
  String.le a.1 b.1 ∧ (a.1 = b.1 → (a.2 ≤ b.2)%Z).

#[global] Instance key_le_dec : RelDecision key_le.
Proof. intros a b. unfold key_le. apply _. Defined.

(** A [datetime64[ns]] cell is an int64 count of nanoseconds; the least
    int64 is the missing timestamp, [NaT]. *)
Definition int64_min : Z := -9223372036854775808.
Definition int64_max : Z := 9223372036854775807.
Definition NaT : Z := int64_min.

Definition fits_int64 (z : Z) : Prop := (int64_min ≤ z ≤ int64_max)%Z.

#[global] Instance fits_int64_dec z : Decision (fits_int64 z).
Proof. unfold fits_int64. apply _. Defined.

(** Row order of [sort_values] on a timestamp column: by time, the rows
    without a timestamp last. *)
Definition time_le (a b : Z) : Prop := b = NaT ∨ (a ≠ NaT ∧ (a ≤ b)%Z).

#[global] Instance time_le_dec : RelDecision time_le.
Proof. intros a b. unfold time_le. apply _. Defined.

(** [a < b] and [a <= b] on timestamps: a comparison with [NaT] is
    false. *)
Definition time_lt (a b : Z) : Prop := a ≠ NaT ∧ b ≠ NaT ∧ (a < b)%Z.
Definition time_leq (a b : Z) : Prop := a ≠ NaT ∧ b ≠ NaT ∧ (a ≤ b)%Z.

(** [b - a] on timestamps raises [OverflowError] when both are set and
    the difference is not an int64. *)
Definition overflows (a b : Z) : Prop :=
  a ≠ NaT ∧ b ≠ NaT ∧ ¬ fits_int64 (b - a).

#[global] Instance overflows_dec a b : Decision (overflows a b).
Proof. unfold overflows. apply _. Defined.

Definition Qsum (l : list Q) : Q := foldr Qplus 0%Q l.

(** [Series.min()] / [Series.max()] of a series without nulls. *)
Definition series_min (x : Q) (xs : list Q) : Q := foldl Qmin x xs.
Definition series_max (x : Q) (xs : list Q) : Q := foldl Qmax x xs.

End pandas.

(** ** karma_stream.py *)

Module karma_stream.
Import pandas.

Record ComponentSpec := {
  name : string;
  feature_weights : list (string * Q);
  description : string }.

Definition engine : ComponentSpec :=
  {| name := "engine";
     feature_weights := [("speed_mean", 4 # 10); ("nmot_mean", 6 # 10)];
     description := "RPM + sustained speed stress" |}.
Definition gearbox : ComponentSpec :=
  {| name := "gearbox";
     feature_weights := [("gear_mean", 5 # 10); ("accx_can_std", 5 # 10)];
     description := "Gear usage and longitudinal jolts" |}.
Definition brakes : ComponentSpec :=
  {| name := "brakes";
     feature_weights := [("pbrake_f_max", 6 # 10); ("pbrake_r_max", 4 # 10)];
     description := "Brake pressure spikes front/rear" |}.
Definition tires : ComponentSpec :=
  {| name := "tires";
     feature_weights := [("speed_mean", 3 # 10); ("Steering_Angle_std", 7 # 10)];
     description := "Cornering + abrasion load" |}.

Definition COMPONENT_SPECS : list ComponentSpec :=
  [engine; gearbox; brakes; tires].

(** One row of the per-lap feature table.  [features] holds the non-null
    numeric cells of the row: [features row !! c = None] is what
    [row.get(c)] gives as [None]/NaN. *)
Record LapRow := {
  vehicle_id : string;
  lap : Z;
  features : gmap string Q }.

Record DataFrame := {
  columns : list string;
  rows : list LapRow }.

(** [df.empty]: some axis has length zero. *)
Definition empty (df : DataFrame) : bool :=
  bool_decide (columns df = [] ∨ rows df = []).

(** [df[col].dropna()] *)
Definition column_dropna (df : DataFrame) (col : string) : list Q :=
  omap (λ r, features r !! col) (rows df).

(** [df[col]] raises [KeyError] for a label that is not a column of the
    table: this is [_column_stats] on columns the table has, which
    [compute_stream] has checked when it calls it. *)
Definition _column_stats (df : DataFrame) (cols : list string)
  : gmap string (Q * Q) :=
  foldl (λ stats col,
           match column_dropna df col with
           | [] => <[col := (0, 0)%Q]> stats
           | x :: xs => <[col := (series_min x xs, series_max x xs)]> stats
           end) ∅ cols.

Definition _normalize (value : option Q) (min_val max_val : Q) : Q :=
  match value with
  | None => 0
  | Some v =>
      if Qle_bool max_val min_val then 0
      else Qmax 0 (Qmin 1 ((v - min_val) / (max_val - min_val)))
  end.

(** The loop of [_component_score], from given values of its two
    accumulators. *)
Definition score_sums (row : LapRow) (stats : gmap string (Q * Q))
    (acc : Q * Q) (ws : list (string * Q)) : Q * Q :=
  foldl (λ '(weighted_sum, total_weight) '(feature, weight),
           let '(min_val, max_val) := default (0, 0)%Q (stats !! feature) in
           let norm_val := _normalize (features row !! feature) min_val max_val in
           (weighted_sum + weight * norm_val, total_weight + weight)%Q)
        acc ws.

Definition _component_score (row : LapRow) (stats : gmap string (Q * Q))
    (spec : ComponentSpec) : Q :=
  let '(weighted_sum, total_weight) :=
    score_sums row stats (0, 0)%Q (feature_weights spec) in
  if Qeq_bool total_weight 0 then 0 else weighted_sum / total_weight.

(** One entry of [records]. *)
Record ScoreRecord := {
  rec_vehicle_id : string;
  rec_lap : Z;
  component : string;
  instant_score : Q;
  karma_score : Q }.

Record ScoreFrame := {
  score_columns : list string;
  score_rows : list ScoreRecord }.

Definition SCORE_COLUMNS : list string :=
  ["vehicle_id"; "lap"; "component"; "instant_score"; "karma_score"].

(** [pd.DataFrame(records)]: the labels are the keys of the record dicts,
    and there are none when there is no record. *)
Definition frame_of_records (records : list ScoreRecord) : ScoreFrame :=
  {| score_columns := match records with [] => [] | _ => SCORE_COLUMNS end;
     score_rows := records |}.

Inductive outcome :=
  | Returned (out : ScoreFrame)
  | ValueError (missing : list string).

(** The mutable state of the scan: [records], [smoothed_scores] and
    [vehicle_start_laps]. *)
Record scan := {
  records : list ScoreRecord;
  smoothed_scores : gmap (string * string) Q;
  vehicle_start_laps : gmap string Z }.

(** Body of [for spec in COMPONENT_SPECS]. *)
Definition score_component (smoothing wear_rate : Q)
    (stats : gmap string (Q * Q)) (row : LapRow) (relative_lap : Z)
    (st : list ScoreRecord * gmap (string * string) Q) (spec : ComponentSpec)
  : list ScoreRecord * gmap (string * string) Q :=
  let instant := _component_score row stats spec in
  let key := (vehicle_id row, name spec) in
  let prev := default instant (st.2 !! key) in
  let smoothed := (smoothing * prev + (1 - smoothing) * instant)%Q in
  let wear_accumulation := Qmin (1 # 2) (wear_rate * inject_Z relative_lap) in
  let stress_multiplier := (1 + instant * (1 # 2))%Q in
  let total_wear := (wear_accumulation * stress_multiplier)%Q in
  let final_karma := Qmin 1 (smoothed + total_wear) in
  (st.1 ++ [ {| rec_vehicle_id := vehicle_id row;
                rec_lap := lap row;
                component := name spec;
                instant_score := instant;
                karma_score := final_karma |} ],
   <[key := final_karma]> st.2).

(** [if vehicle_id not in vehicle_start_laps: vehicle_start_laps[vehicle_id] = lap] *)
Definition track_start (starts : gmap string Z) (row : LapRow) : gmap string Z :=
  match starts !! vehicle_id row with
  | None => <[vehicle_id row := lap row]> starts
  | Some _ => starts
  end.

(** [lap - vehicle_start_laps[vehicle_id] + 1]; the lookup is made after
    [track_start], so the entry exists. *)
Definition relative_lap (starts : gmap string Z) (row : LapRow) : Z :=
  (lap row - default (lap row) (starts !! vehicle_id row) + 1)%Z.

(** Body of [for _, row in sorted_df.iterrows()]. *)
Definition scan_row (specs : list ComponentSpec) (smoothing wear_rate : Q)
    (stats : gmap string (Q * Q)) (st : scan) (row : LapRow) : scan :=
  let starts := track_start (vehicle_start_laps st) row in
  let '(recs, scores) :=
    foldl (score_component smoothing wear_rate stats row (relative_lap starts row))
          (records st, smoothed_scores st) specs in
  {| records := recs; smoothed_scores := scores; vehicle_start_laps := starts |}.

Definition row_key (r : LapRow) : string * Z := (vehicle_id r, lap r).
Definition row_le (r1 r2 : LapRow) : Prop := key_le (row_key r1) (row_key r2).

#[global] Instance row_le_dec : RelDecision row_le.
Proof. intros r1 r2. unfold row_le. apply _. Defined.

Definition required_cols (specs : list ComponentSpec) : gset string :=
  ⋃ ((λ spec, list_to_set (feature_weights spec).*1) <$> specs).

Definition scan_rows (specs : list ComponentSpec) (smoothing wear_rate : Q)
    (stats : gmap string (Q * Q)) (sorted_rows : list LapRow) : scan :=
  foldl (scan_row specs smoothing wear_rate stats)
        {| records := []; smoothed_scores := ∅; vehicle_start_laps := ∅ |}
        sorted_rows.

Definition compute_stream (df : DataFrame) (smoothing wear_rate : Q) : outcome :=
  if empty df then
    Returned {| score_columns := SCORE_COLUMNS; score_rows := [] |}
  else
    let required := elements (required_cols COMPONENT_SPECS) in
    let missing := filter (λ col, col ∉ columns df) required in
    match missing with
    | _ :: _ => ValueError missing
    | [] =>
        let stats := _column_stats df required in
        let sorted_rows := sort_values row_le (rows df) in
        Returned (frame_of_records
          (records (scan_rows COMPONENT_SPECS smoothing wear_rate stats sorted_rows)))
    end.

End karma_stream.

(** ** feature_engineering.py *)

Module feature_engineering.
Import pandas.

(** *** Lap windows *)

(** A row of a lap-start or lap-end table whose columns, once
    [_normalize_lap_bounds] has renamed them, are the three required ones:
    the [ensure_columns] checks of [_prepare_lap_windows] pass on such
    tables and on their merge. *)
Module LapEvent.
Record t := { vehicle_id : string; lap_number : Z; timestamp : Z }.
Definition key (e : t) : string * Z := (vehicle_id e, lap_number e).
(** Row order of [sort_values(["vehicle_id", "lap_number", "timestamp"])]:
    within a key by time, the rows without a timestamp last. *)
Definition le (e1 e2 : t) : Prop :=
  key_le (key e1) (key e2) ∧ (key e1 = key e2 → time_le (timestamp e1) (timestamp e2)).
#[global] Instance le_dec : RelDecision le.
Proof. intros e1 e2. unfold le. apply _. Defined.
End LapEvent.

Module LapWindow.
Record t := {
  vehicle_id : string;
  lap_number : Z;
  lap_start_time : Z;
  lap_end_time : Z;
  lap_duration_s : option Q }.
Definition key (w : t) : string * Z := (vehicle_id w, lap_number w).
(** One of the two times is [NaT]. *)
Definition has_NaT (w : t) : Prop := lap_start_time w = NaT ∨ lap_end_time w = NaT.
#[global] Instance has_NaT_dec w : Decision (has_NaT w).
Proof. unfold has_NaT. apply _. Defined.
(** [lap_end_time - lap_start_time] raises. *)
Definition span_overflows (w : t) : Prop :=
  overflows (lap_start_time w) (lap_end_time w).
#[global] Instance span_overflows_dec w : Decision (span_overflows w).
Proof. unfold span_overflows. apply _. Defined.
(** Row order of [sort_values(["vehicle_id", "lap_number"])]. *)
Definition le (w1 w2 : t) : Prop := key_le (key w1) (key w2).
#[global] Instance le_dec : RelDecision le.
Proof. intros w1 w2. unfold le. apply _. Defined.
(** Row order of [sort_values(["lap_start_time", vehicle_col])]. *)
Definition start_le (w1 w2 : t) : Prop :=
  (lap_start_time w1 ≤ lap_start_time w2)%Z ∧
  (lap_start_time w1 = lap_start_time w2 → String.le (vehicle_id w1) (vehicle_id w2)).
#[global] Instance start_le_dec : RelDecision start_le.
Proof. intros w1 w2. unfold start_le. apply _. Defined.
End LapWindow.

Section drop_duplicates.
Context {A K : Type} `{EqDecision K} (key : A → K).

(** [drop_duplicates(subset=key, keep="first")]: a row stays when no row
    before it has its key. *)
Fixpoint keep_first (seen : list K) (l : list A) : list A :=
  match l with
  | [] => []
  | x :: l' =>
      if decide (key x ∈ seen) then keep_first seen l'
      else x :: keep_first (key x :: seen) l'
  end.

Definition drop_duplicates_first (l : list A) : list A := keep_first [] l.

(** [drop_duplicates(subset=key, keep="last")]: a row stays when no row
    after it has its key. *)
Fixpoint drop_duplicates_last (l : list A) : list A :=
  match l with
  | [] => []
  | x :: l' =>
      if decide (key x ∈ key <$> l') then drop_duplicates_last l'
      else x :: drop_duplicates_last l'
  end.

End drop_duplicates.

(** Timestamps tick in nanoseconds; [.dt.total_seconds()] of a difference. *)
Definition total_seconds (ticks : Z) : Q := ticks # 1000000000.

(** [(end - start).dt.total_seconds()] of one row, when the subtraction
    does not raise: null when a time is [NaT] or the difference is the
    missing timedelta. *)
Definition duration_s (start_time end_time : Z) : option Q :=
  if decide (start_time = NaT ∨ end_time = NaT ∨ end_time - start_time = NaT)%Z
  then None
  else Some (total_seconds (end_time - start_time)).

(** The row of the lap-window table made of a start and an end event. *)
Definition window_of (s e : LapEvent.t) : LapWindow.t :=
  {| LapWindow.vehicle_id := LapEvent.vehicle_id s;
     LapWindow.lap_number := LapEvent.lap_number s;
     LapWindow.lap_start_time := LapEvent.timestamp s;
     LapWindow.lap_end_time := LapEvent.timestamp e;
     LapWindow.lap_duration_s :=
       duration_s (LapEvent.timestamp s) (LapEvent.timestamp e) |}.

(** What the builder evaluates to. [Merged] is the table it returns when
    every window has its two times; [MergedNaT] is the table it returns
    when a time of some window is [NaT] (such a table is not a table of
    lap windows for [assign_laps], which takes times that are set);
    [MergeError] is the error of the [one_to_one] validation and
    [OverflowError] the error of the duration column. *)
Inductive merge_outcome :=
  | Merged (lap_windows : list LapWindow.t)
  | MergedNaT (lap_windows : list LapWindow.t)
  | MergeError
  | OverflowError.

(** The table returned, if one is. *)
Definition returned (outcome : merge_outcome) (lap_windows : list LapWindow.t)
  : Prop :=
  outcome = Merged lap_windows ∨ outcome = MergedNaT lap_windows.

(** The rows an inner join on (vehicle_id, lap_number) makes of one start
    row: one with each end row of its key. *)
Definition matches (lap_end : list LapEvent.t) (s : LapEvent.t)
  : list LapWindow.t :=
  window_of s <$> filter (λ e, LapEvent.key e = LapEvent.key s) lap_end.

(** [lap_start.merge(lap_end, on=["vehicle_id", "lap_number"], how="inner",
    validate="one_to_one")]: the keys of each side must be unique, or the
    merge raises; the rows come in the order of the left keys. *)
Definition merge_one_to_one (lap_start lap_end : list LapEvent.t) : merge_outcome :=
  if decide (NoDup (LapEvent.key <$> lap_start) ∧ NoDup (LapEvent.key <$> lap_end))
  then Merged (lap_start ≫= matches lap_end)
  else MergeError.

(** [lap_start.sort_values([...]).drop_duplicates(subset=[...], keep="first")] *)
Definition first_starts (lap_start : list LapEvent.t) : list LapEvent.t :=
  drop_duplicates_first LapEvent.key (sort_values LapEvent.le lap_start).

(** [lap_end.sort_values([...]).drop_duplicates(subset=[...], keep="last")] *)
Definition last_ends (lap_end : list LapEvent.t) : list LapEvent.t :=
  drop_duplicates_last LapEvent.key (sort_values LapEvent.le lap_end).

Definition _prepare_lap_windows (lap_start lap_end : list LapEvent.t)
  : merge_outcome :=
  match merge_one_to_one (first_starts lap_start) (last_ends lap_end) with
  | Merged lap_windows =>
      let lap_windows := sort_values LapWindow.le lap_windows in
      (* [lap_windows["lap_end_time"] - lap_windows["lap_start_time"]] *)
      if decide (Exists LapWindow.span_overflows lap_windows) then OverflowError
      else if decide (Exists LapWindow.has_NaT lap_windows)
           then MergedNaT lap_windows
           else Merged lap_windows
  | other => other
  end.

(** *** Lap assignment *)

(** A raw telemetry row: the two columns [assign_laps] reads, and the rest
    of the row. *)
Module Telemetry.
Record t {P : Type} := { vehicle_id : string; meta_time : Z; payload : P }.
Arguments t : clear implicits.
(** Row order of [sort_values([time_col, vehicle_col])]. *)
Definition le {P} (r1 r2 : t P) : Prop :=
  (meta_time r1 ≤ meta_time r2)%Z ∧
  (meta_time r1 = meta_time r2 → String.le (vehicle_id r1) (vehicle_id r2)).
#[global] Instance le_dec {P} : RelDecision (@le P).
Proof. intros r1 r2. unfold le. apply _. Defined.
End Telemetry.

Section assign_laps.
Context {P : Type}.

(** A window that [merge_asof(direction="backward", by=vehicle_col,
    allow_exact_matches=True)] may give to a row: same vehicle, started at
    or before the row's time. *)
Definition candidate (row : Telemetry.t P) (w : LapWindow.t) : Prop :=
  LapWindow.vehicle_id w = Telemetry.vehicle_id row ∧
  (LapWindow.lap_start_time w ≤ Telemetry.meta_time row)%Z.

#[global] Instance candidate_dec row w : Decision (candidate row w).
Proof. unfold candidate. apply _. Defined.

(** [pd.merge_asof]: every left row, with the last candidate of the right
    table (sorted on [lap_start_time]) when there is one. *)
Definition merge_asof (telemetry : list (Telemetry.t P))
    (lap_windows : list LapWindow.t)
  : list (Telemetry.t P * option LapWindow.t) :=
  (λ row, (row, last (filter (candidate row) lap_windows))) <$> telemetry.

(** [merged[time_col] <= merged["lap_end_time"]]; a comparison with a
    missing [lap_end_time] is false. *)
Definition mask (merged_row : Telemetry.t P * option LapWindow.t)
  : option (Telemetry.t P * LapWindow.t) :=
  match merged_row.2 with
  | Some w =>
      if decide (Telemetry.meta_time merged_row.1 ≤ LapWindow.lap_end_time w)%Z
      then Some (merged_row.1, w) else None
  | None => None
  end.

(** The rows kept, each with the window whose [lap_number] becomes its
    [lap] and whose times become its lap metadata. *)
Definition assign_laps (telemetry : list (Telemetry.t P))
    (lap_windows : list LapWindow.t) : list (Telemetry.t P * LapWindow.t) :=
  let telemetry := sort_values Telemetry.le telemetry in
  let lap_windows := sort_values LapWindow.start_le lap_windows in
  omap mask (merge_asof telemetry lap_windows).

(** The row's time is inside the window. *)
Definition inside (row : Telemetry.t P) (w : LapWindow.t) : Prop :=
  (LapWindow.lap_start_time w ≤ Telemetry.meta_time row ≤ LapWindow.lap_end_time w)%Z.

End assign_laps.

(** *** Per-lap aggregation *)

Inductive Stat := mean | max | min | std.

Definition stat_name (stat : Stat) : string :=
  match stat with mean => "mean" | max => "max" | min => "min" | std => "std" end.

Module AggregationSpec.
Record t := { column : string; stats : list Stat }.
End AggregationSpec.

(** From [config.py]. *)
Definition TELEMETRY_AGGREGATIONS : list AggregationSpec.t := [
  {| AggregationSpec.column := "speed"; AggregationSpec.stats := [mean; max] |};
  {| AggregationSpec.column := "Steering_Angle"; AggregationSpec.stats := [mean; std] |};
  {| AggregationSpec.column := "ath"; AggregationSpec.stats := [mean; max; std] |};
  {| AggregationSpec.column := "pbrake_f"; AggregationSpec.stats := [mean; max] |};
  {| AggregationSpec.column := "pbrake_r"; AggregationSpec.stats := [mean; max] |};
  {| AggregationSpec.column := "nmot"; AggregationSpec.stats := [mean; max; std] |};
  {| AggregationSpec.column := "accx_can"; AggregationSpec.stats := [mean; max; min; std] |};
  {| AggregationSpec.column := "accy_can"; AggregationSpec.stats := [mean; max; min; std] |};
  {| AggregationSpec.column := "gear"; AggregationSpec.stats := [mean; max] |} ].

(** An aggregated cell: null, a rational, or the square root of a
    rational (a standard deviation). *)
Inductive value := NaN | Num (q : Q) | Sqrt (q : Q).

(** A group's statistic of one signal, over its non-null readings;
    [std] is the sample standard deviation. *)
Definition aggregate (stat : Stat) (xs : list Q) : value :=
  let n := inject_Z (Z.of_nat (length xs)) in
  match stat, xs with
  | _, [] => NaN
  | mean, _ => Num (Qsum xs / n)
  | max, x :: xs' => Num (series_max x xs')
  | min, x :: xs' => Num (series_min x xs')
  | std, [_] => NaN
  | std, _ =>
      let m := (Qsum xs / n)%Q in
      Sqrt (Qsum ((λ x, (x - m) * (x - m))%Q <$> xs) / (n - 1))
  end.

(** A row of lap-tagged, wide-format telemetry: its group key, its
    non-null signal readings, and its lap metadata. *)
Module Wide.
Record t := {
  vehicle_id : string;
  lap : Z;
  signals : gmap string Q;
  lap_start_time : option Z;
  lap_end_time : option Z;
  lap_duration_s : option Q }.
Definition key (r : t) : string * Z := (vehicle_id r, lap r).
Record frame := { columns : list string; rows : list t }.
End Wide.

(** A row of the per-lap feature table. *)
Module PerLap.
Record t := {
  vehicle_id : string;
  lap : Z;
  aggregates : list (string * value);
  samples_per_lap : option nat;
  lap_start_time : option Z;
  lap_end_time : option Z;
  lap_duration_s : option Q }.
Definition key (r : t) : string * Z := (vehicle_id r, lap r).
Record frame := { columns : list string; rows : list t }.
End PerLap.

Inductive aggregate_outcome :=
  | Aggregated (per_lap : PerLap.frame)
  | MissingColumns (missing : list string)
  | NoConfiguredColumn.

Section merge_left.
Context {L R K : Type} `{EqDecision K} (left_key : L → K) (right_key : R → K).

(** [left.merge(right, on=key, how="left")]: every left row, once with
    each right row of its key, or once without any. *)
Definition merge_left (left : list L) (right : list R) : list (L * option R) :=
  l ← left;
  match filter (λ r, right_key r = left_key l) right with
  | [] => [(l, None)]
  | rs => (λ r, (l, Some r)) <$> rs
  end.

End merge_left.

(** The keys of [groupby([vehicle, "lap"])], which sorts them. *)
Definition group_keys (rows : list Wide.t) : list (string * Z) :=
  drop_duplicates_first id (sort_values key_le (Wide.key <$> rows)).

Definition group (rows : list Wide.t) (k : string * Z) : list Wide.t :=
  filter (λ r, Wide.key r = k) rows.

(** The columns [f"{col}_{stat}"] of one group. *)
Definition agg_columns (agg_dict : list (string * list Stat))
    (g : list Wide.t) : list (string * value) :=
  '(col, stats) ← agg_dict;
  (λ stat, (col +:+ "_" +:+ stat_name stat,
            aggregate stat (omap (λ r, Wide.signals r !! col) g))) <$> stats.

(** [GroupBy.first()]: the first non-null cell of a column. *)
Definition first_valid {A} (cell : Wide.t → option A) (g : list Wide.t)
  : option A :=
  head (omap cell g).

Record Meta := {
  meta_start : option Z;
  meta_end : option Z;
  meta_duration : option Q }.

Definition meta_of (available_meta : list string) (g : list Wide.t) : Meta :=
  {| meta_start :=
       if decide ("lap_start_time" ∈ available_meta)
       then first_valid Wide.lap_start_time g else None;
     meta_end :=
       if decide ("lap_end_time" ∈ available_meta)
       then first_valid Wide.lap_end_time g else None;
     meta_duration :=
       if decide ("lap_duration_s" ∈ available_meta)
       then first_valid Wide.lap_duration_s g else None |}.

Definition per_lap_row
    (merged : ((string * Z) * list (string * value)) * option ((string * Z) * nat)
              * option ((string * Z) * Meta)) : PerLap.t :=
  let '(grouped, count, meta) := merged in
  {| PerLap.vehicle_id := grouped.1.1;
     PerLap.lap := grouped.1.2;
     PerLap.aggregates := grouped.2;
     PerLap.samples_per_lap := snd <$> count;
     PerLap.lap_start_time := meta ≫= (meta_start ∘ snd);
     PerLap.lap_end_time := meta ≫= (meta_end ∘ snd);
     PerLap.lap_duration_s := meta ≫= (meta_duration ∘ snd) |}.

Definition aggregate_per_lap (telemetry_with_laps : Wide.frame)
  : aggregate_outcome :=
  let columns := Wide.columns telemetry_with_laps in
  let rows := Wide.rows telemetry_with_laps in
  match filter (λ col, col ∉ columns) ["lap"; "vehicle_id"] with
  | (_ :: _) as missing => MissingColumns missing
  | [] =>
      let agg_dict :=
        (λ spec, (AggregationSpec.column spec, AggregationSpec.stats spec))
        <$> filter (λ spec, AggregationSpec.column spec ∈ columns)
                   TELEMETRY_AGGREGATIONS in
      match agg_dict with
      | [] => NoConfiguredColumn
      | _ =>
          let keys := group_keys rows in
          let grouped := (λ k, (k, agg_columns agg_dict (group rows k))) <$> keys in
          let available_meta :=
            filter (λ c, c ∈ columns)
                   ["lap_start_time"; "lap_end_time"; "lap_duration_s"] in
          let meta :=
            match available_meta with
            | [] => None
            | _ => Some ((λ k, (k, meta_of available_meta (group rows k))) <$> keys)
            end in
          let sample_counts := (λ k, (k, length (group rows k))) <$> keys in
          let grouped := merge_left fst fst grouped sample_counts in
          let grouped :=
            match meta with
            | Some meta => merge_left (fst ∘ fst) fst grouped meta
            | None => (λ g, (g, None)) <$> grouped
            end in
          Aggregated
            {| PerLap.columns :=
                 ["vehicle_id"; "lap"]
                 ++ ('(col, stats) ← agg_dict;
                     (λ stat, col +:+ "_" +:+ stat_name stat) <$> stats)
                 ++ ["samples_per_lap"] ++ available_meta;
               PerLap.rows := per_lap_row <$> grouped |}
      end
  end.

(** *** Signal pivot *)

(** A data frame by position: the column labels, which may repeat, and
    the cells of each row in column order. *)
Module Table.
Inductive cell := NaN | Str (s : string) | Int (z : Z) | Num (q : Q).
Record t := { columns : list string; rows : list (list cell) }.
(** Every row has one cell per column. *)
Definition rectangular (table : t) : Prop :=
  Forall (λ row, length row = length (columns table)) (rows table).
End Table.

Definition DEFAULT_TIMESTAMP_COL : string := "meta_time".
Definition DEFAULT_VEHICLE_COL : string := "vehicle_id".

(** [columns.duplicated()]: marks a label that occurred before. *)
Fixpoint duplicated (seen columns : list string) : list bool :=
  match columns with
  | [] => []
  | c :: columns' => bool_decide (c ∈ seen) :: duplicated (c :: seen) columns'
  end.

(** [.loc[:, ~mask]] along one axis. *)
Fixpoint loc_not {A} (mask : list bool) (l : list A) : list A :=
  match mask, l with
  | m :: mask', x :: l' => if m then loc_not mask' l' else x :: loc_not mask' l'
  | _, _ => []
  end.

(** [table.loc[:, ~table.columns.duplicated()]] *)
Definition drop_duplicated_columns (table : Table.t) : Table.t :=
  let mask := duplicated [] (Table.columns table) in
  {| Table.columns := loc_not mask (Table.columns table);
     Table.rows := loc_not mask <$> Table.rows table |}.

(** [table[labels]], for a table whose labels are distinct. *)
Definition select_columns (table : Table.t) (labels : list string) : Table.t :=
  let cell_at (row : list Table.cell) (label : string) : Table.cell :=
    match list_find (λ c, c = label) (Table.columns table) with
    | Some (i, _) => default Table.NaN (row !! i)
    | None => Table.NaN
    end in
  {| Table.columns := labels;
     Table.rows := (λ row, cell_at row <$> labels) <$> Table.rows table |}.

(** What [pivot_telemetry_signals] evaluates to: the table it returns at
    once, or pandas' reshaping of [pivot_source]
    ([pivot_table(index=index_cols, columns=signal_name_col,
    values=signal_value_col, aggfunc="mean")], [reset_index], and the left
    join with the distinct [index_cols + meta_cols] rows when [meta_cols]
    is not empty), which is kept as a call: [returned_table] takes the
    reshaping as a parameter. *)
Inductive pivot_outcome :=
  | Unpivoted (table : Table.t)
  | PivotTable (pivot_source : Table.t) (index_cols meta_cols : list string)
               (signal_name_col signal_value_col : string).

Definition long_format_columns (signal_name_col signal_value_col : string)
  : list string :=
  [DEFAULT_VEHICLE_COL; "lap"; DEFAULT_TIMESTAMP_COL;
   signal_name_col; signal_value_col].

Definition pivot_telemetry_signals (telemetry_with_laps : Table.t)
    (signal_name_col signal_value_col : string) : pivot_outcome :=
  let telemetry_with_laps := drop_duplicated_columns telemetry_with_laps in
  let required_cols := long_format_columns signal_name_col signal_value_col in
  if decide (required_cols ⊆ Table.columns telemetry_with_laps) then
    let index_cols := [DEFAULT_VEHICLE_COL; "lap"; DEFAULT_TIMESTAMP_COL] in
    let meta_cols :=
      filter (λ col, col ∈ Table.columns telemetry_with_laps)
             ["lap_start_time"; "lap_end_time"; "lap_duration_s"] in
    PivotTable
      (select_columns telemetry_with_laps
         (index_cols ++ meta_cols ++ [signal_name_col; signal_value_col]))
      index_cols meta_cols signal_name_col signal_value_col
  else Unpivoted telemetry_with_laps.



End feature_engineering.

(** ** The design document's vocabulary for lap windows *)

Module lap_design.
Import feature_engineering.

(** The earliest (latest) timestamp among the events of a key, in the
    order of the timestamp column: the earliest is the least of the
    timestamps that are set, and [NaT] when none is; the latest is [NaT]
    when some event of the key has no timestamp, and the greatest
    timestamp otherwise. *)
Definition earliest (events : list LapEvent.t) (k : string * Z) (t : Z) : Prop :=
  (∃ e, e ∈ events ∧ LapEvent.key e = k ∧ LapEvent.timestamp e = t) ∧
  ∀ e, e ∈ events → LapEvent.key e = k → pandas.time_le t (LapEvent.timestamp e).

Definition latest (events : list LapEvent.t) (k : string * Z) (t : Z) : Prop :=
  (∃ e, e ∈ events ∧ LapEvent.key e = k ∧ LapEvent.timestamp e = t) ∧
  ∀ e, e ∈ events → LapEvent.key e = k → pandas.time_le (LapEvent.timestamp e) t.

(** Every lap with both events starts before it ends: its earliest start
    and its latest end are set, and in this order. *)
Definition starts_precede_ends (lap_start lap_end : list LapEvent.t) : Prop :=
  ∀ k t0 t1, earliest lap_start k t0 → latest lap_end k t1 →
    pandas.time_lt t0 t1.

(** Of two laps of a vehicle with both events, the one with the lower
    number has ended when the other starts. *)
Definition laps_follow (lap_start lap_end : list LapEvent.t) : Prop :=
  ∀ v n m t1 t0,
    (v, n) ∈ LapEvent.key <$> lap_start → latest lap_end (v, n) t1 →
    earliest lap_start (v, m) t0 → (v, m) ∈ LapEvent.key <$> lap_end →
    (n < m)%Z → pandas.time_leq t1 t0.

(** No lap with both events spans more than an int64 of nanoseconds. *)
Definition spans_fit (lap_start lap_end : list LapEvent.t) : Prop :=
  ∀ k t0 t1, earliest lap_start k t0 → latest lap_end k t1 →
    ¬ pandas.overflows t0 t1.



End lap_design.

(** ** The design document's reading of the instant score *)

Module design.
Import pandas karma_stream.

(** The globally-normalized value of a feature in a row. *)
Definition normalized (row : LapRow) (stats : gmap string (Q * Q))
    (feature : string) : Q :=
  let '(min_val, max_val) := default (0, 0)%Q (stats !! feature) in
  _normalize (features row !! feature) min_val max_val.

Definition non_null (row : LapRow) (fw : string * Q) : Prop :=
  is_Some (features row !! fw.1).

#[global] Instance non_null_dec row fw : Decision (non_null row fw).
Proof. unfold non_null. apply _. Defined.

Definition weighted_sum (row : LapRow) (stats : gmap string (Q * Q))
    (ws : list (string * Q)) : Q :=
  Qsum ((λ fw, fw.2 * normalized row stats fw.1)%Q <$> ws).

Definition total_weight (ws : list (string * Q)) : Q := Qsum (snd <$> ws).

(** "The weighted average of normalized features using the component's
    configured weights, restricted to weights whose features are non-null
    for that row; if none qualify, instant score is 0." *)
Definition restricted_average (row : LapRow) (stats : gmap string (Q * Q))
    (spec : ComponentSpec) : Q :=
  match filter (non_null row) (feature_weights spec) with
  | [] => 0
  | ws => weighted_sum row stats ws / total_weight ws
  end.

(** The same numerator over the sum of all the configured weights. *)
Definition diluted_average (row : LapRow) (stats : gmap string (Q * Q))
    (spec : ComponentSpec) : Q :=
  if Qeq_bool (total_weight (feature_weights spec)) 0 then 0
  else weighted_sum row stats (filter (non_null row) (feature_weights spec))
       / total_weight (feature_weights spec).

End design.

(** ** Invariants of the scan of [compute_stream] *)

Module scan_invariants.
Import karma_stream.

Definition in_unit (q : Q) : Prop := (0 <= q <= 1)%Q.

Definition nonneg_weights (spec : ComponentSpec) : Prop :=
  Forall (λ fw : string * Q, (0 <= fw.2)%Q) (feature_weights spec).

Definition bounded_record (r : ScoreRecord) : Prop :=
  in_unit (instant_score r) ∧ in_unit (karma_score r).

(** Every record written so far and every remembered score is in [0, 1]. *)
Definition bounded_state
    (st : list ScoreRecord * gmap (string * string) Q) : Prop :=
  Forall bounded_record st.1 ∧ map_Forall (λ _ k, in_unit k) st.2.

(** No row still to be scanned has a lap below the start lap recorded
    for its vehicle. *)
Definition starts_below (starts : gmap string Z) (todo : list LapRow) : Prop :=
  ∀ r start, r ∈ todo → starts !! vehicle_id r = Some start → (start ≤ lap r)%Z.

(** The wear term of a lap. *)
Definition wear (wear_rate : Q) (relative_lap : Z) : Q :=
  Qmin (1 # 2) (wear_rate * inject_Z relative_lap).

(** The records of one vehicle and component, in output order. *)
Definition of_component (v c : string) (r : ScoreRecord) : Prop :=
  rec_vehicle_id r = v ∧ component r = c.

#[global] Instance of_component_dec v c r : Decision (of_component v c r).
Proof. unfold of_component. apply _. Defined.

Definition karma_series (v c : string) (recs : list ScoreRecord) : list Q :=
  karma_score <$> filter (of_component v c) recs.

Definition lap_series (v c : string) (recs : list ScoreRecord) : list Z :=
  rec_lap <$> filter (of_component v c) recs.

Definition zero_stress (v c : string) (recs : list ScoreRecord) : Prop :=
  ∀ r, r ∈ recs → of_component v c r → (instant_score r == 0)%Q.

(** The state kept for one vehicle and component while its instant score
    stays at zero: the series so far is non-decreasing, the remembered
    score is the last karma written, and that karma is below the bound
    the next lap will be compared with. *)
Definition floor_state (smoothing wear_rate : Q) (v c : string)
    (st : list ScoreRecord * gmap (string * string) Q)
    (starts : gmap string Z) (todo : list LapRow) : Prop :=
  zero_stress v c st.1 →
  Sorted Qle (karma_series v c st.1) ∧
  Sorted Z.le (lap_series v c st.1) ∧
  st.2 !! (v, c) = last (karma_series v c st.1) ∧
  ∀ r, last (filter (of_component v c) st.1) = Some r →
    ∃ p start,
      starts !! v = Some start ∧ (start ≤ rec_lap r)%Z ∧
      (∀ r', r' ∈ todo → vehicle_id r' = v → (rec_lap r ≤ lap r')%Z) ∧
      (0 <= p)%Q ∧ (p <= karma_score r)%Q ∧ (karma_score r <= 1)%Q ∧
      (karma_score r <= smoothing * p + wear wear_rate (rec_lap r - start + 1))%Q.

End scan_invariants.

(** ** Sample inputs *)

Module samples.
Import karma_stream.

Definition feature_columns : list string :=
  ["vehicle_id"; "lap"; "speed_mean"; "nmot_mean"; "gear_mean"; "accx_can_std";
   "pbrake_f_max"; "pbrake_r_max"; "Steering_Angle_std"].

(** Lap 1 of V1 has every engine feature; on lap 2 the engine-speed
    reading [nmot_mean] is null. *)
Definition lap1 : LapRow :=
  {| vehicle_id := "V1"; lap := 1;
     features := {[ "speed_mean" := 80%Q; "nmot_mean" := 5000%Q ]} |}.
Definition lap2 : LapRow :=
  {| vehicle_id := "V1"; lap := 2;
     features := {[ "speed_mean" := 120%Q ]} |}.

Definition two_laps : DataFrame :=
  {| columns := feature_columns; rows := [lap2; lap1] |}.

Definition two_laps_stats : gmap string (Q * Q) :=
  _column_stats two_laps (elements (required_cols COMPONENT_SPECS)).

(** The design document's scenario: V1 drives lap 1 at [speed_mean] 100
    while the fleet's [speed_mean] ranges over 80..120. *)
Definition scenario : DataFrame :=
  {| columns := feature_columns;
     rows := [ {| vehicle_id := "V1"; lap := 1;
                  features := {[ "speed_mean" := 100%Q ]} |};
               {| vehicle_id := "V2"; lap := 1;
                  features := {[ "speed_mean" := 80%Q ]} |};
               {| vehicle_id := "V2"; lap := 2;
                  features := {[ "speed_mean" := 120%Q ]} |} ] |}.

(** A table without rows and without any feature column. *)
Definition no_rows : DataFrame :=
  {| columns := ["vehicle_id"; "lap"]; rows := [] |}.

(** A table with rows whose only feature column is [speed_mean]. *)
Definition speed_only : DataFrame :=
  {| columns := ["vehicle_id"; "lap"; "speed_mean"]; rows := [lap1; lap2] |}.

End samples.

Module lap_samples.
Import feature_engineering.

Definition event (v : string) (n t : Z) : LapEvent.t :=
  {| LapEvent.vehicle_id := v; LapEvent.lap_number := n; LapEvent.timestamp := t |}.

(** The start of lap 3 of V1 is emitted twice, at t=12 and at t=10. *)
Definition duplicated_starts : list LapEvent.t :=
  [event "V1" 3 12; event "V2" 1 0; event "V1" 3 10; event "V1" 2 5].
Definition some_ends : list LapEvent.t :=
  [event "V1" 3 20; event "V1" 3 25; event "V2" 2 9; event "V1" 2 10].

(** A lap whose only end event is stamped before its only start event. *)
Definition late_start : list LapEvent.t := [event "V1" 1 10].
Definition early_end : list LapEvent.t := [event "V1" 1 5].

(** Two laps of V1, back to back. *)
Definition two_starts : list LapEvent.t := [event "V1" 2 10; event "V1" 1 0].
Definition two_ends : list LapEvent.t := [event "V1" 1 10; event "V1" 2 25].

(** Telemetry of V1 around two windows with a gap between them: before
    the first start, inside lap 1, in the gap, inside lap 2, after the
    last end; and a row of a vehicle without windows. *)
Definition sample (v : string) (t : Z) : Telemetry.t unit :=
  {| Telemetry.vehicle_id := v; Telemetry.meta_time := t; Telemetry.payload := tt |}.
Definition gapped_windows : list LapWindow.t :=
  [window_of (event "V1" 2 15) (event "V1" 2 25);
   window_of (event "V1" 1 0) (event "V1" 1 10)].
Definition some_telemetry : list (Telemetry.t unit) :=
  [sample "V1" 30; sample "V1" 20; sample "V1" 12; sample "V1" 10;
   sample "V1" (-1); sample "V2" 5].

(** Three wide rows in two groups; only [speed] and [gear] of the
    configured signals are columns of the table. *)
Definition wide (v : string) (n : Z) (signals : gmap string Q) : Wide.t :=
  {| Wide.vehicle_id := v; Wide.lap := n; Wide.signals := signals;
     Wide.lap_start_time := Some 0%Z; Wide.lap_end_time := None;
     Wide.lap_duration_s := None |}.
Definition three_rows : Wide.frame :=
  {| Wide.columns := ["vehicle_id"; "lap"; "speed"; "gear"; "lap_start_time"];
     Wide.rows := [wide "V1" 2 {[ "speed" := 3%Q ]};
                   wide "V1" 1 {[ "speed" := 3%Q ]};
                   wide "V1" 2 {[ "speed" := 5%Q; "gear" := 2%Q ]}] |}.

(** An already-wide table in which the label [speed] occurs twice. *)
Definition repeated_label : Table.t :=
  {| Table.columns := ["vehicle_id"; "speed"; "lap"; "speed"];
     Table.rows := [[Table.Str "V1"; Table.Num 100; Table.Int 1; Table.Num 101]] |}.

(** An already-wide table with distinct labels. *)
Definition wide_table : Table.t :=
  {| Table.columns := ["vehicle_id"; "lap"; "meta_time"; "speed"];
     Table.rows := [[Table.Str "V1"; Table.Int 1; Table.Int 10; Table.Num 100];
                    [Table.Str "V1"; Table.Int 1; Table.Int 11; Table.NaN]] |}.

End lap_samples.

(** ** Vocabulary for the further properties of the risk engine *)

Module risk_facts.
Import pandas karma_stream.

(** The entry [_column_stats] writes for a column. *)
Definition column_range (df : DataFrame) (col : string) : Q * Q :=
  match column_dropna df col with
  | [] => (0, 0)%Q
  | x :: xs => (series_min x xs, series_max x xs)
  end.

(** What a record says besides its karma. *)
Definition record_head (r : ScoreRecord) : string * Z * string * Q :=
  (rec_vehicle_id r, rec_lap r, component r, instant_score r).

(** The heads of the records a row gives rise to, one per component. *)
Definition row_heads (specs : list ComponentSpec) (stats : gmap string (Q * Q))
    (row : LapRow) : list (string * Z * string * Q) :=
  (λ spec, (vehicle_id row, lap row, name spec, _component_score row stats spec))
  <$> specs.

(** The karma of a lap from the previous karma of the vehicle and
    component ([None] on their first lap), written as a recurrence. *)
Definition karma_step (smoothing wear_rate : Q) (prev : option Q)
    (instant : Q) (relative_lap : Z) : Q :=
  Qmin 1 (smoothing * default instant prev + (1 - smoothing) * instant
          + Qmin (1 # 2) (wear_rate * inject_Z relative_lap)
            * (1 + instant * (1 # 2)))%Q.

Fixpoint karma_chain (smoothing wear_rate : Q) (start : Z) (prev : option Q)
    (laps : list (Z * Q)) : list Q :=
  match laps with
  | [] => []
  | (lap, instant) :: laps' =>
      let karma :=
        karma_step smoothing wear_rate prev instant (lap - start + 1) in
      karma :: karma_chain smoothing wear_rate start (Some karma) laps'
  end.

(** The karma series of one vehicle and component, replayed from its
    (lap, instant score) series alone: wear counts laps from the first. *)
Definition karma_replay (smoothing wear_rate : Q) (laps : list (Z * Q))
  : list Q :=
  match laps with
  | [] => []
  | (lap, _) :: _ => karma_chain smoothing wear_rate lap None laps
  end.

Definition of_vehicle (v : string) (r : ScoreRecord) : Prop :=
  rec_vehicle_id r = v.

#[global] Instance of_vehicle_dec v r : Decision (of_vehicle v r).
Proof. unfold of_vehicle. apply _. Defined.

(** Two states of the inner loop that look the same from vehicle [v]:
    the same records of [v], the same remembered scores of [v]. *)
Definition agree (v : string)
    (st st' : list ScoreRecord * gmap (string * string) Q) : Prop :=
  filter (of_vehicle v) st.1 = st'.1 ∧ ∀ c, st.2 !! (v, c) = st'.2 !! (v, c).

(** The (lap, instant score) series of one vehicle and component. *)
Definition lap_instants (v c : string) (recs : list ScoreRecord) : list (Z * Q) :=
  (λ r, (rec_lap r, instant_score r))
  <$> filter (scan_invariants.of_component v c) recs.

(** Between two rows of the scan, the karma series of [v] and [c] is the
    replay of its (lap, instant) series, the remembered score is its last
    karma, and the start lap of [v] is the lap of its first record. *)
Definition replayed (specs : list ComponentSpec) (smoothing wear_rate : Q)
    (v c : string) (st : list ScoreRecord * gmap (string * string) Q)
    (starts : gmap string Z) : Prop :=
  scan_invariants.karma_series v c st.1
  = karma_replay smoothing wear_rate (lap_instants v c st.1) ∧
  st.2 !! (v, c) = last (scan_invariants.karma_series v c st.1) ∧
  (starts !! v = None → filter (of_vehicle v) st.1 = []) ∧
  ∀ start, starts !! v = Some start →
    match lap_instants v c st.1 with
    | [] => c ∉ name <$> specs
    | (lap0, _) :: _ => lap0 = start
    end.

(** The same inside the loop over the components, for a row of [v],
    when the components [done] have been scored. *)
Definition replaying (specs done : list ComponentSpec)
    (smoothing wear_rate : Q) (v c : string) (row : LapRow) (start : Z)
    (st : list ScoreRecord * gmap (string * string) Q) : Prop :=
  scan_invariants.karma_series v c st.1
  = karma_replay smoothing wear_rate (lap_instants v c st.1) ∧
  st.2 !! (v, c) = last (scan_invariants.karma_series v c st.1) ∧
  match lap_instants v c st.1 with
  | [] => (c ∉ name <$> done) ∧ (c ∉ name <$> specs ∨ start = lap row)
  | (lap0, _) :: _ => lap0 = start
  end.

End risk_facts.

(** ** utils.py and the schema of the lap tables *)

Module utils.

(** [ensure_columns(df, required, df_name)] returns, or raises
    [ValueError] with the required columns that [df] lacks. *)
Inductive checked := Passed | Missing (missing : list string).

Definition ensure_columns (columns required : list string) : checked :=
  match filter (λ col, col ∉ columns) required with
  | [] => Passed
  | missing => Missing missing
  end.

End utils.

Module lap_schema.
Import utils.

(** [df.rename(columns=rename_map)], on the column labels. *)
Definition rename (rename_map : gmap string string) (columns : list string)
  : list string :=
  (λ col, default col (rename_map !! col)) <$> columns.

(** [_normalize_lap_bounds], on the column labels of a lap table. *)
Definition _normalize_lap_bounds (columns : list string) : list string :=
  let rename_map : gmap string string := ∅ in
  let rename_map :=
    if decide (("lap_number" ∉ columns) ∧ "lap" ∈ columns)
    then <["lap" := "lap_number"]> rename_map else rename_map in
  let rename_map :=
    if decide (("timestamp" ∉ columns) ∧ "value" ∈ columns)
    then <["value" := "timestamp"]> rename_map else rename_map in
  if decide (rename_map = ∅) then columns else rename rename_map columns.

(** The three columns [_prepare_lap_windows] requires of each lap table;
    the source holds them in a set, so the order in which a failed check
    lists the missing ones is not fixed. *)
Definition required_cols : list string := ["vehicle_id"; "lap_number"; "timestamp"].

(** The first two steps of [_prepare_lap_windows] on one lap table. *)
Definition check_lap_table (columns : list string) : checked :=
  ensure_columns (_normalize_lap_bounds columns) required_cols.

End lap_schema.

(** ** Lap windows that do not overlap *)

Module window_design.
Import feature_engineering.




End window_design.

(** ** config.py: the labels of an aggregation *)

Module config.
Import feature_engineering.

(** [AggregationSpec.output_columns]; the record of [feature_engineering]
    leaves the [rename] field out, so it is passed beside it. None of the
    configured specs sets it. *)
Definition output_columns (spec : AggregationSpec.t)
    (rename : option (gmap string string)) : list string :=
  let postfix_map := default ∅ rename in
  (λ stat, let suffix := default (stat_name stat) (postfix_map !! stat_name stat) in
           AggregationSpec.column spec +:+ "_" +:+ suffix)
  <$> AggregationSpec.stats spec.

End config.

(** ** The per-lap table *)

Module per_lap_facts.
Import feature_engineering.

(** The configured specs whose signal is a column of the telemetry. *)
Definition configured (columns : list string) : list AggregationSpec.t :=
  filter (λ spec, AggregationSpec.column spec ∈ columns) TELEMETRY_AGGREGATIONS.

Definition agg_dict (columns : list string) : list (string * list Stat) :=
  (λ spec, (AggregationSpec.column spec, AggregationSpec.stats spec))
  <$> configured columns.

Definition available_meta (columns : list string) : list string :=
  filter (λ c, c ∈ columns) ["lap_start_time"; "lap_end_time"; "lap_duration_s"].

(** The signals the features of the risk engine are aggregated from,
    each with the feature [COMPONENT_SPECS] reads. *)
Definition risk_features : list (string * string) :=
  [("speed", "speed_mean"); ("nmot", "nmot_mean"); ("gear", "gear_mean");
   ("accx_can", "accx_can_std"); ("pbrake_f", "pbrake_f_max");
   ("pbrake_r", "pbrake_r_max"); ("Steering_Angle", "Steering_Angle_std")].

Definition risk_signals : list string := risk_features.*1.

(** [api.py], [process_uploaded_telemetry], on the column labels:
    [if "dnf_flag" not in per_lap.columns: per_lap["dnf_flag"] = 0]. *)
Definition with_dnf_flag (columns : list string) : list string :=
  if decide ("dnf_flag" ∈ columns) then columns else columns ++ ["dnf_flag"].

End per_lap_facts.

Module per_lap_samples.
Import feature_engineering.

(** Wide telemetry of one lap with the seven signals of the risk
    engine, and a per-lap table with the columns aggregated from it. *)
Definition seven_signals : Wide.frame :=
  {| Wide.columns :=
       ["vehicle_id"; "lap"; "meta_time"; "speed"; "nmot"; "gear"; "accx_can";
        "pbrake_f"; "pbrake_r"; "Steering_Angle"];
     Wide.rows :=
       [ {| Wide.vehicle_id := "V1"; Wide.lap := 1;
            Wide.signals := {[ "speed" := 100%Q; "nmot" := 5000%Q ]};
            Wide.lap_start_time := None; Wide.lap_end_time := None;
            Wide.lap_duration_s := None |} ] |}.

Definition per_lap_features : karma_stream.DataFrame :=
  {| karma_stream.columns :=
       ["vehicle_id"; "lap"; "speed_mean"; "speed_max";
        "Steering_Angle_mean"; "Steering_Angle_std";
        "pbrake_f_mean"; "pbrake_f_max"; "pbrake_r_mean"; "pbrake_r_max";
        "nmot_mean"; "nmot_max"; "nmot_std";
        "accx_can_mean"; "accx_can_max"; "accx_can_min"; "accx_can_std";
        "gear_mean"; "gear_max"; "samples_per_lap"; "dnf_flag"];
     karma_stream.rows :=
       [ {| karma_stream.vehicle_id := "V1"; karma_stream.lap := 1;
            karma_stream.features :=
              {[ "speed_mean" := 100%Q; "nmot_mean" := 5000%Q ]} |} ] |}.

End per_lap_samples.

Module pivot_samples.
Import feature_engineering.

(** Long-format telemetry in which [merge_asof] has left a second
    [vehicle_id] column, with one lap-metadata column. *)
Definition long_table : Table.t :=
  {| Table.columns :=
       ["telemetry_name"; "vehicle_id"; "telemetry_value"; "lap"; "meta_time";
        "lap_end_time"; "vehicle_id"];
     Table.rows :=
       [[Table.Str "speed"; Table.Str "V1"; Table.Num 100; Table.Int 1;
         Table.Int 10; Table.Int 25; Table.Str "V9"];
        [Table.Str "gear"; Table.Str "V1"; Table.Num 3; Table.Int 1;
         Table.Int 10; Table.Int 25; Table.Str "V9"]] |}.



End pivot_samples.

(** ** feature_engineering.py: race results *)

Module race_results.
Import feature_engineering utils.

Definition TARGET_COLUMN : string := "dnf_flag".
Definition STATUS_COLUMN : string := "STATUS".

(** A row of the race results: the two columns [merge_with_results]
    reads, and the rest of the row. [build_per_lap_dataset] drops the
    rows without a vehicle id before the merge. *)
Module Result.
Record t {R : Type} := { vehicle_id : string; STATUS : option string; rest : R }.
Arguments t : clear implicits.
Record frame {R : Type} := { columns : list string; rows : list (t R) }.
Arguments frame : clear implicits.
End Result.

(** [.eq("DNF").astype(int)]; a null status is not equal to anything. *)
Definition dnf_flag (status : option string) : Z :=
  if decide (status = Some "DNF") then 1 else 0.

Inductive results_outcome {L R : Type} :=
  | Labelled (merged : list (L * option (Result.t R) * Z))
  | ResultsMissing (missing : list string).
Arguments results_outcome : clear implicits.

(** [merge_with_results], for a per-lap table that has a [vehicle_id]
    column and no [STATUS] column of its own: each row of the result
    carries the per-lap row, the results row merged to it, if any, and
    its [dnf_flag]. *)
Definition merge_with_results {L R} (vehicle_id : L → string)
    (per_lap : list L) (results : Result.frame R) : results_outcome L R :=
  match ensure_columns (Result.columns results) ["vehicle_id"; STATUS_COLUMN] with
  | Missing missing => ResultsMissing missing
  | Passed =>
      let merged :=
        merge_left vehicle_id Result.vehicle_id per_lap (Result.rows results) in
      Labelled ((λ m, (m, dnf_flag (m.2 ≫= Result.STATUS))) <$> merged)
  end.

End race_results.

Module results_samples.
Import race_results.

(** Laps of three vehicles, named by their vehicle; V1 did not finish,
    and V3 has no results row. *)
Definition laps : list string := ["V1"; "V2"; "V1"; "V3"].
Definition results : Result.frame unit :=
  {| Result.columns := ["NUMBER"; "STATUS"; "vehicle_id"];
     Result.rows :=
       [ {| Result.vehicle_id := "V1"; Result.STATUS := Some "DNF";
            Result.rest := tt |};
         {| Result.vehicle_id := "V2"; Result.STATUS := Some "Classified";
            Result.rest := tt |} ] |}.

End results_samples.

(** ** feature_engineering.py: weather *)

Module weather.
Import utils.

(** What [merge_weather] evaluates to, on the column labels of its two
    tables: the error it raises, or pandas' [merge_asof] of the two
    tables sorted on [time_col], which is not evaluated here. *)
Inductive weather_outcome :=
  | MergeAsof (on : string)
  | WeatherMissing (missing : list string)
  | KeyError (column : string).

Definition merge_weather (per_lap_columns weather_columns : list string)
    (time_col : string) : weather_outcome :=
  match ensure_columns weather_columns [time_col] with
  | Missing missing => WeatherMissing missing
  | Passed =>
      (* [weather.sort_values(time_col)] finds its column; the guarded
         sort of [per_lap] changes no label; the sort in the call of
         [merge_asof] is not guarded. *)
      if decide (time_col ∈ per_lap_columns) then MergeAsof time_col
      else KeyError time_col
  end.

End weather.

(** ** modeling.py and component_modeling.py: the feature columns *)

Module modeling.
Import utils.

(** The columns of a data set, with [pd.api.types.is_numeric_dtype] of
    each. *)
Record DataSet := { columns : list string; is_numeric_dtype : string → bool }.

Definition TARGET_COLUMN : string := "dnf_flag".

Definition ignore_cols : list string :=
  [TARGET_COLUMN; "lap"; "vehicle_id"; "STATUS"; "failed_component";
   "failure_component"; "failure_lap"].

(** The loop that collects [numeric_cols]. *)
Definition numeric_cols (df : DataSet) : list string :=
  filter (λ c, (c ∉ ignore_cols) ∧ is_numeric_dtype df c = true) (columns df).

Inductive split :=
  | Split (X : list string) (y : string)
  | TargetMissing (missing : list string)
  | NoNumericColumn.

(** [_split_features]: the feature columns [X] and the target column
    [y] it selects; the cast of the target to [int] is not evaluated
    here. *)
Definition _split_features (df : DataSet) : split :=
  match ensure_columns (columns df) [TARGET_COLUMN] with
  | Missing missing => TargetMissing missing
  | Passed =>
      match numeric_cols df with
      | [] => NoNumericColumn
      | X => Split X TARGET_COLUMN
      end
  end.

End modeling.

Module component_modeling.

(** [_split_features_for_component]: the feature columns, or [None]
    for its [ValueError]. *)
Definition _split_features_for_component (df : modeling.DataSet)
  : option (list string) :=
  let ignore_cols :=
    [modeling.TARGET_COLUMN; "lap"; "vehicle_id"; "STATUS"; "failed_component";
     "failure_component"; "failure_lap"] in
  match filter (λ c, (c ∉ ignore_cols) ∧ modeling.is_numeric_dtype df c = true)
               (modeling.columns df) with
  | [] => None
  | X => Some X
  end.

End component_modeling.

Module lap_edges.
Import feature_engineering lap_samples.

(** A lap whose start and end events are more than an int64 of
    nanoseconds apart (some 317 years). *)
Definition far_start : list LapEvent.t := [event "V1" 1 (-5000000000000000000)].
Definition far_end : list LapEvent.t := [event "V1" 1 5000000000000000000].

(** A lap with two end events, one of them without a timestamp. *)
Definition one_start : list LapEvent.t := [event "V1" 1 0].
Definition unstamped_end : list LapEvent.t :=
  [event "V1" 1 pandas.NaT; event "V1" 1 10].

End lap_edges.

(** ** pandas' reshaping of long-format telemetry *)

(** The three calls [pivot_telemetry_signals] makes on [pivot_source]:
    [pivot_table(index=index_cols, columns=signal_name_col,
    values=signal_value_col, aggfunc="mean")], [reset_index()] and, when
    there are lap-metadata columns, the left join with the distinct
    [index_cols + meta_cols] rows. *)
Module pandas_pivot.
Import pandas feature_engineering.

#[global] Instance Q_eq_dec : EqDecision Q.
Proof. solve_decision. Defined.

#[global] Instance cell_eq_dec : EqDecision Table.cell.
Proof. solve_decision. Defined.

#[global] Instance Qle_dec : RelDecision Qle.
Proof. intros p q. unfold Qle. apply _. Defined.

(** A row of [pivot_source], whose columns are
    [index_cols + meta_cols + [signal_name_col, signal_value_col]]. *)
Module Reading.
Record t := {
  index : list Table.cell;
  meta : list Table.cell;
  name : Table.cell;
  value : Table.cell }.
End Reading.


Definition is_str (c : Table.cell) : bool :=
  match c with Table.Str _ => true | _ => false end.
Definition is_int (c : Table.cell) : bool :=
  match c with Table.Int _ => true | _ => false end.
Definition is_num (c : Table.cell) : bool :=
  match c with Table.Num _ => true | _ => false end.

(** A float is held once, as the fraction in lowest terms. *)
Definition lowest_terms (c : Table.cell) : bool :=
  match c with Table.Num q => bool_decide (Qred q = q) | _ => true end.

Definition column (j : nat) (rows : list (list Table.cell)) : list Table.cell :=
  (λ row, default Table.NaN (row !! j)) <$> rows.

(** The tables the reshaping is described on: distinct labels; index
    columns without nulls, each of strings or of integers; a signal-name
    column without nulls, of strings or of floats; a signal-value column
    of floats without nulls. *)
Definition covered (pivot_source : Table.t) (index_cols meta_cols : list string)
    (signal_name_col signal_value_col : string) : Prop :=
  let rows := Table.rows pivot_source in
  let n := length index_cols + length meta_cols in
  Table.columns pivot_source
  = index_cols ++ meta_cols ++ [signal_name_col; signal_value_col] ∧
  NoDup (Table.columns pivot_source) ∧
  Table.rectangular pivot_source ∧
  Forall (λ row, forallb lowest_terms row = true) rows ∧
  Forall (λ j, forallb is_str (column j rows) || forallb is_int (column j rows)
               = true)
         (seq 0 (length index_cols)) ∧
  forallb is_str (column n rows) || forallb is_num (column n rows) = true ∧
  forallb is_num (column (n + 1) rows) = true.

#[global] Instance covered_dec pivot_source index_cols meta_cols
    signal_name_col signal_value_col :
  Decision (covered pivot_source index_cols meta_cols
              signal_name_col signal_value_col).
Proof. unfold covered, Table.rectangular. apply _. Defined.

(** The order of the cells of a column of one kind. *)
Definition cell_le (a b : Table.cell) : Prop :=
  match a, b with
  | Table.Str s1, Table.Str s2 => String.le s1 s2
  | Table.Int z1, Table.Int z2 => (z1 ≤ z2)%Z
  | Table.Num q1, Table.Num q2 => (q1 <= q2)%Q
  | _, _ => True
  end.

#[global] Instance cell_le_dec : RelDecision cell_le.
Proof. intros [] []; simpl; apply _. Defined.

(** The order of the index of the pivoted table: by its first column,
    then by the next. *)
Fixpoint index_le (k1 k2 : list Table.cell) : Prop :=
  match k1, k2 with
  | a :: k1', b :: k2' => cell_le a b ∧ (a = b → index_le k1' k2')
  | _, _ => True
  end.

#[global] Instance index_le_dec : RelDecision index_le.
Proof.
  intros k1. induction k1 as [|a k1 IH]; intros [|b k2]; simpl; apply _.
Defined.


(** [aggfunc="mean"]; the mean of one reading is that reading. *)
Definition mean (xs : list Q) : Q :=
  Qred (Qsum xs / inject_Z (Z.of_nat (length xs))).



End pandas_pivot.

(** * Properties *)

(** Case analysis on a membership in a list that is written out. *)
Ltac list_cases H :=
  repeat (apply elem_of_cons in H as [->|H]); try (by apply elem_of_nil in H).

(** ** Sorting *)

Section sort_values_facts.
Import pandas.
Context {A : Type} (R : relation A) `{!RelDecision R}.

Lemma insert_row_Permutation x l : insert_row R x l ≡ₚ x :: l.
Proof.
  induction l as [|y l IH]; simpl; [done|].
  case_decide; [done|]. rewrite IH. apply Permutation_swap.
Qed.

Lemma sort_values_Permutation l : sort_values R l ≡ₚ l.
Proof.
  induction l as [|x l IH]; simpl; [done|].
  by rewrite insert_row_Permutation, IH.
Qed.

Lemma elem_of_sort_values x l : x ∈ sort_values R l ↔ x ∈ l.
Proof. by rewrite sort_values_Permutation. Qed.

Lemma sort_values_length l : length (sort_values R l) = length l.
Proof. by rewrite sort_values_Permutation. Qed.

Context `{!Total R}.

Lemma insert_row_Sorted x l : Sorted R l → Sorted R (insert_row R x l).
Proof.
  induction 1 as [|y l Hl IH Hy]; simpl; [by repeat constructor|].
  case_decide as Hxy.
  - by repeat constructor.
  - constructor; [done|].
    destruct (total R x y) as [|Hyx]; [done|].
    destruct l as [|z l]; simpl in *; [by constructor|].
    case_decide; constructor; [done|by inversion Hy].
Qed.

Lemma sort_values_Sorted l : Sorted R (sort_values R l).
Proof.
  induction l; simpl; [constructor|by apply insert_row_Sorted].
Qed.

Lemma sort_values_StronglySorted `{!Transitive R} l :
  StronglySorted R (sort_values R l).
Proof. apply Sorted_StronglySorted; [done|apply sort_values_Sorted]. Qed.

End sort_values_facts.

Section key_order.
Import pandas.

#[global] Instance key_le_trans : Transitive key_le.
Proof.
  intros [v1 l1] [v2 l2] [v3 l3] [H12 L12] [H23 L23]; simpl in *.
  split; simpl; [by etrans|]. intros ->.
  assert (v2 = v3) as -> by (by apply (anti_symm String.le)).
  specialize (L12 eq_refl). specialize (L23 eq_refl). lia.
Qed.

#[global] Instance key_le_total : Total key_le.
Proof.
  intros [v1 l1] [v2 l2]. unfold key_le; simpl.
  destruct (decide (v1 = v2)) as [->|Hne].
  - destruct (Z.le_ge_cases l1 l2); [left|right]; split; done.
  - destruct (total String.le v1 v2); [left|right]; split; try done;
      intros ?; congruence.
Qed.

#[global] Instance key_le_refl : Reflexive key_le.
Proof. intros [v l]. split; simpl; [done|lia]. Qed.

End key_order.

(** ** Component risk engine: the instant score *)

Section instant_score.
Import pandas karma_stream design.
Local Open Scope Q_scope.

Lemma normalize_range value min_val max_val :
  0 <= _normalize value min_val max_val <= 1.
Proof.
  unfold _normalize. destruct value as [v|]; [|lra].
  destruct (Qle_bool max_val min_val); [lra|].
  set (x := (v - min_val) / (max_val - min_val)).
  destruct (Q.min_spec 1 x) as [[? Hm]|[? Hm]];
    destruct (Q.max_spec 0 (Qmin 1 x)) as [[? HM]|[? HM]];
    rewrite HM; lra.
Qed.

Lemma normalize_null min_val max_val : _normalize None min_val max_val = 0.
Proof. done. Qed.

Lemma normalized_range row stats feature :
  0 <= normalized row stats feature <= 1.
Proof.
  unfold normalized. destruct (default _ _). apply normalize_range.
Qed.

Lemma normalized_null row stats feature :
  features row !! feature = None → normalized row stats feature = 0.
Proof. unfold normalized. intros ->. by destruct (default _ _). Qed.

Lemma component_score_unfold row stats spec :
  _component_score row stats spec =
  let sums := score_sums row stats (0, 0) (feature_weights spec) in
  if Qeq_bool sums.2 0 then 0 else sums.1 / sums.2.
Proof.
  unfold _component_score. by destruct (score_sums _ _ _ _).
Qed.

Lemma weighted_sum_cons row stats f w ws :
  weighted_sum row stats ((f, w) :: ws) =
  w * normalized row stats f + weighted_sum row stats ws.
Proof. done. Qed.

Lemma total_weight_cons f w ws :
  total_weight ((f, w) :: ws) = w + total_weight ws.
Proof. done. Qed.

Lemma score_sums_cons row stats a b f w ws :
  score_sums row stats (a, b) ((f, w) :: ws) =
  score_sums row stats (a + w * normalized row stats f, b + w) ws.
Proof.
  unfold score_sums, normalized; simpl. by destruct (default _ _).
Qed.

Lemma score_sums_spec row stats ws a b :
  (score_sums row stats (a, b) ws).1 == a + weighted_sum row stats ws ∧
  (score_sums row stats (a, b) ws).2 == b + total_weight ws.
Proof.
  revert a b. induction ws as [|[f w] ws IH]; intros a b.
  - unfold weighted_sum, total_weight; simpl. split; ring.
  - rewrite score_sums_cons.
    destruct (IH (a + w * normalized row stats f) (b + w)) as [-> ->].
    rewrite weighted_sum_cons, total_weight_cons. split; ring.
Qed.

Lemma weighted_sum_non_null row stats ws :
  weighted_sum row stats (filter (non_null row) ws) == weighted_sum row stats ws.
Proof.
  induction ws as [|[f w] ws IH]; [done|].
  rewrite filter_cons, weighted_sum_cons.
  destruct (decide _) as [Hf|Hf]; [by rewrite weighted_sum_cons, IH|].
  unfold non_null in Hf; simpl in Hf.
  rewrite normalized_null, IH; [ring|].
  by apply eq_None_not_Some.
Qed.

Lemma Qeq_bool_proper a b : a == b → Qeq_bool a 0 = Qeq_bool b 0.
Proof.
  intros Hab. destruct (Qeq_bool a 0) eqn:Ha, (Qeq_bool b 0) eqn:Hb; try done.
  - apply Qeq_bool_iff in Ha. apply Qeq_bool_neq in Hb. destruct Hb. by rewrite <-Hab.
  - apply Qeq_bool_iff in Hb. apply Qeq_bool_neq in Ha. destruct Ha. by rewrite Hab.
Qed.

Lemma component_score_diluted row stats spec :
  _component_score row stats spec == diluted_average row stats spec.
Proof.
  rewrite component_score_unfold. unfold diluted_average. simpl.
  destruct (score_sums_spec row stats (feature_weights spec) 0 0) as [H1 H2].
  rewrite Qplus_0_l in H1, H2.
  rewrite (Qeq_bool_proper _ _ H2).
  destruct (Qeq_bool _ 0); [done|].
  by rewrite H1, H2, weighted_sum_non_null.
Qed.

End instant_score.

(** ** Component risk engine: boundedness *)

Section boundedness.
Import pandas karma_stream design scan_invariants samples.
Local Open Scope Q_scope.

Lemma weighted_sum_range row stats ws :
  Forall (λ fw : string * Q, 0 <= fw.2) ws →
  0 <= weighted_sum row stats ws <= total_weight ws.
Proof.
  induction 1 as [|[f w] ws Hw _ IH]; [unfold weighted_sum, total_weight; simpl; lra|].
  rewrite weighted_sum_cons, total_weight_cons. simpl in Hw.
  pose proof (normalized_range row stats f) as Hn.
  assert (0 <= w * normalized row stats f <= w) by nra.
  lra.
Qed.

Lemma component_score_range row stats spec :
  nonneg_weights spec → in_unit (_component_score row stats spec).
Proof.
  intros Hw. rewrite component_score_unfold; simpl.
  destruct (score_sums_spec row stats (feature_weights spec) 0 0) as [H1 H2].
  destruct (weighted_sum_range row stats _ Hw) as [Hlo Hhi].
  destruct (Qeq_bool _ 0) eqn:Hz; [unfold in_unit; lra|].
  apply Qeq_bool_neq in Hz.
  set (a := (score_sums _ _ _ _).1) in *. set (b := (score_sums _ _ _ _).2) in *.
  assert (0 < b) by (apply Qle_lteq in Hhi; lra).
  split.
  - apply Qle_shift_div_l; [done|lra].
  - apply Qle_shift_div_r; [done|lra].
Qed.

Lemma wear_nonneg wear_rate relative_lap :
  0 <= wear_rate → (0 ≤ relative_lap)%Z → 0 <= wear wear_rate relative_lap.
Proof.
  intros Hw Hl. unfold wear.
  assert (0 <= inject_Z relative_lap)
    by (change 0 with (inject_Z 0); by rewrite <-Zle_Qle).
  assert (0 <= wear_rate * inject_Z relative_lap) by nra.
  destruct (Q.min_spec (1 # 2) (wear_rate * inject_Z relative_lap))
    as [[_ ->]|[_ ->]]; lra.
Qed.

Lemma wear_mono wear_rate l1 l2 :
  0 <= wear_rate → (l1 ≤ l2)%Z → wear wear_rate l1 <= wear wear_rate l2.
Proof.
  intros Hw Hl. unfold wear. apply Q.min_le_compat_l.
  rewrite Zle_Qle in Hl. nra.
Qed.

Lemma track_start_lookup starts row :
  ∃ start, track_start starts row !! vehicle_id row = Some start ∧
    (starts !! vehicle_id row = None → start = lap row) ∧
    (∀ s, starts !! vehicle_id row = Some s → start = s).
Proof.
  unfold track_start. destruct (starts !! vehicle_id row) as [s|] eqn:E.
  - exists s. rewrite E. naive_solver.
  - exists (lap row). rewrite lookup_insert_eq. naive_solver.
Qed.

Lemma track_start_other starts row v :
  v ≠ vehicle_id row → track_start starts row !! v = starts !! v.
Proof.
  intros Hv. unfold track_start. destruct (starts !! vehicle_id row); [done|].
  by rewrite lookup_insert_ne.
Qed.

Lemma track_start_below starts row todo :
  starts_below starts (row :: todo) →
  (∀ r, r ∈ todo → row_le row r) →
  starts_below (track_start starts row) (row :: todo).
Proof.
  intros Hb Hle r start Hr Hs.
  destruct (decide (vehicle_id r = vehicle_id row)) as [Hv|Hv].
  - rewrite Hv in Hs.
    destruct (track_start_lookup starts row) as (s & Hs' & Hnew & Hold).
    rewrite Hs' in Hs. injection Hs as <-.
    destruct (starts !! vehicle_id row) as [s0|] eqn:E.
    + rewrite (Hold s0 eq_refl). apply Hb; [done|]. by rewrite Hv.
    + rewrite (Hnew eq_refl). apply elem_of_cons in Hr as [->|Hr]; [lia|].
      destruct (Hle r Hr) as [_ Hl]. apply Hl. by symmetry.
  - rewrite track_start_other in Hs by done. by apply Hb.
Qed.

Lemma relative_lap_pos starts row todo :
  starts_below (track_start starts row) (row :: todo) →
  (1 ≤ relative_lap (track_start starts row) row)%Z.
Proof.
  intros Hb. unfold relative_lap.
  destruct (track_start_lookup starts row) as (s & Hs & _).
  rewrite Hs; simpl. pose proof (Hb row s (list_elem_of_here _ _) Hs). lia.
Qed.

Lemma starts_below_tail starts row todo :
  starts_below starts (row :: todo) → starts_below starts todo.
Proof. intros Hb r start Hr. apply Hb. by right. Qed.

Lemma score_component_bounded smoothing wear_rate stats row rel st spec :
  0 <= smoothing <= 1 → 0 <= wear_rate → (0 ≤ rel)%Z → nonneg_weights spec →
  bounded_state st →
  bounded_state (score_component smoothing wear_rate stats row rel st spec).
Proof.
  intros Hs Hw Hrel Hspec [Hrecs Hmap].
  pose proof (component_score_range row stats spec Hspec) as Hi.
  pose proof (wear_nonneg wear_rate rel Hw Hrel) as Hwear.
  unfold score_component, wear in *.
  set (instant := _component_score row stats spec) in *.
  set (prev := default instant (st.2 !! _)).
  set (w := Qmin (1 # 2) _) in *.
  assert (in_unit prev) as Hp.
  { unfold prev. destruct (st.2 !! _) eqn:E; simpl; [|done]. by apply (Hmap _ _ E). }
  unfold in_unit in *.
  assert (0 <= smoothing * prev <= smoothing) by nra.
  assert (0 <= (1 - smoothing) * instant <= 1 - smoothing) by nra.
  assert (0 <= w * (1 + instant * (1 # 2))) by nra.
  set (x := smoothing * prev + _ + _).
  assert (0 <= Qmin 1 x <= 1) as Hk.
  { destruct (Q.min_spec 1 x) as [[? ->]|[? ->]]; unfold x in *; lra. }
  split; simpl.
  - apply Forall_app; split; [done|]. apply Forall_singleton.
    split; simpl; [exact Hi|exact Hk].
  - apply map_Forall_insert_2; [exact Hk|done].
Qed.

Lemma score_components_bounded smoothing wear_rate stats row rel specs st :
  0 <= smoothing <= 1 → 0 <= wear_rate → (0 ≤ rel)%Z →
  Forall nonneg_weights specs →
  bounded_state st →
  bounded_state (foldl (score_component smoothing wear_rate stats row rel) st specs).
Proof.
  intros Hs Hw Hrel Hspecs. revert st.
  induction Hspecs as [|spec specs Hspec _ IH]; intros st Hst; simpl; [done|].
  apply IH. by apply score_component_bounded.
Qed.

Lemma scan_row_records specs smoothing wear_rate stats st row :
  (records (scan_row specs smoothing wear_rate stats st row),
   smoothed_scores (scan_row specs smoothing wear_rate stats st row)) =
  foldl (score_component smoothing wear_rate stats row
           (relative_lap (track_start (vehicle_start_laps st) row) row))
        (records st, smoothed_scores st) specs.
Proof. unfold scan_row. by destruct (foldl _ _ _). Qed.

Lemma scan_row_starts specs smoothing wear_rate stats st row :
  vehicle_start_laps (scan_row specs smoothing wear_rate stats st row) =
  track_start (vehicle_start_laps st) row.
Proof. unfold scan_row. by destruct (foldl _ _ _). Qed.

Lemma scan_bounded specs smoothing wear_rate stats todo st :
  0 <= smoothing <= 1 → 0 <= wear_rate →
  Forall nonneg_weights specs →
  StronglySorted row_le todo →
  starts_below (vehicle_start_laps st) todo →
  bounded_state (records st, smoothed_scores st) →
  Forall bounded_record
    (records (foldl (scan_row specs smoothing wear_rate stats) st todo)).
Proof.
  intros Hs Hw Hspecs Hsorted. revert st.
  induction Hsorted as [|row todo _ IH Hrow]; intros st Hstarts Hst; simpl.
  - apply Hst.
  - rewrite Forall_forall in Hrow.
    pose proof (track_start_below _ _ _ Hstarts Hrow) as Hstarts'.
    apply IH.
    + rewrite scan_row_starts. by eapply starts_below_tail.
    + rewrite scan_row_records. apply score_components_bounded; try done.
      pose proof (relative_lap_pos _ _ _ Hstarts'). lia.
Qed.

(** The first record of a vehicle and component is not smoothed: its karma
    is its instant score plus the wear of the lap, capped at 1. *)
Lemma first_lap_not_smoothed smoothing wear_rate stats row rel st spec :
  st.2 !! (vehicle_id row, name spec) = None →
  ∃ r, (score_component smoothing wear_rate stats row rel st spec).1 = st.1 ++ [r] ∧
    karma_score r
    == Qmin 1 (instant_score r
               + wear wear_rate rel * (1 + instant_score r * (1 # 2))).
Proof.
  intros Hfirst. unfold score_component. rewrite Hfirst; simpl.
  eexists. split; [done|]; simpl. unfold wear.
  set (instant := _component_score row stats spec).
  assert (smoothing * instant + (1 - smoothing) * instant == instant) as ->
    by ring.
  done.
Qed.

Example scenario_first_lap :
  ∃ r rest, compute_stream scenario (6 # 10) (2 # 1000)
            = Returned {| score_columns := SCORE_COLUMNS; score_rows := r :: rest |} ∧
    rec_vehicle_id r = "V1" ∧ rec_lap r = 1%Z ∧ component r = "engine" ∧
    instant_score r == (4 # 10) * (1 # 2) ∧
    karma_score r
    == instant_score r + Qmin (1 # 2) ((2 # 1000) * 1) * (1 + (1 # 2) * instant_score r).
Proof.
  eexists _, _. split; [vm_compute; reflexivity|].
  repeat split; vm_compute; reflexivity.
Qed.

#[global] Instance row_le_trans : Transitive row_le.
Proof. intros r1 r2 r3. unfold row_le. apply key_le_trans. Qed.

#[global] Instance row_le_total : Total row_le.
Proof. intros r1 r2. unfold row_le. apply key_le_total. Qed.

Lemma COMPONENT_SPECS_nonneg : Forall nonneg_weights COMPONENT_SPECS.
Proof. repeat constructor; simpl; discriminate. Qed.

Lemma compute_stream_returned df smoothing wear_rate out :
  compute_stream df smoothing wear_rate = Returned out →
  score_rows out =
    (if empty df then []
     else records (scan_rows COMPONENT_SPECS smoothing wear_rate
                     (_column_stats df (elements (required_cols COMPONENT_SPECS)))
                     (sort_values row_le (rows df)))).
Proof.
  unfold compute_stream. destruct (empty df); [by intros [= <-]|].
  destruct (filter _ _); [|done]. by intros [= <-].
Qed.

(** C4: every row of the Risk Engine's output has its instant score and
    its karma score in [0, 1], for a smoothing factor in [0, 1] and a
    non-negative wear rate. *)
Theorem risk_scores_bounded df smoothing wear_rate out :
  0 <= smoothing <= 1 → 0 <= wear_rate →
  compute_stream df smoothing wear_rate = Returned out →
  ∀ r, r ∈ score_rows out →
    0 <= instant_score r <= 1 ∧ 0 <= karma_score r <= 1.
Proof.
  intros Hs Hw Hout. rewrite (compute_stream_returned _ _ _ _ Hout).
  destruct (empty df); [by intros r ?%elem_of_nil|].
  apply Forall_forall. unfold scan_rows.
  apply scan_bounded;
    [exact Hs|exact Hw|apply COMPONENT_SPECS_nonneg
    |apply sort_values_StronglySorted; apply _| |].
  - intros r start _; simpl. by rewrite lookup_empty.
  - split; simpl; [constructor|apply map_Forall_empty].
Qed.

Lemma risk_scores_bounded_witness :
  ∃ out, compute_stream two_laps (6 # 10) (2 # 1000) = Returned out ∧
    length (score_rows out) = 8%nat ∧
    ∀ r, r ∈ score_rows out →
      0 <= instant_score r <= 1 ∧ 0 <= karma_score r <= 1.
Proof.
  eexists. split; [vm_compute; reflexivity|]. split; [reflexivity|].
  apply (risk_scores_bounded two_laps (6 # 10) (2 # 1000));
    [split; discriminate|discriminate|vm_compute; reflexivity].
Defined.

End boundedness.

(** ** Component risk engine: validation of the feature columns *)

Section validation.
Import pandas karma_stream design scan_invariants samples.

(** C10: on an empty data frame [compute_stream] returns the empty frame
    with the five score columns, whatever columns the input has; the check
    for missing feature columns is not reached. *)
Theorem compute_stream_empty df smoothing wear_rate :
  empty df = true →
  compute_stream df smoothing wear_rate =
    Returned {| score_columns :=
                  ["vehicle_id"; "lap"; "component"; "instant_score"; "karma_score"];
                score_rows := [] |}.
Proof. intros Hempty. unfold compute_stream. by rewrite Hempty. Qed.

Lemma compute_stream_empty_witness :
  Forall (λ c, c ∉ columns no_rows) (elements (required_cols COMPONENT_SPECS)) ∧
  compute_stream no_rows (6 # 10) (2 # 1000) =
    Returned {| score_columns :=
                  ["vehicle_id"; "lap"; "component"; "instant_score"; "karma_score"];
                score_rows := [] |}.
Proof.
  split.
  - apply (bool_decide_unpack _). vm_compute. exact I.
  - apply (compute_stream_empty no_rows). reflexivity.
Defined.

(** C8, as stated, fails: a table without rows lacks [speed_mean] (and
    every other configured feature), and no error is raised. *)
Lemma empty_table_skips_validation :
  "speed_mean" ∈ required_cols COMPONENT_SPECS ∧
("speed_mean" ∉ columns no_rows) ∧
  compute_stream no_rows (6 # 10) (2 # 1000) =
    Returned {| score_columns := SCORE_COLUMNS; score_rows := [] |}.
Proof.
  split; [|split].
  - apply (bool_decide_unpack _). by vm_compute.
  - apply (bool_decide_unpack _). by vm_compute.
  - reflexivity.
Qed.

Lemma elem_of_missing df c :
  c ∈ filter (λ col, col ∉ columns df) (elements (required_cols COMPONENT_SPECS))
  ↔ c ∈ required_cols COMPONENT_SPECS ∧ c ∉ columns df.
Proof. rewrite list_elem_of_filter, elem_of_elements. tauto. Qed.

(** C8 (amended): for a non-empty table, if some configured feature is
    absent from the columns, [compute_stream] raises a [ValueError] that
    names exactly the absent configured features; if none is absent, it
    returns. *)
Theorem compute_stream_validation df smoothing wear_rate :
  empty df = false →
  ((∃ c, c ∈ required_cols COMPONENT_SPECS ∧ c ∉ columns df) →
   ∃ missing, compute_stream df smoothing wear_rate = ValueError missing ∧
     ∀ c, c ∈ missing ↔ c ∈ required_cols COMPONENT_SPECS ∧ c ∉ columns df) ∧
  ((∀ c, c ∈ required_cols COMPONENT_SPECS → c ∈ columns df) →
   ∃ out, compute_stream df smoothing wear_rate = Returned out).
Proof.
  intros Hempty. unfold compute_stream. rewrite Hempty.
  pose proof (elem_of_missing df) as Hmiss.
  remember (required_cols COMPONENT_SPECS) as required eqn:Hreq. clear Hreq.
  destruct (filter _ _) as [|m missing]; split.
  - intros (c & Hc). apply Hmiss in Hc. by apply elem_of_nil in Hc.
  - intros _. by eexists.
  - intros _. by eexists.
  - intros Hall. destruct (Hmiss m) as [Hm _].
    destruct Hm as [Hm Habs]; [left|]. destruct Habs. by apply Hall.
Qed.

Lemma compute_stream_validation_witness :
  empty speed_only = false ∧
  ∃ missing, compute_stream speed_only (6 # 10) (2 # 1000) = ValueError missing ∧
    "nmot_mean" ∈ missing ∧ "speed_mean" ∉ missing.
Proof.
  split; [reflexivity|].
  destruct (compute_stream_validation speed_only (6 # 10) (2 # 1000) eq_refl)
    as [Hraise _].
  destruct Hraise as (missing & Hmissing & Hnames).
  - exists "nmot_mean". split; apply (bool_decide_unpack _); vm_compute; exact I.
  - exists missing. split; [exact Hmissing|]. split.
    + apply Hnames. split; apply (bool_decide_unpack _); vm_compute; exact I.
    + intros Hin. apply Hnames in Hin as [_ Habs]. apply Habs.
      apply (bool_decide_unpack _); vm_compute; exact I.
Defined.

End validation.

(** ** Component risk engine: what the instant score averages *)

Section instant_score_average.
Import pandas karma_stream design scan_invariants samples.
Local Open Scope Q_scope.

(** C1, as stated, fails: on lap 2 of the sample [nmot_mean] is null and
    [speed_mean] is at the global maximum.  The average restricted to the
    non-null feature is 1; the engine's instant score is 0.4, because the
    weight 0.6 of the null feature stays in the denominator. *)
Lemma null_feature_keeps_its_weight :
  features lap2 !! "nmot_mean" = None ∧
  _component_score lap2 two_laps_stats engine == 4 # 10 ∧
  restricted_average lap2 two_laps_stats engine == 1 ∧
  ¬ (_component_score lap2 two_laps_stats engine
     == restricted_average lap2 two_laps_stats engine).
Proof.
  split; [vm_compute; reflexivity|].
  split; [vm_compute; reflexivity|]. split; [vm_compute; reflexivity|].
  intros H. vm_compute in H. discriminate.
Qed.

(** C1 (amended): the instant score is the weighted sum of the normalized
    non-null features divided by the sum of all the weights the component
    configures (0 when that sum is 0): a null feature adds nothing to the
    numerator and its full weight to the denominator.  If no configured
    feature is non-null in the row, the instant score is 0. *)
Theorem instant_score_average row stats spec :
  _component_score row stats spec == diluted_average row stats spec ∧
  (filter (non_null row) (feature_weights spec) = [] →
   _component_score row stats spec == 0).
Proof.
  split; [apply component_score_diluted|].
  intros Hnone. rewrite component_score_diluted. unfold diluted_average.
  rewrite Hnone. destruct (Qeq_bool _ 0); [done|].
  unfold weighted_sum; simpl. by unfold Qdiv; rewrite Qmult_0_l.
Qed.

Lemma instant_score_average_witness :
  filter (non_null lap2) (feature_weights gearbox) = [] ∧
  _component_score lap2 two_laps_stats gearbox == 0 ∧
  _component_score lap2 two_laps_stats engine
  == (4 # 10) * 1 / ((4 # 10) + (6 # 10)).
Proof.
  split; [vm_compute; reflexivity|]. split.
  - apply (instant_score_average lap2 two_laps_stats gearbox).
    vm_compute; reflexivity.
  - rewrite (proj1 (instant_score_average lap2 two_laps_stats engine)).
    vm_compute; reflexivity.
Defined.

End instant_score_average.

(** ** Component risk engine: the wear floor *)

Section wear_floor.
Import pandas karma_stream design scan_invariants samples.
Local Open Scope Q_scope.

Context (smoothing wear_rate : Q) (stats : gmap string (Q * Q)) (v c : string).
Hypothesis smoothing_nonneg : 0 <= smoothing.
Hypothesis wear_rate_nonneg : 0 <= wear_rate.

Lemma TlRel_last {A} (R : relation A) (x : A) (l : list A) :
  (∀ y, last l = Some y → R y x) → TlRel R x l.
Proof.
  intros Hlast. destruct (last l) as [y|] eqn:E.
  - apply last_Some in E as [l' ->]. constructor. by apply Hlast.
  - apply last_None in E as ->. constructor.
Qed.

Lemma series_snoc recs r :
  of_component v c r →
  filter (of_component v c) (recs ++ [r]) = filter (of_component v c) recs ++ [r].
Proof. intros Hr. by rewrite filter_app, filter_cons_True. Qed.

Lemma series_skip recs r :
  ¬ of_component v c r →
  filter (of_component v c) (recs ++ [r]) = filter (of_component v c) recs.
Proof.
  intros Hr. by rewrite filter_app, filter_cons_False, filter_nil, app_nil_r.
Qed.

Lemma zero_stress_init recs r :
  zero_stress v c (recs ++ [r]) → zero_stress v c recs.
Proof. intros Hz r' Hr'. apply Hz. apply elem_of_app. by left. Qed.

Lemma score_component_floor row rel start todo st starts spec :
  starts !! vehicle_id row = Some start → (start ≤ lap row)%Z →
  rel = (lap row - start + 1)%Z →
  (∀ r', r' ∈ todo → row_le row r') →
  floor_state smoothing wear_rate v c st starts (row :: todo) →
  floor_state smoothing wear_rate v c
    (score_component smoothing wear_rate stats row rel st spec)
    starts (row :: todo).
Proof.
  intros Hstart Hle -> Hsorted Hinv Hzero. unfold score_component in *.
  simpl in Hzero |- *.
  set (instant := _component_score row stats spec) in *.
  set (prev := default instant (st.2 !! _)) in *.
  set (rel := (lap row - start + 1)%Z) in *.
  fold (wear wear_rate rel) in *.
  set (karma := Qmin 1 _) in *.
  set (new := {| rec_vehicle_id := vehicle_id row; rec_lap := lap row;
                 component := name spec; instant_score := instant;
                 karma_score := karma |}) in *.
  destruct (Hinv (zero_stress_init _ _ Hzero)) as (Hk & Hl & Hlast & Hbound).
  destruct (decide (of_component v c new)) as [Hnew|Hnew]; cycle 1.
  { unfold karma_series, lap_series in *. rewrite series_skip by done.
    repeat split; try done.
    rewrite lookup_insert_ne; [done|].
    intros [= Hv Hc]. by apply Hnew. }
  destruct Hnew as [Hv Hc]; simpl in Hv, Hc.
  assert (of_component v c new) as Hnew by done.
  assert (instant == 0) as Hinstant.
  { apply (Hzero new); [|done]. apply elem_of_app; right. by left. }
  assert (0 <= wear wear_rate rel) as Hwear by (apply wear_nonneg; [done|lia]).
  assert (karma <= 1) as Hk1 by apply Q.le_min_l.
  assert (∀ r', r' ∈ row :: todo → vehicle_id r' = v → (lap row ≤ lap r')%Z)
    as Hnext.
  { intros r' [->|Hr']%elem_of_cons Hv'; [lia|].
    destruct (Hsorted r' Hr') as [_ Hlap]. apply Hlap; simpl. congruence. }
  unfold karma_series, lap_series in *. rewrite series_snoc by done.
  rewrite !fmap_snoc, !last_snoc. rewrite Hv, Hc, lookup_insert_eq.
  rewrite !fmap_last in Hlast.
  destruct (last (filter (of_component v c) st.1)) as [r|] eqn:Er; simpl in *.
  - destruct (Hbound r eq_refl)
      as (p & start' & Hstart' & Hrs & Hrn & Hp0 & Hpk & Hr1 & Hrb).
    rewrite <-Hv, Hstart in Hstart'. injection Hstart' as <-.
    assert (prev = karma_score r) as Hprev.
    { unfold prev. by rewrite Hv, Hc, Hlast. }
    assert (rec_lap r ≤ lap row)%Z as Hlap by (apply Hrn; [left|done]).
    assert (wear wear_rate (rec_lap r - start + 1) <= wear wear_rate rel) as Hwm
      by (apply wear_mono; [done|unfold rel; lia]).
    assert (smoothing * p <= smoothing * karma_score r) as Hsp by nra.
    assert (karma_score r <= karma) as Hstep.
    { unfold karma. rewrite Hprev.
      apply Q.min_glb; [done|]. rewrite Hinstant. lra. }
    assert (karma <= smoothing * karma_score r + wear wear_rate rel) as Hkb.
    { unfold karma. rewrite Hprev, Hinstant.
      eapply Qle_trans; [apply Q.le_min_r|]. lra. }
    repeat split.
    + apply Sorted_snoc; [done|]. apply TlRel_last.
      intros y. rewrite fmap_last, Er. by intros [= <-].
    + apply Sorted_snoc; [done|]. apply TlRel_last.
      intros y. rewrite fmap_last, Er. by intros [= <-].
    + intros r0 [= <-]. exists (karma_score r), start; simpl.
      repeat split; try done; [by rewrite <-Hv|lra].
  - assert (prev = instant) as Hprev.
    { unfold prev. by rewrite Hv, Hc, Hlast. }
    assert (karma <= smoothing * 0 + wear wear_rate rel) as Hkb.
    { unfold karma. rewrite Hprev, Hinstant.
      eapply Qle_trans; [apply Q.le_min_r|]. lra. }
    assert (0 <= karma) as Hk0.
    { unfold karma. rewrite Hprev, Hinstant. apply Q.min_glb; lra. }
    apply last_None in Er. rewrite Er in *; simpl.
    repeat split.
    + repeat constructor.
    + repeat constructor.
    + intros r0 [= <-]. exists 0, start; simpl.
      repeat split; try done. by rewrite <-Hv.
Qed.

End wear_floor.

Section wear_floor_scan.
Import pandas karma_stream design scan_invariants samples.
Local Open Scope Q_scope.

Context (smoothing wear_rate : Q) (stats : gmap string (Q * Q)) (v c : string).
Hypothesis smoothing_nonneg : 0 <= smoothing.
Hypothesis wear_rate_nonneg : 0 <= wear_rate.

Lemma score_components_floor row rel start todo starts specs st :
  starts !! vehicle_id row = Some start → (start ≤ lap row)%Z →
  rel = (lap row - start + 1)%Z →
  (∀ r', r' ∈ todo → row_le row r') →
  floor_state smoothing wear_rate v c st starts (row :: todo) →
  floor_state smoothing wear_rate v c
    (foldl (score_component smoothing wear_rate stats row rel) st specs)
    starts (row :: todo).
Proof.
  intros Hstart Hle Hrel Hsorted. revert st.
  induction specs as [|spec specs IH]; intros st Hst; simpl; [done|].
  apply IH. by eapply score_component_floor.
Qed.

Lemma floor_state_tail st starts row todo :
  floor_state smoothing wear_rate v c st starts (row :: todo) →
  floor_state smoothing wear_rate v c st starts todo.
Proof.
  intros Hinv Hzero. destruct (Hinv Hzero) as (Hk & Hl & Hlast & Hbound).
  repeat split; try done.
  intros r Hr. destruct (Hbound r Hr) as (p & start & ? & ? & Hnext & ?).
  exists p, start. repeat split; try tauto.
  intros r' Hr'. apply Hnext. by right.
Qed.

Lemma floor_state_track_start st starts row todo :
  floor_state smoothing wear_rate v c st starts todo →
  floor_state smoothing wear_rate v c st (track_start starts row) todo.
Proof.
  intros Hinv Hzero. destruct (Hinv Hzero) as (Hk & Hl & Hlast & Hbound).
  repeat split; try done.
  intros r Hr. destruct (Hbound r Hr) as (p & start & Hstart & ?).
  exists p, start. split; [|done].
  destruct (decide (v = vehicle_id row)) as [->|Hv].
  - destruct (track_start_lookup starts row) as (s & Hs & _ & Hold).
    by rewrite Hs, (Hold start Hstart).
  - by rewrite track_start_other.
Qed.

Lemma scan_floor specs todo st :
  StronglySorted row_le todo →
  starts_below (vehicle_start_laps st) todo →
  floor_state smoothing wear_rate v c (records st, smoothed_scores st)
    (vehicle_start_laps st) todo →
  let final := foldl (scan_row specs smoothing wear_rate stats) st todo in
  zero_stress v c (records final) →
  Sorted Qle (karma_series v c (records final)) ∧
  Sorted Z.le (lap_series v c (records final)).
Proof.
  intros Hsorted. revert st.
  induction Hsorted as [|row todo _ IH Hrow]; intros st Hstarts Hst; simpl.
  - intros Hzero. destruct (Hst Hzero) as (Hk & Hl & _). done.
  - rewrite Forall_forall in Hrow.
    pose proof (track_start_below _ _ _ Hstarts Hrow) as Hstarts'.
    destruct (track_start_lookup (vehicle_start_laps st) row) as (start & Hs & _).
    apply IH.
    + rewrite scan_row_starts. by eapply starts_below_tail.
    + rewrite scan_row_starts, scan_row_records.
      eapply floor_state_tail, score_components_floor; [exact Hs| | |done|].
      * apply (Hstarts' row); [left|done].
      * unfold relative_lap. by rewrite Hs.
      * by apply floor_state_track_start.
Qed.

End wear_floor_scan.

Section wear_floor_theorem.
Import pandas karma_stream design scan_invariants samples.
Local Open Scope Q_scope.

(** C5: for a vehicle and component whose instant score is 0 on every lap,
    the records of the output come in non-decreasing lap order and their
    karma scores are non-decreasing from one record to the next (for a
    non-negative smoothing factor and wear rate). *)
Theorem karma_floor_monotone df smoothing wear_rate out v c :
  0 <= smoothing → 0 <= wear_rate →
  compute_stream df smoothing wear_rate = Returned out →
  zero_stress v c (score_rows out) →
  Sorted Z.le (lap_series v c (score_rows out)) ∧
  Sorted Qle (karma_series v c (score_rows out)).
Proof.
  intros Hs Hw Hout. rewrite (compute_stream_returned _ _ _ _ Hout).
  destruct (empty df); [by split; constructor|].
  intros Hzero. apply and_comm. revert Hzero. unfold scan_rows.
  apply (scan_floor smoothing wear_rate _ v c Hs Hw).
  - apply sort_values_StronglySorted; apply _.
  - intros r start _; simpl. by rewrite lookup_empty.
  - intros _; simpl. repeat split; try constructor. by intros r [=].
Qed.

Lemma karma_floor_monotone_witness :
  ∃ out, compute_stream two_laps (6 # 10) (2 # 1000) = Returned out ∧
    lap_series "V1" "gearbox" (score_rows out) = [1%Z; 2%Z] ∧
    Sorted Z.le (lap_series "V1" "gearbox" (score_rows out)) ∧
    Sorted Qle (karma_series "V1" "gearbox" (score_rows out)).
Proof.
  eexists. split; [vm_compute; reflexivity|]. split; [vm_compute; reflexivity|].
  apply (karma_floor_monotone two_laps (6 # 10) (2 # 1000));
    [discriminate|discriminate|vm_compute; reflexivity|].
  intros r Hr [_ Hc]. simpl in Hr.
  list_cases Hr; simpl in Hc; try discriminate Hc; vm_compute; reflexivity.
Defined.

End wear_floor_theorem.

(** ** Lap Window Builder *)

Section drop_duplicates_facts.
Import pandas feature_engineering.
Context {A K : Type} `{EqDecision K} (key : A → K).

Lemma keep_first_sublist seen l : keep_first key seen l `sublist_of` l.
Proof.
  revert seen. induction l as [|x l IH]; intros seen; simpl; [done|].
  case_decide; constructor; apply IH.
Qed.

Lemma keep_first_keys seen l k :
  k ∈ key <$> keep_first key seen l ↔ k ∈ key <$> l ∧ k ∉ seen.
Proof.
  revert seen. induction l as [|x l IH]; intros seen; simpl.
  - rewrite elem_of_nil. tauto.
  - case_decide as Hx; rewrite ?fmap_cons, ?elem_of_cons, IH.
    + split; [tauto|]. intros [[->|?] ?]; tauto.
    + rewrite elem_of_cons. destruct (decide (k = key x)) as [->|]; tauto.
Qed.

Lemma keep_first_NoDup seen l : NoDup (key <$> keep_first key seen l).
Proof.
  revert seen. induction l as [|x l IH]; intros seen; simpl; [constructor|].
  case_decide; [done|]. rewrite fmap_cons. constructor; [|done].
  rewrite keep_first_keys, elem_of_cons. tauto.
Qed.

(** A row kept by [keep="first"] has no row with its key before it. *)
Lemma keep_first_split seen l x :
  x ∈ keep_first key seen l →
  ∃ l1 l2, l = l1 ++ x :: l2 ∧ (key x ∉ key <$> l1) ∧ key x ∉ seen.
Proof.
  revert seen. induction l as [|y l IH]; intros seen; simpl.
  - by intros ?%elem_of_nil.
  - case_decide as Hy.
    + intros (l1 & l2 & -> & Hl1 & Hseen)%IH.
      exists (y :: l1), l2. split; [done|]. split; [|done].
      rewrite fmap_cons, elem_of_cons. intros [Hxy|?]; [|done]. congruence.
    + intros [->|Hx]%elem_of_cons.
      * exists [], l. split; [done|]. split; [apply not_elem_of_nil|done].
      * destruct (IH _ Hx) as (l1 & l2 & -> & Hl1 & Hseen).
        rewrite elem_of_cons in Hseen.
        exists (y :: l1), l2. split; [done|]. split; [|tauto].
        rewrite fmap_cons, elem_of_cons. tauto.
Qed.

Lemma drop_duplicates_last_sublist l : drop_duplicates_last key l `sublist_of` l.
Proof.
  induction l as [|x l IH]; simpl; [done|]. case_decide; by constructor.
Qed.

Lemma drop_duplicates_last_keys l k :
  k ∈ key <$> drop_duplicates_last key l ↔ k ∈ key <$> l.
Proof.
  induction l as [|x l IH]; simpl; [done|].
  case_decide as Hx; rewrite ?fmap_cons, !elem_of_cons, IH; [|done].
  split; [tauto|]. intros [->|?]; tauto.
Qed.

Lemma drop_duplicates_last_NoDup l : NoDup (key <$> drop_duplicates_last key l).
Proof.
  induction l as [|x l IH]; simpl; [constructor|].
  case_decide; [done|]. rewrite fmap_cons. constructor; [|done].
  by rewrite drop_duplicates_last_keys.
Qed.

(** A row kept by [keep="last"] has no row with its key after it. *)
Lemma drop_duplicates_last_split l x :
  x ∈ drop_duplicates_last key l →
  ∃ l1 l2, l = l1 ++ x :: l2 ∧ key x ∉ key <$> l2.
Proof.
  induction l as [|y l IH]; simpl.
  - by intros ?%elem_of_nil.
  - case_decide as Hy.
    + intros (l1 & l2 & -> & Hl2)%IH. by exists (y :: l1), l2.
    + intros [->|Hx]%elem_of_cons.
      * by exists [], l.
      * destruct (IH Hx) as (l1 & l2 & -> & Hl2). by exists (y :: l1), l2.
Qed.

End drop_duplicates_facts.

Section lap_windows.
Import pandas feature_engineering lap_design lap_samples.

Lemma time_le_refl a : time_le a a.
Proof. unfold time_le. lia. Qed.

Lemma time_le_trans a b c : time_le a b → time_le b c → time_le a c.
Proof. unfold time_le. lia. Qed.

Lemma time_le_total a b : time_le a b ∨ time_le b a.
Proof. unfold time_le. lia. Qed.

Lemma time_le_antisym a b : time_le a b → time_le b a → a = b.
Proof. unfold time_le. lia. Qed.

#[global] Instance event_le_trans : Transitive LapEvent.le.
Proof.
  intros e1 e2 e3 [K12 T12] [K23 T23]. split; [by etrans|].
  intros K13.
  assert (LapEvent.key e1 = LapEvent.key e2) as K.
  { destruct K12 as [V12 L12], K23 as [V23 L23].
    destruct (LapEvent.key e1) as [v1 l1], (LapEvent.key e2) as [v2 l2],
      (LapEvent.key e3) as [v3 l3]; simpl in *.
    injection K13 as <- <-.
    assert (v1 = v2) as <- by (by apply (anti_symm String.le)).
    f_equal. specialize (L12 eq_refl). specialize (L23 eq_refl). lia. }
  specialize (T12 K). rewrite <-K in T23. specialize (T23 K13).
  by eapply time_le_trans.
Qed.

#[global] Instance event_le_total : Total LapEvent.le.
Proof.
  intros e1 e2. unfold LapEvent.le.
  destruct (decide (LapEvent.key e1 = LapEvent.key e2)) as [K|K].
  - rewrite K.
    destruct (time_le_total (LapEvent.timestamp e1) (LapEvent.timestamp e2));
      [left|right]; split; done.
  - destruct (total key_le (LapEvent.key e1) (LapEvent.key e2));
      [left|right]; split; try done; intros ?; congruence.
Qed.

#[global] Instance window_le_trans : Transitive LapWindow.le.
Proof. intros w1 w2 w3. unfold LapWindow.le. apply key_le_trans. Qed.

#[global] Instance window_le_total : Total LapWindow.le.
Proof. intros w1 w2. unfold LapWindow.le. apply key_le_total. Qed.

Lemma first_starts_earliest lap_start s :
  s ∈ first_starts lap_start →
  s ∈ lap_start ∧
  ∀ s', s' ∈ lap_start → LapEvent.key s' = LapEvent.key s →
    time_le (LapEvent.timestamp s) (LapEvent.timestamp s').
Proof.
  intros Hs. unfold first_starts, drop_duplicates_first in Hs.
  destruct (keep_first_split _ _ _ _ Hs) as (l1 & l2 & Hl & Hl1 & _).
  pose proof (sort_values_StronglySorted LapEvent.le lap_start) as Hsorted.
  pose proof (elem_of_sort_values LapEvent.le) as Hin.
  rewrite Hl in Hsorted. split.
  - apply (Hin s). rewrite Hl. apply elem_of_app; right; left.
  - intros s' Hs' Hk. apply (Hin s') in Hs'. rewrite Hl in Hs'.
    apply elem_of_app in Hs' as [Hs'|Hs'].
    + destruct Hl1. rewrite <-Hk. by apply list_elem_of_fmap_2.
    + apply StronglySorted_app_1_r in Hsorted.
      apply elem_of_cons in Hs' as [->|Hs']; [apply time_le_refl|].
      apply StronglySorted_cons in Hsorted as [Hall _].
      rewrite Forall_forall in Hall. destruct (Hall s' Hs') as [_ Ht].
      by apply Ht.
Qed.

Lemma last_ends_latest lap_end e :
  e ∈ last_ends lap_end →
  e ∈ lap_end ∧
  ∀ e', e' ∈ lap_end → LapEvent.key e' = LapEvent.key e →
    time_le (LapEvent.timestamp e') (LapEvent.timestamp e).
Proof.
  intros He. unfold last_ends in He.
  destruct (drop_duplicates_last_split _ _ _ He) as (l1 & l2 & Hl & Hl2).
  pose proof (sort_values_StronglySorted LapEvent.le lap_end) as Hsorted.
  pose proof (elem_of_sort_values LapEvent.le) as Hin.
  rewrite Hl in Hsorted. split.
  - apply (Hin e). rewrite Hl. apply elem_of_app; right; left.
  - intros e' He' Hk. apply (Hin e') in He'. rewrite Hl in He'.
    apply elem_of_app in He' as [He'|He'].
    + destruct (StronglySorted_app_1_elem_of _ _ _ e' e Hsorted) as [_ Ht];
        [done|left|by apply Ht].
    + apply elem_of_cons in He' as [->|He']; [apply time_le_refl|].
      destruct Hl2. rewrite <-Hk. by apply list_elem_of_fmap_2.
Qed.

Lemma first_starts_keys lap_start k :
  k ∈ LapEvent.key <$> first_starts lap_start ↔ k ∈ LapEvent.key <$> lap_start.
Proof.
  unfold first_starts, drop_duplicates_first.
  rewrite keep_first_keys, elem_of_nil.
  rewrite (sort_values_Permutation LapEvent.le lap_start). tauto.
Qed.

Lemma last_ends_keys lap_end k :
  k ∈ LapEvent.key <$> last_ends lap_end ↔ k ∈ LapEvent.key <$> lap_end.
Proof.
  unfold last_ends. rewrite drop_duplicates_last_keys.
  by rewrite (sort_values_Permutation LapEvent.le lap_end).
Qed.

Lemma window_of_key s e : LapWindow.key (window_of s e) = LapEvent.key s.
Proof. done. Qed.

Lemma matches_keys lap_end s :
  LapWindow.key <$> matches lap_end s =
  LapEvent.key <$> filter (λ e, LapEvent.key e = LapEvent.key s) lap_end.
Proof.
  unfold matches. induction lap_end as [|e l IH]; [done|].
  rewrite filter_cons. case_decide as He; [|done].
  rewrite !fmap_cons, IH. by rewrite window_of_key, He.
Qed.

Lemma elem_of_merged S E w :
  w ∈ (S ≫= matches E) ↔
  ∃ s e, s ∈ S ∧ e ∈ E ∧ LapEvent.key e = LapEvent.key s ∧ w = window_of s e.
Proof.
  rewrite list_elem_of_bind. unfold matches. split.
  - intros (s & Hw & Hs). apply list_elem_of_fmap in Hw as (e & -> & He).
    apply list_elem_of_filter in He as [Hk He]. by exists s, e.
  - intros (s & e & Hs & He & Hk & ->). exists s. split; [|done].
    apply list_elem_of_fmap_2. by apply list_elem_of_filter.
Qed.

Lemma merged_NoDup S E :
  NoDup (LapEvent.key <$> S) → NoDup (LapEvent.key <$> E) →
  NoDup (LapWindow.key <$> (S ≫= matches E)).
Proof.
  intros HS HE. induction S as [|s S IH]; [constructor|].
  rewrite fmap_cons in HS. apply NoDup_cons in HS as [Hs HS].
  rewrite bind_cons, fmap_app. apply NoDup_app. split; [|split].
  - rewrite matches_keys.
    apply (sublist_NoDup _ (LapEvent.key <$> E)); [exact HE|].
    apply fmap_sublist, sublist_filter.
  - intros k Hk Hk'. rewrite matches_keys in Hk.
    apply list_elem_of_fmap in Hk as (e & -> & He).
    apply list_elem_of_filter in He as [He _].
    apply list_elem_of_fmap in Hk' as (w & Hw & Hin).
    apply elem_of_merged in Hin as (s' & e' & Hs' & _ & _ & ->).
    rewrite window_of_key in Hw. apply Hs. rewrite <-He, Hw.
    by apply list_elem_of_fmap_2.
  - by apply IH.
Qed.

Lemma merge_one_to_one_unique S E :
  NoDup (LapEvent.key <$> S) → NoDup (LapEvent.key <$> E) →
  merge_one_to_one S E = Merged (S ≫= matches E).
Proof. intros HS HE. unfold merge_one_to_one. by rewrite decide_True. Qed.

(** The [one_to_one] validation passes after the two [drop_duplicates];
    what is left is the duration column. *)
Lemma prepare_lap_windows_cases lap_start lap_end :
  _prepare_lap_windows lap_start lap_end =
  let lap_windows :=
    sort_values LapWindow.le
      (first_starts lap_start ≫= matches (last_ends lap_end)) in
  if decide (Exists LapWindow.span_overflows lap_windows) then OverflowError
  else if decide (Exists LapWindow.has_NaT lap_windows)
       then MergedNaT lap_windows
       else Merged lap_windows.
Proof.
  unfold _prepare_lap_windows. rewrite merge_one_to_one_unique; [done| |].
  - apply keep_first_NoDup.
  - apply drop_duplicates_last_NoDup.
Qed.

Lemma returned_windows lap_start lap_end lap_windows :
  returned (_prepare_lap_windows lap_start lap_end) lap_windows →
  lap_windows
  = sort_values LapWindow.le
      (first_starts lap_start ≫= matches (last_ends lap_end)) ∧
  ¬ Exists LapWindow.span_overflows lap_windows.
Proof.
  rewrite prepare_lap_windows_cases. cbv zeta.
  destruct (decide (Exists LapWindow.span_overflows _)) as [|Hfit];
    [by intros [?|?]|].
  destruct (decide (Exists LapWindow.has_NaT _)); by intros [[= <-]|[= <-]].
Qed.

Lemma elem_of_lap_windows lap_start lap_end lap_windows w :
  returned (_prepare_lap_windows lap_start lap_end) lap_windows →
  w ∈ lap_windows ↔
  ∃ s e, s ∈ first_starts lap_start ∧ e ∈ last_ends lap_end ∧
    LapEvent.key e = LapEvent.key s ∧ w = window_of s e.
Proof.
  intros [-> _]%returned_windows.
  by rewrite elem_of_sort_values, elem_of_merged.
Qed.

Lemma lap_windows_NoDup lap_start lap_end lap_windows :
  returned (_prepare_lap_windows lap_start lap_end) lap_windows →
  NoDup (LapWindow.key <$> lap_windows).
Proof.
  intros [-> _]%returned_windows.
  rewrite (sort_values_Permutation LapWindow.le).
  apply merged_NoDup; [apply keep_first_NoDup|apply drop_duplicates_last_NoDup].
Qed.

Lemma lap_windows_sorted lap_start lap_end lap_windows :
  returned (_prepare_lap_windows lap_start lap_end) lap_windows →
  StronglySorted LapWindow.le lap_windows.
Proof.
  intros [-> _]%returned_windows.
  apply sort_values_StronglySorted; apply _.
Qed.

Lemma lap_window_bounds lap_start lap_end lap_windows w :
  returned (_prepare_lap_windows lap_start lap_end) lap_windows →
  w ∈ lap_windows →
  earliest lap_start (LapWindow.key w) (LapWindow.lap_start_time w) ∧
  latest lap_end (LapWindow.key w) (LapWindow.lap_end_time w).
Proof.
  intros Hws Hw. apply (elem_of_lap_windows _ _ _ _ Hws) in Hw
    as (s & e & Hs & He & Hk & ->).
  destruct (first_starts_earliest _ _ Hs) as [Hs' Hmin].
  destruct (last_ends_latest _ _ He) as [He' Hmax].
  rewrite window_of_key; simpl. split; split.
  - by exists s.
  - intros s' ? ?. by apply Hmin.
  - by exists e.
  - intros e' ? Hk'. apply Hmax; [done|]. by rewrite Hk.
Qed.

Lemma earliest_unique events k t t' :
  earliest events k t → earliest events k t' → t = t'.
Proof.
  intros [(e & He & Hk & <-) Hmin] [(e' & He' & Hk' & <-) Hmin'].
  apply time_le_antisym; [by apply Hmin|by apply Hmin'].
Qed.

Lemma latest_unique events k t t' :
  latest events k t → latest events k t' → t = t'.
Proof.
  intros [(e & He & Hk & <-) Hmax] [(e' & He' & Hk' & <-) Hmax'].
  apply time_le_antisym; [by apply Hmax'|by apply Hmax].
Qed.

Lemma lap_window_keys lap_start lap_end lap_windows k :
  returned (_prepare_lap_windows lap_start lap_end) lap_windows →
  k ∈ LapWindow.key <$> lap_windows ↔
  k ∈ LapEvent.key <$> lap_start ∧ k ∈ LapEvent.key <$> lap_end.
Proof.
  intros Hws. rewrite list_elem_of_fmap. split.
  - intros (w & -> & Hw).
    apply (elem_of_lap_windows _ _ _ _ Hws) in Hw as (s & e & Hs & He & Hk & ->).
    rewrite window_of_key. split.
    + apply first_starts_keys. by apply list_elem_of_fmap_2.
    + apply last_ends_keys. rewrite <-Hk. by apply list_elem_of_fmap_2.
  - intros [Hs He]. apply first_starts_keys in Hs. apply last_ends_keys in He.
    apply list_elem_of_fmap in Hs as (s & -> & Hs).
    apply list_elem_of_fmap in He as (e & Hk & He).
    exists (window_of s e). split; [done|].
    apply (elem_of_lap_windows _ _ _ _ Hws). by exists s, e.
Qed.

(** The window of a lap that has both events. *)
Lemma lap_window_of_key lap_start lap_end lap_windows k :
  returned (_prepare_lap_windows lap_start lap_end) lap_windows →
  k ∈ LapEvent.key <$> lap_start → k ∈ LapEvent.key <$> lap_end →
  ∃ w, w ∈ lap_windows ∧ LapWindow.key w = k ∧
    earliest lap_start k (LapWindow.lap_start_time w) ∧
    latest lap_end k (LapWindow.lap_end_time w).
Proof.
  intros Hws Hs He.
  assert (k ∈ LapWindow.key <$> lap_windows) as (w & -> & Hw)%list_elem_of_fmap
    by (by apply (lap_window_keys _ _ _ _ Hws)).
  exists w. split; [done|]. split; [done|]. by eapply lap_window_bounds.
Qed.

Lemma earliest_key events k t : earliest events k t → k ∈ LapEvent.key <$> events.
Proof. intros [(e & He & <- & _) _]. by apply list_elem_of_fmap_2. Qed.

Lemma latest_key events k t : latest events k t → k ∈ LapEvent.key <$> events.
Proof. intros [(e & He & <- & _) _]. by apply list_elem_of_fmap_2. Qed.

(** The builder raises [OverflowError] exactly when some lap with both
    events spans more than an int64. *)
Lemma prepare_overflows lap_start lap_end :
  _prepare_lap_windows lap_start lap_end = OverflowError ↔
  ∃ k t0 t1, earliest lap_start k t0 ∧ latest lap_end k t1 ∧ overflows t0 t1.
Proof.
  rewrite prepare_lap_windows_cases. cbv zeta.
  set (lap_windows := sort_values _ _).
  assert (∀ w, w ∈ lap_windows →
            earliest lap_start (LapWindow.key w) (LapWindow.lap_start_time w) ∧
            latest lap_end (LapWindow.key w) (LapWindow.lap_end_time w))
    as Hbounds.
  { intros w Hw. unfold lap_windows in Hw.
    rewrite elem_of_sort_values, elem_of_merged in Hw.
    destruct Hw as (s & e & Hs & He & Hk & ->).
    destruct (first_starts_earliest _ _ Hs) as [Hs' Hmin].
    destruct (last_ends_latest _ _ He) as [He' Hmax].
    rewrite window_of_key; simpl. split; split.
    - by exists s.
    - intros s' ? ?. by apply Hmin.
    - by exists e.
    - intros e' ? Hk'. apply Hmax; [done|]. by rewrite Hk. }
  assert (∀ k, k ∈ LapEvent.key <$> lap_start → k ∈ LapEvent.key <$> lap_end →
            ∃ w, w ∈ lap_windows ∧ LapWindow.key w = k) as Hkeys.
  { intros k Hs He. apply first_starts_keys in Hs. apply last_ends_keys in He.
    apply list_elem_of_fmap in Hs as (s & -> & Hs).
    apply list_elem_of_fmap in He as (e & Hk & He).
    exists (window_of s e). split; [|done]. unfold lap_windows.
    rewrite elem_of_sort_values, elem_of_merged. by exists s, e. }
  destruct (decide (Exists LapWindow.span_overflows lap_windows)) as [Hex|Hfit].
  - split; [intros _|done].
    apply Exists_exists in Hex as (w & Hw & Hover).
    destruct (Hbounds w Hw) as [Hearliest Hlatest]. by eexists _, _, _.
  - split.
    { by destruct (decide (Exists LapWindow.has_NaT lap_windows)). }
    intros (k & t0 & t1 & Hearliest & Hlatest & Hover). destruct Hfit.
    destruct (Hkeys k) as (w & Hw & <-);
      [by eapply earliest_key|by eapply latest_key|].
    apply Exists_exists. exists w. split; [done|].
    destruct (Hbounds w Hw) as [Hearliest' Hlatest'].
    unfold LapWindow.span_overflows.
    by rewrite (earliest_unique _ _ _ _ Hearliest' Hearliest),
               (latest_unique _ _ _ _ Hlatest' Hlatest).
Qed.

(** C6, as stated, fails twice. A lap whose two events are further apart
    than an int64 of nanoseconds has a start and an end event, and the
    builder raises instead of giving it a window; and when one of the end
    events of a lap has no timestamp, the window ends at [NaT] and not at
    the latest timestamp of the lap's end events. *)
Lemma lap_span_overflows :
  _prepare_lap_windows lap_edges.far_start lap_edges.far_end = OverflowError ∧
  ∃ w, _prepare_lap_windows lap_edges.one_start lap_edges.unstamped_end
       = MergedNaT [w] ∧
    LapWindow.key w = ("V1", 1%Z) ∧ LapWindow.lap_end_time w = NaT ∧
    event "V1" 1 10 ∈ lap_edges.unstamped_end.
Proof.
  split; [vm_compute; reflexivity|].
  eexists. split; [vm_compute; reflexivity|].
  split; [done|]. split; [done|]. repeat constructor.
Qed.

(** C6 (amended): unless a lap with both events spans more than an int64
    of nanoseconds, in which case the builder raises, it returns a table
    with exactly one window for each (vehicle_id, lap_number) pair that
    has both a start and an end event and none for any other pair; the
    window starts at the earliest start timestamp of its pair ([NaT] when
    no start event of the pair has one) and ends at the latest end
    timestamp of its pair, or at [NaT] when an end event of the pair has
    no timestamp; the windows are sorted by (vehicle_id, lap_number). *)
Theorem lap_windows_inner_join lap_start lap_end :
  (spans_fit lap_start lap_end →
   ∃ lap_windows,
     returned (_prepare_lap_windows lap_start lap_end) lap_windows ∧
     NoDup (LapWindow.key <$> lap_windows) ∧
     (∀ k, k ∈ LapWindow.key <$> lap_windows ↔
           k ∈ LapEvent.key <$> lap_start ∧ k ∈ LapEvent.key <$> lap_end) ∧
     (∀ w, w ∈ lap_windows →
           earliest lap_start (LapWindow.key w) (LapWindow.lap_start_time w) ∧
           latest lap_end (LapWindow.key w) (LapWindow.lap_end_time w)) ∧
     StronglySorted LapWindow.le lap_windows) ∧
  (¬ spans_fit lap_start lap_end →
   _prepare_lap_windows lap_start lap_end = OverflowError).
Proof.
  pose proof (prepare_overflows lap_start lap_end) as Hover.
  pose proof (prepare_lap_windows_cases lap_start lap_end) as Hcases.
  cbv zeta in Hcases. split.
  - intros Hfit.
    destruct (decide (Exists LapWindow.span_overflows _)) as [Hex|_] in Hcases.
    { apply Hover in Hcases as (k & t0 & t1 & H0 & H1 & Habs).
      by destruct (Hfit k t0 t1). }
    eexists.
    assert (returned (_prepare_lap_windows lap_start lap_end)
              (sort_values LapWindow.le
                 (first_starts lap_start ≫= matches (last_ends lap_end))))
      as Hws.
    { rewrite Hcases. destruct (decide (Exists LapWindow.has_NaT _));
        [by right|by left]. }
    split; [exact Hws|].
    split; [by eapply lap_windows_NoDup|].
    split; [intros k; by eapply lap_window_keys|].
    split; [intros w; by eapply lap_window_bounds|by eapply lap_windows_sorted].
  - intros Hno.
    destruct (decide (Exists LapWindow.span_overflows _)) as [Hex|Hfit] in Hcases;
      [done|].
    destruct Hno. intros k t0 t1 H0 H1 Habs.
    assert (_prepare_lap_windows lap_start lap_end = OverflowError) as Heq
      by (apply Hover; by eexists _, _, _).
    rewrite Heq in Hcases.
    by destruct (decide (Exists LapWindow.has_NaT _)) in Hcases.
Qed.

Lemma lap_windows_inner_join_witness :
  ∃ w3, _prepare_lap_windows duplicated_starts some_ends
        = Merged [window_of (event "V1" 2 5) (event "V1" 2 10); w3] ∧
    LapWindow.key w3 = ("V1", 3%Z) ∧
    LapWindow.lap_start_time w3 = 10%Z ∧ LapWindow.lap_end_time w3 = 25%Z ∧
    earliest duplicated_starts ("V1", 3%Z) 10.
Proof.
  destruct (lap_windows_inner_join duplicated_starts some_ends) as [Hjoin _].
  destruct Hjoin as (ws & Hws & _ & _ & Hbounds & _).
  { intros k t0 t1 [(s & Hs & _ & <-) _] [(e & He & _ & <-) _] (_ & _ & Hbig).
    apply Hbig. unfold duplicated_starts in Hs. unfold some_ends in He.
    list_cases Hs; list_cases He; vm_compute; split; discriminate. }
  assert (ws = [window_of (event "V1" 2 5) (event "V1" 2 10);
                window_of (event "V1" 3 10) (event "V1" 3 25)]) as ->.
  { destruct Hws as [Hws|Hws]; vm_compute in Hws;
      [by injection Hws as <-|discriminate Hws]. }
  eexists. split; [vm_compute; reflexivity|]. repeat split; try reflexivity.
  - exists (event "V1" 3 10). split; [|done]. by do 2 right; left.
  - intros e He Hk.
    destruct (Hbounds (window_of (event "V1" 3 10) (event "V1" 3 25)))
      as [[_ Hmin] _]; [by right; left|].
    by apply Hmin.
Defined.

(** C2, as stated, fails: a pair of tables the builder accepts, and the
    window it builds ends before it starts. *)
Lemma window_ends_before_it_starts :
  ∃ w, _prepare_lap_windows late_start early_end = Merged [w] ∧
    (LapWindow.lap_end_time w < LapWindow.lap_start_time w)%Z.
Proof. eexists. split; [vm_compute; reflexivity|]. simpl. lia. Qed.

(** C2 (amended): the table the builder returns is sorted by
    (vehicle_id, lap_number), and it inherits the order of its times from
    the events and from nothing else. Every window has
    [lap_start_time < lap_end_time] exactly when, for every lap with both
    events, the earliest start precedes the latest end; and the windows
    of a vehicle do not overlap, the one with the lower lap number ending
    no later than the other starts, exactly when, for any two such laps
    of a vehicle, the latest end of the lower one is no later than the
    earliest start of the other. *)
Theorem lap_windows_disjoint lap_start lap_end lap_windows :
  returned (_prepare_lap_windows lap_start lap_end) lap_windows →
  ((∀ w, w ∈ lap_windows →
      time_lt (LapWindow.lap_start_time w) (LapWindow.lap_end_time w))
   ↔ starts_precede_ends lap_start lap_end) ∧
  ((∀ w1 w2, w1 ∈ lap_windows → w2 ∈ lap_windows →
      LapWindow.vehicle_id w1 = LapWindow.vehicle_id w2 →
      (LapWindow.lap_number w1 < LapWindow.lap_number w2)%Z →
      time_leq (LapWindow.lap_end_time w1) (LapWindow.lap_start_time w2))
   ↔ laps_follow lap_start lap_end) ∧
  StronglySorted LapWindow.le lap_windows.
Proof.
  intros Hws. split; [|split]; [| |by eapply lap_windows_sorted].
  - split.
    + intros Hwindows k t0 t1 Hearliest Hlatest.
      destruct (lap_window_of_key _ _ _ k Hws) as (w & Hw & _ & H0 & H1);
        [by eapply earliest_key|by eapply latest_key|].
      rewrite (earliest_unique _ _ _ _ Hearliest H0),
              (latest_unique _ _ _ _ Hlatest H1).
      by apply Hwindows.
    + intros Hevents w Hw.
      destruct (lap_window_bounds _ _ _ _ Hws Hw) as [H0 H1].
      by eapply Hevents.
  - split.
    + intros Hwindows v n m t1 t0 Hn Hlatest Hearliest Hm Hnm.
      destruct (lap_window_of_key _ _ _ (v, n) Hws) as (w1 & Hw1 & Hk1 & _ & H1);
        [done|by eapply latest_key|].
      destruct (lap_window_of_key _ _ _ (v, m) Hws) as (w2 & Hw2 & Hk2 & H0 & _);
        [by eapply earliest_key|done|].
      rewrite (latest_unique _ _ _ _ Hlatest H1),
              (earliest_unique _ _ _ _ Hearliest H0).
      injection Hk1 as Hv1 Hn1. injection Hk2 as Hv2 Hn2.
      apply Hwindows; [done|done|congruence|lia].
    + intros Hevents w1 w2 Hw1 Hw2 Hv Hl.
      destruct (lap_window_bounds _ _ _ _ Hws Hw1) as [H01 H11].
      destruct (lap_window_bounds _ _ _ _ Hws Hw2) as [H02 H12].
      apply (Hevents (LapWindow.vehicle_id w1) (LapWindow.lap_number w1)
               (LapWindow.lap_number w2)); [|done| | |done].
      * by eapply earliest_key.
      * unfold LapWindow.key in H02. by rewrite Hv.
      * apply latest_key in H12. unfold LapWindow.key in H12. by rewrite Hv.
Qed.

Lemma lap_windows_disjoint_witness :
  _prepare_lap_windows two_starts two_ends =
    Merged [window_of (event "V1" 1 0) (event "V1" 1 10);
            window_of (event "V1" 2 10) (event "V1" 2 25)] ∧
  ∀ w, w ∈ [window_of (event "V1" 1 0) (event "V1" 1 10);
            window_of (event "V1" 2 10) (event "V1" 2 25)] →
       time_lt (LapWindow.lap_start_time w) (LapWindow.lap_end_time w).
Proof.
  split; [vm_compute; reflexivity|].
  apply (lap_windows_disjoint two_starts two_ends).
  - left. vm_compute; reflexivity.
  - intros k t0 t1 [(s & Hs & <- & <-) _] [(e & He & Hke & <-) _].
    unfold two_starts in Hs. unfold two_ends in He.
    list_cases Hs; list_cases He; vm_compute in Hke; try discriminate Hke;
      vm_compute; repeat split; first [discriminate|reflexivity].
Defined.

End lap_windows.

(** ** Lap Assigner *)

Section lap_assigner.
Import pandas feature_engineering lap_samples.
Context {P : Type}.
Implicit Types (row : Telemetry.t P) (w : LapWindow.t).
Implicit Types (telemetry : list (Telemetry.t P)) (lap_windows : list LapWindow.t).

#[global] Instance start_le_trans : Transitive LapWindow.start_le.
Proof.
  intros w1 w2 w3 [T12 V12] [T23 V23]. split; [lia|]. intros T13.
  assert (LapWindow.lap_start_time w1 = LapWindow.lap_start_time w2) as T by lia.
  specialize (V12 T). rewrite <-T in V23. specialize (V23 T13). by etrans.
Qed.

#[global] Instance start_le_total : Total LapWindow.start_le.
Proof.
  intros w1 w2. unfold LapWindow.start_le.
  destruct (Z.lt_trichotomy (LapWindow.lap_start_time w1)
              (LapWindow.lap_start_time w2)) as [?|[T|?]].
  - left. split; [lia|]. intros ?; lia.
  - rewrite T.
    destruct (total String.le (LapWindow.vehicle_id w1) (LapWindow.vehicle_id w2));
      [left|right]; split; done.
  - right. split; [lia|]. intros ?; lia.
Qed.

Lemma StronglySorted_filter {A} (R : relation A) (Q : A → Prop)
    `{!∀ x, Decision (Q x)} (l : list A) :
  StronglySorted R l → StronglySorted R (filter Q l).
Proof.
  induction 1 as [|x l _ IH Hx]; [constructor|].
  rewrite filter_cons. case_decide; [|done].
  constructor; [done|]. rewrite Forall_forall in Hx |- *.
  intros y [_ Hy]%list_elem_of_filter. by apply Hx.
Qed.

Lemma elem_of_assign_laps telemetry lap_windows row w :
  (row, w) ∈ assign_laps telemetry lap_windows ↔
  row ∈ telemetry ∧
  last (filter (candidate row) (sort_values LapWindow.start_le lap_windows)) = Some w ∧
  (Telemetry.meta_time row ≤ LapWindow.lap_end_time w)%Z.
Proof.
  unfold assign_laps, merge_asof. rewrite list_elem_of_omap. split.
  - intros ([row' o] & Hin & Hmask).
    apply list_elem_of_fmap in Hin as (row'' & [= -> ->] & Hin).
    apply elem_of_sort_values in Hin. unfold mask in Hmask; simpl in Hmask.
    destruct (last _) as [w'|] eqn:Hlast; [|done].
    case_decide; [|done]. by injection Hmask as -> ->.
  - intros (Hin & Hlast & Hend).
    exists (row, Some w). split.
    + apply list_elem_of_fmap. exists row. rewrite Hlast.
      split; [done|]. by apply elem_of_sort_values.
    + unfold mask; simpl. by rewrite decide_True.
Qed.

Lemma assigned_window_candidate telemetry lap_windows row w :
  (row, w) ∈ assign_laps telemetry lap_windows →
  w ∈ lap_windows ∧ candidate row w.
Proof.
  intros (_ & Hlast & _)%elem_of_assign_laps.
  apply last_Some_elem_of, list_elem_of_filter in Hlast as [Hc Hw].
  by apply elem_of_sort_values in Hw.
Qed.

Lemma assigned_rows_sublist telemetry lap_windows :
  (assign_laps telemetry lap_windows).*1
  `sublist_of` sort_values Telemetry.le telemetry.
Proof.
  unfold assign_laps, merge_asof.
  induction (sort_values Telemetry.le telemetry) as [|row l IH]; [done|].
  rewrite fmap_cons; simpl. unfold mask at 1; simpl.
  destruct (last _) as [w|]; [|by constructor].
  case_decide; by constructor.
Qed.

(** The window given to a row is the backward-nearest one: no window of
    the row's vehicle starts later and still at or before the row's time. *)
Lemma assigned_window_nearest telemetry lap_windows row w w' :
  (row, w) ∈ assign_laps telemetry lap_windows →
  w' ∈ lap_windows → candidate row w' →
  (LapWindow.lap_start_time w' ≤ LapWindow.lap_start_time w)%Z.
Proof.
  intros (_ & Hlast & _)%elem_of_assign_laps Hw' Hc'.
  apply last_Some in Hlast as [l Hl].
  assert (w' ∈ l ++ [w]) as Hin.
  { rewrite <-Hl. apply list_elem_of_filter. split; [done|].
    by apply elem_of_sort_values. }
  assert (StronglySorted LapWindow.start_le (l ++ [w])) as Hsorted.
  { rewrite <-Hl. apply StronglySorted_filter, sort_values_StronglySorted; apply _. }
  apply elem_of_app in Hin as [Hin|Hin].
  - by destruct (StronglySorted_app_1_elem_of _ _ _ w' w Hsorted Hin) as [? _];
      [left|].
  - apply list_elem_of_singleton in Hin as ->. lia.
Qed.

(** C3: every row kept by the Lap Assigner is a row of the telemetry table
    and carries one window of the window table, of the row's own vehicle,
    with [lap_start_time <= timestamp <= lap_end_time]; no telemetry row is
    kept more than once; and a row whose timestamp is inside no window of
    its vehicle (before the first start, after the last end, or in a gap
    between windows) is dropped. *)
Theorem assign_laps_sound telemetry lap_windows :
  (∀ row w, (row, w) ∈ assign_laps telemetry lap_windows →
     row ∈ telemetry ∧ w ∈ lap_windows ∧
     LapWindow.vehicle_id w = Telemetry.vehicle_id row ∧ inside row w) ∧
  (assign_laps telemetry lap_windows).*1 ⊆+ telemetry ∧
  (∀ row,
     (∀ w, w ∈ lap_windows →
           LapWindow.vehicle_id w = Telemetry.vehicle_id row → ¬ inside row w) →
     row ∉ (assign_laps telemetry lap_windows).*1).
Proof.
  assert (∀ row w, (row, w) ∈ assign_laps telemetry lap_windows →
     row ∈ telemetry ∧ w ∈ lap_windows ∧
     LapWindow.vehicle_id w = Telemetry.vehicle_id row ∧ inside row w) as Hsound.
  { intros row w Hin.
    destruct (assigned_window_candidate _ _ _ _ Hin) as [Hw [Hv Hstart]].
    apply elem_of_assign_laps in Hin as (Hrow & _ & Hend).
    by repeat split. }
  split; [exact Hsound|]. split.
  - rewrite <-(sort_values_Permutation Telemetry.le telemetry) at 2.
    apply sublist_submseteq, assigned_rows_sublist.
  - intros row Hout Hin. apply list_elem_of_fmap in Hin as ([row' w] & -> & Hin).
    destruct (Hsound _ _ Hin) as (_ & Hw & Hv & Hinside). by apply (Hout w).
Qed.

End lap_assigner.

Section lap_assigner_sample.
Import pandas feature_engineering lap_samples.

Lemma assign_laps_sound_witness :
  assign_laps some_telemetry gapped_windows =
    [(sample "V1" 10, window_of (event "V1" 1 0) (event "V1" 1 10));
     (sample "V1" 20, window_of (event "V1" 2 15) (event "V1" 2 25))] ∧
  sample "V1" 12 ∉ (assign_laps some_telemetry gapped_windows).*1.
Proof.
  split; [vm_compute; reflexivity|].
  apply (assign_laps_sound some_telemetry gapped_windows).
  intros w Hw _ [Hstart Hend].
  list_cases Hw; simpl in *; lia.
Defined.

End lap_assigner_sample.

(** ** Per-Lap Aggregator *)

Section merge_left_facts.
Import pandas feature_engineering.
Context {L R K : Type} `{EqDecision K} (left_key : L → K) (right_key : R → K).

Lemma filter_none {A} (Q : A → Prop) `{!∀ x, Decision (Q x)} (l : list A) :
  (∀ x, x ∈ l → ¬ Q x) → filter Q l = [].
Proof.
  induction l as [|x l IH]; intros Hl; [done|].
  rewrite filter_cons_False by (apply Hl; left).
  apply IH. intros y Hy. apply Hl. by right.
Qed.

Lemma filter_unique_key (h : K → R) keys k :
  (∀ k, right_key (h k) = k) → NoDup keys → k ∈ keys →
  filter (λ r, right_key r = k) (h <$> keys) = [h k].
Proof.
  intros Hh Hnodup Hk. induction Hnodup as [|k' keys Hk' Hnodup IH].
  - by apply elem_of_nil in Hk.
  - rewrite fmap_cons, filter_cons, Hh.
    destruct (decide (k' = k)) as [->|Hne].
    + f_equal. apply filter_none.
      intros r (k'' & -> & Hk'')%list_elem_of_fmap. rewrite Hh. congruence.
    + apply IH. apply elem_of_cons in Hk as [?|?]; [congruence|done].
Qed.

(** When both sides have one row per key of [keys], the left join pairs
    the two rows of each key. *)
Lemma merge_left_one_to_one (g : K → L) (h : K → R) keys l :
  (∀ k, left_key (g k) = k) → (∀ k, right_key (h k) = k) →
  NoDup keys → Forall (λ k, k ∈ keys) l →
  merge_left left_key right_key (g <$> l) (h <$> keys)
  = (λ k, (g k, Some (h k))) <$> l.
Proof.
  intros Hg Hh Hnodup Hl. unfold merge_left.
  induction Hl as [|k l Hk _ IH]; [done|].
  rewrite !fmap_cons, bind_cons, IH, Hg.
  by rewrite (filter_unique_key h keys k Hh Hnodup Hk).
Qed.

End merge_left_facts.

Section per_lap_aggregator.
Import pandas feature_engineering lap_samples.

Lemma group_keys_NoDup rows : NoDup (group_keys rows).
Proof.
  unfold group_keys, drop_duplicates_first.
  rewrite <-(list_fmap_id (keep_first _ _ _)). apply keep_first_NoDup.
Qed.

Lemma elem_of_group_keys rows k : k ∈ group_keys rows ↔ k ∈ Wide.key <$> rows.
Proof.
  unfold group_keys, drop_duplicates_first.
  rewrite <-(list_fmap_id (keep_first _ _ _)), keep_first_keys, list_fmap_id.
  rewrite elem_of_sort_values, elem_of_nil. tauto.
Qed.

(** The rows of the output, one for each group key. *)
Lemma aggregate_per_lap_rows telemetry_with_laps :
  "lap" ∈ Wide.columns telemetry_with_laps →
  "vehicle_id" ∈ Wide.columns telemetry_with_laps →
  (∃ spec, spec ∈ TELEMETRY_AGGREGATIONS ∧
           AggregationSpec.column spec ∈ Wide.columns telemetry_with_laps) →
  ∃ per_lap (row_of : string * Z → PerLap.t),
    aggregate_per_lap telemetry_with_laps = Aggregated per_lap ∧
    PerLap.rows per_lap = row_of <$> group_keys (Wide.rows telemetry_with_laps) ∧
    ∀ k, PerLap.key (row_of k) = k ∧
         PerLap.samples_per_lap (row_of k)
         = Some (length (group (Wide.rows telemetry_with_laps) k)).
Proof.
  intros Hlap Hvehicle (spec & Hspec & Hcolumn). unfold aggregate_per_lap.
  rewrite !filter_cons_False, filter_nil by (by intros Hmissing).
  set (configured := filter _ TELEMETRY_AGGREGATIONS).
  assert (spec ∈ configured) as Hin by (by apply list_elem_of_filter).
  destruct configured as [|spec0 configured]; [by apply elem_of_nil in Hin|].
  rewrite fmap_cons. cbv beta iota zeta.
  set (agg_dict := (AggregationSpec.column spec0, _) :: _).
  set (rows := Wide.rows telemetry_with_laps).
  pose proof (group_keys_NoDup rows) as Hnodup.
  assert (Forall (λ k, k ∈ group_keys rows) (group_keys rows)) as Hall
    by (by apply Forall_forall).
  rewrite (merge_left_one_to_one fst fst
             (λ k, (k, agg_columns agg_dict (group rows k)))
             (λ k, (k, length (group rows k)))) by done.
  destruct (filter _ ["lap_start_time"; "lap_end_time"; "lap_duration_s"])
    as [|c available_meta].
  - rewrite <-!list_fmap_compose. eexists _, _. split; [done|]. split; [done|].
    by intros [v n].
  - set (available := c :: available_meta).
    rewrite (merge_left_one_to_one (fst ∘ fst) fst
               (λ k, ((k, agg_columns agg_dict (group rows k)),
                      Some (k, length (group rows k))))
               (λ k, (k, meta_of available (group rows k)))) by done.
    rewrite <-!list_fmap_compose. eexists _, _. split; [done|]. split; [done|].
    by intros [v n].
Qed.

(** C9: for a lap-tagged wide table with at least one configured signal
    column, the aggregator returns a table with exactly one row for each
    (vehicle_id, lap) pair of the input and no row for any other pair, and
    the [samples_per_lap] of a row is the number of input rows of its
    pair. *)
Theorem aggregate_per_lap_coverage telemetry_with_laps :
  "lap" ∈ Wide.columns telemetry_with_laps →
  "vehicle_id" ∈ Wide.columns telemetry_with_laps →
  (∃ spec, spec ∈ TELEMETRY_AGGREGATIONS ∧
           AggregationSpec.column spec ∈ Wide.columns telemetry_with_laps) →
  ∃ per_lap,
    aggregate_per_lap telemetry_with_laps = Aggregated per_lap ∧
    NoDup (PerLap.key <$> PerLap.rows per_lap) ∧
    (∀ k, k ∈ PerLap.key <$> PerLap.rows per_lap ↔
          k ∈ Wide.key <$> Wide.rows telemetry_with_laps) ∧
    (∀ r, r ∈ PerLap.rows per_lap →
          PerLap.samples_per_lap r
          = Some (length (group (Wide.rows telemetry_with_laps) (PerLap.key r)))).
Proof.
  intros Hlap Hvehicle Hconfigured.
  destruct (aggregate_per_lap_rows _ Hlap Hvehicle Hconfigured)
    as (per_lap & row_of & Hout & Hrows & Hrow).
  exists per_lap. split; [done|].
  assert (PerLap.key <$> PerLap.rows per_lap
          = group_keys (Wide.rows telemetry_with_laps)) as Hkeys.
  { rewrite Hrows, <-list_fmap_compose.
    rewrite <-(list_fmap_id (group_keys _)) at 2.
    apply list_fmap_ext. intros _ k _; simpl. apply Hrow. }
  rewrite Hkeys. split; [apply group_keys_NoDup|].
  split; [apply elem_of_group_keys|].
  intros r. rewrite Hrows. intros (k & -> & _)%list_elem_of_fmap.
  destruct (Hrow k) as [-> ->]. done.
Qed.

Lemma aggregate_per_lap_coverage_witness :
  ∃ per_lap,
    aggregate_per_lap three_rows = Aggregated per_lap ∧
    PerLap.key <$> PerLap.rows per_lap = [("V1", 1%Z); ("V1", 2%Z)] ∧
    PerLap.samples_per_lap <$> PerLap.rows per_lap = [Some 1; Some 2] ∧
    NoDup (PerLap.key <$> PerLap.rows per_lap).
Proof.
  destruct (aggregate_per_lap_coverage three_rows) as (per_lap & Hout & Hnodup & _).
  - by do 1 right; left.
  - by left.
  - exists {| AggregationSpec.column := "speed"; AggregationSpec.stats := [mean; max] |}.
    split; [by left|]. by do 2 right; left.
  - exists per_lap. vm_compute in Hout. injection Hout as <-.
    split; [vm_compute; reflexivity|]. split; [reflexivity|].
    split; [reflexivity|]. exact Hnodup.
Defined.

End per_lap_aggregator.

(** ** Signal Pivot *)

Section signal_pivot.
Import pandas feature_engineering lap_samples pivot_samples pandas_pivot.

Lemma elem_of_loc_not_duplicated seen columns c :
  c ∈ loc_not (duplicated seen columns) columns ↔ c ∈ columns ∧ c ∉ seen.
Proof.
  revert seen. induction columns as [|c' columns IH]; intros seen; simpl.
  - rewrite elem_of_nil. tauto.
  - case_bool_decide as Hc'; rewrite ?elem_of_cons, IH, !elem_of_cons;
      destruct (decide (c = c')) as [->|]; tauto.
Qed.

Lemma loc_not_duplicated_NoDup seen columns :
  NoDup (loc_not (duplicated seen columns) columns).
Proof.
  revert seen. induction columns as [|c columns IH]; intros seen; simpl.
  - constructor.
  - case_bool_decide; [done|]. constructor; [|done].
    rewrite elem_of_loc_not_duplicated, elem_of_cons. tauto.
Qed.







Lemma drop_duplicated_columns_labels table c :
  c ∈ Table.columns (drop_duplicated_columns table) ↔ c ∈ Table.columns table.
Proof.
  unfold drop_duplicated_columns; simpl.
  rewrite elem_of_loc_not_duplicated, elem_of_nil. tauto.
Qed.







End signal_pivot.

(** * Further properties of the code *)

(** ** Risk engine: normalization bounds *)

Section normalization.
Import pandas karma_stream design scan_invariants samples risk_facts.
Local Open Scope Q_scope.

Lemma Qmin_cases a b : Qmin a b = a ∨ Qmin a b = b.
Proof. unfold Qmin, GenericMinMax.gmin. destruct (a ?= b); auto. Qed.

Lemma Qmax_cases a b : Qmax a b = a ∨ Qmax a b = b.
Proof. unfold Qmax, GenericMinMax.gmax. destruct (a ?= b); auto. Qed.

(** [Series.min()] is one of the values and below all of them. *)
Lemma series_min_spec x xs :
  series_min x xs ∈ x :: xs ∧ ∀ y, y ∈ x :: xs → series_min x xs <= y.
Proof.
  unfold series_min. revert x. induction xs as [|z xs IH]; intros x; simpl.
  - split; [left|]. intros y ->%list_elem_of_singleton. lra.
  - destruct (IH (Qmin x z)) as [Hin Hle]. split.
    + apply elem_of_cons in Hin as [->|Hin]; [|by do 2 right].
      destruct (Qmin_cases x z) as [->| ->]; [left|right; left].
    + intros y Hy.
      assert (foldl Qmin (Qmin x z) xs <= Qmin x z) as Hm by (apply Hle; left).
      apply elem_of_cons in Hy as [->|Hy].
      { eapply Qle_trans; [exact Hm|apply Q.le_min_l]. }
      apply elem_of_cons in Hy as [->|Hy].
      { eapply Qle_trans; [exact Hm|apply Q.le_min_r]. }
      apply Hle. by right.
Qed.

Lemma series_max_spec x xs :
  series_max x xs ∈ x :: xs ∧ ∀ y, y ∈ x :: xs → y <= series_max x xs.
Proof.
  unfold series_max. revert x. induction xs as [|z xs IH]; intros x; simpl.
  - split; [left|]. intros y ->%list_elem_of_singleton. lra.
  - destruct (IH (Qmax x z)) as [Hin Hle]. split.
    + apply elem_of_cons in Hin as [->|Hin]; [|by do 2 right].
      destruct (Qmax_cases x z) as [->| ->]; [left|right; left].
    + intros y Hy.
      assert (Qmax x z <= foldl Qmax (Qmax x z) xs) as Hm by (apply Hle; left).
      apply elem_of_cons in Hy as [->|Hy].
      { eapply Qle_trans; [apply Q.le_max_l|exact Hm]. }
      apply elem_of_cons in Hy as [->|Hy].
      { eapply Qle_trans; [apply Q.le_max_r|exact Hm]. }
      apply Hle. by right.
Qed.

Lemma column_stats_lookup df cols col :
  _column_stats df cols !! col
  = if decide (col ∈ cols) then Some (column_range df col) else None.
Proof.
  unfold _column_stats. induction cols as [|c cols IH] using rev_ind.
  - rewrite decide_False by apply not_elem_of_nil. apply lookup_empty.
  - rewrite foldl_snoc.
    set (stats := foldl _ ∅ cols) in *.
    assert ((match column_dropna df c with
             | [] => <[c := (0, 0)]> stats
             | x :: xs => <[c := (series_min x xs, series_max x xs)]> stats
             end) = <[c := column_range df c]> stats) as ->.
    { unfold column_range. by destruct (column_dropna df c). }
    destruct (decide (c = col)) as [->|Hne].
    + rewrite lookup_insert_eq. rewrite decide_True; [done|].
      apply elem_of_app; right; left.
    + rewrite lookup_insert_ne, IH by done.
      destruct (decide (col ∈ cols)) as [Hin|Hin].
      * rewrite decide_True; [done|]. apply elem_of_app; by left.
      * rewrite decide_False; [done|].
        intros [?|?%list_elem_of_singleton]%elem_of_app; congruence.
Qed.

Lemma column_range_bounds df col :
  (column_range df col).1 <= (column_range df col).2 ∧
  ∀ row v, row ∈ rows df → features row !! col = Some v →
    (column_range df col).1 <= v <= (column_range df col).2.
Proof.
  unfold column_range.
  assert (∀ row v, row ∈ rows df → features row !! col = Some v →
            v ∈ column_dropna df col) as Hin.
  { intros row v Hrow Hv. apply list_elem_of_omap. by exists row. }
  destruct (column_dropna df col) as [|x xs] eqn:E; simpl.
  - split; [lra|]. intros row v Hrow Hv.
    by apply Hin, elem_of_nil in Hv.
  - destruct (series_min_spec x xs) as [_ Hmin].
    destruct (series_max_spec x xs) as [_ Hmax]. split.
    + eapply Qle_trans; [apply Hmin|apply Hmax]; left.
    + intros row v Hrow Hv. specialize (Hin row v Hrow Hv). split; auto.
Qed.


(** X1: [_normalize] is monotone in the value: a larger reading never gets
    a smaller normalized value, whatever the bounds. *)
Theorem normalize_monotone min_val max_val v1 v2 :
  v1 <= v2 →
  _normalize (Some v1) min_val max_val <= _normalize (Some v2) min_val max_val.
Proof.
  intros Hv. unfold _normalize.
  destruct (Qle_bool max_val min_val) eqn:Hdeg; [lra|].
  assert (min_val < max_val) as Hlt.
  { apply Qnot_le_lt. intros Hle. apply Qle_bool_iff in Hle. congruence. }
  apply Q.max_le_compat_l, Q.min_le_compat_l.
  apply Qmult_le_compat_r; [lra|].
  apply Qinv_le_0_compat. lra.
Qed.

Lemma normalize_monotone_witness :
  _normalize (Some 90) 80 120 <= _normalize (Some 100) 80 120 ∧
  _normalize (Some 100) 80 120 == 1 # 2.
Proof.
  split; [apply normalize_monotone; discriminate|reflexivity].
Defined.

(** X2: asked about columns of the table, [_column_stats] records for
    each of them a pair (min, max) with min <= max that encloses every
    non-null value of the column; both bounds are values of the column
    when it has one, and the pair is (0, 0) when the column is entirely
    null. *)
Theorem column_stats_bounds df cols col :
  cols ⊆ columns df →
  col ∈ cols →
  ∃ lo hi,
    _column_stats df cols !! col = Some (lo, hi) ∧ lo <= hi ∧
    (∀ row v, row ∈ rows df → features row !! col = Some v → lo <= v <= hi) ∧
    ((∃ row, row ∈ rows df ∧ is_Some (features row !! col)) →
     (∃ row, row ∈ rows df ∧ features row !! col = Some lo) ∧
     (∃ row, row ∈ rows df ∧ features row !! col = Some hi)) ∧
    ((∀ row, row ∈ rows df → features row !! col = None) → lo = 0 ∧ hi = 0).
Proof.
  intros _ Hcol. exists (column_range df col).1, (column_range df col).2.
  rewrite column_stats_lookup, decide_True by done.
  destruct (column_range_bounds df col) as [Hle Hbounds].
  split; [by destruct (column_range df col)|]. split; [done|]. split; [done|].
  unfold column_range. split.
  - intros (row & Hrow & [v Hv]).
    assert (v ∈ column_dropna df col) as Hin
      by (apply list_elem_of_omap; by exists row).
    destruct (column_dropna df col) as [|x xs] eqn:E; [by apply elem_of_nil in Hin|].
    destruct (series_min_spec x xs) as [Hmin _].
    destruct (series_max_spec x xs) as [Hmax _].
    rewrite <-E in Hmin, Hmax. simpl. split.
    + apply list_elem_of_omap in Hmin as (r & ? & ?). by exists r.
    + apply list_elem_of_omap in Hmax as (r & ? & ?). by exists r.
  - intros Hnull.
    destruct (column_dropna df col) as [|x xs] eqn:E; [done|].
    assert (x ∈ column_dropna df col) as Hin by (rewrite E; left).
    apply list_elem_of_omap in Hin as (r & Hr & Hx). by rewrite Hnull in Hx.
Qed.

Lemma column_stats_bounds_witness :
  ∃ lo hi,
    two_laps_stats !! "speed_mean" = Some (lo, hi) ∧ lo <= 80 ∧ 120 <= hi.
Proof.
  destruct (column_stats_bounds two_laps
              (elements (required_cols COMPONENT_SPECS)) "speed_mean")
    as (lo & hi & Hstats & _ & Hbounds & _).
  - apply (bool_decide_unpack _). vm_compute. exact I.
  - apply (bool_decide_unpack _). vm_compute. exact I.
  - exists lo, hi. split; [exact Hstats|]. split.
    + apply (Hbounds lap1 80); [by right; left|vm_compute; reflexivity].
    + apply (Hbounds lap2 120); [by left|vm_compute; reflexivity].
Defined.



End normalization.

(** ** Risk engine: the shape of the output *)

Section output_shape.
Import pandas karma_stream design scan_invariants samples risk_facts.
Local Open Scope Q_scope.

Lemma score_component_head smoothing wear_rate stats row rel st spec :
  ∃ karma,
    (score_component smoothing wear_rate stats row rel st spec).1
    = st.1 ++ [ {| rec_vehicle_id := vehicle_id row; rec_lap := lap row;
                   component := name spec;
                   instant_score := _component_score row stats spec;
                   karma_score := karma |} ].
Proof. by eexists. Qed.

Lemma score_components_heads smoothing wear_rate stats row rel specs st :
  record_head <$> (foldl (score_component smoothing wear_rate stats row rel)
                         st specs).1
  = (record_head <$> st.1) ++ row_heads specs stats row.
Proof.
  revert st. induction specs as [|spec specs IH]; intros st; simpl.
  - unfold row_heads; simpl. by rewrite app_nil_r.
  - rewrite IH. destruct (score_component_head smoothing wear_rate stats row rel
                            st spec) as [karma ->].
    rewrite fmap_app; simpl. unfold row_heads; simpl.
    by rewrite <-app_assoc.
Qed.

Lemma scan_heads specs smoothing wear_rate stats todo st :
  record_head <$> records (foldl (scan_row specs smoothing wear_rate stats) st todo)
  = (record_head <$> records st) ++ (todo ≫= row_heads specs stats).
Proof.
  revert st. induction todo as [|row todo IH]; intros st; simpl.
  - by rewrite app_nil_r.
  - rewrite IH.
    pose proof (scan_row_records specs smoothing wear_rate stats st row) as Hrow.
    apply (f_equal fst) in Hrow; simpl in Hrow. rewrite Hrow.
    rewrite score_components_heads; simpl. by rewrite <-app_assoc.
Qed.

Lemma bind_row_heads_length specs stats (l : list LapRow) :
  length (l ≫= row_heads specs stats) = (length specs * length l)%nat.
Proof.
  induction l as [|row l IH]; [simpl; lia|].
  rewrite bind_cons, length_app, IH. unfold row_heads.
  rewrite length_fmap. simpl. lia.
Qed.

(** X4: on a non-empty table that has every feature column, the output has
    one record per row and component: the rows in (vehicle_id, lap) order,
    each with the four components in their configured order, the record
    carrying the row's instant score under the table-wide bounds; so there
    are four times as many records as rows, under the five score
    columns. *)
Theorem compute_stream_records df smoothing wear_rate out :
  empty df = false →
  compute_stream df smoothing wear_rate = Returned out →
  score_columns out = SCORE_COLUMNS ∧
  record_head <$> score_rows out
  = sort_values row_le (rows df)
    ≫= row_heads COMPONENT_SPECS
         (_column_stats df (elements (required_cols COMPONENT_SPECS))) ∧
  length (score_rows out) = (4 * length (rows df))%nat.
Proof.
  intros Hempty Hout.
  assert (record_head <$> score_rows out
          = sort_values row_le (rows df)
            ≫= row_heads COMPONENT_SPECS
                 (_column_stats df (elements (required_cols COMPONENT_SPECS))))
    as Hheads.
  { rewrite (compute_stream_returned _ _ _ _ Hout), Hempty.
    unfold scan_rows. by rewrite scan_heads. }
  assert (length (score_rows out) = (4 * length (rows df))%nat) as Hlen.
  { rewrite <-(length_fmap record_head), Hheads, bind_row_heads_length.
    rewrite sort_values_length. simpl. lia. }
  split; [|by split].
  assert (score_rows out ≠ []) as Hrecords.
  { intros Hnil. rewrite Hnil in Hlen. simpl in Hlen.
    unfold empty in Hempty. apply bool_decide_eq_false in Hempty.
    destruct (rows df); [|done]. apply Hempty. by right. }
  unfold compute_stream in Hout. rewrite Hempty in Hout.
  destruct (filter _ _); [|done]. injection Hout as <-; simpl in *.
  by destruct (records _).
Qed.

Lemma compute_stream_records_witness :
  ∃ out, compute_stream two_laps (6 # 10) (2 # 1000) = Returned out ∧
    (component <$> score_rows out)
    = ["engine"; "gearbox"; "brakes"; "tires";
       "engine"; "gearbox"; "brakes"; "tires"] ∧
    length (score_rows out) = (4 * 2)%nat.
Proof.
  eexists. split; [vm_compute; reflexivity|]. split; [reflexivity|].
  apply (compute_stream_records two_laps (6 # 10) (2 # 1000));
    vm_compute; reflexivity.
Defined.

End output_shape.

(** ** Risk engine: vehicles do not influence each other *)

Section vehicle_independence.
Import pandas karma_stream design scan_invariants samples risk_facts.
Local Open Scope Q_scope.

Context (specs : list ComponentSpec) (smoothing wear_rate : Q)
        (stats : gmap string (Q * Q)) (v : string).

Lemma track_start_agree starts starts' row :
  vehicle_id row = v → starts !! v = starts' !! v →
  track_start starts row !! v = track_start starts' row !! v.
Proof.
  intros Hv Hstarts. unfold track_start. rewrite Hv, <-Hstarts.
  destruct (starts !! v) eqn:E; [congruence|]. by rewrite !lookup_insert_eq.
Qed.

Lemma relative_lap_agree starts starts' row :
  vehicle_id row = v → starts !! v = starts' !! v →
  relative_lap (track_start starts row) row
  = relative_lap (track_start starts' row) row.
Proof.
  intros Hv Hstarts. unfold relative_lap.
  by rewrite Hv, (track_start_agree _ _ _ Hv Hstarts).
Qed.

Lemma score_component_other row rel st st' spec :
  vehicle_id row ≠ v → agree v st st' →
  agree v (score_component smoothing wear_rate stats row rel st spec) st'.
Proof.
  intros Hv [Hrecs Hscores]. split; simpl.
  - rewrite filter_app, filter_cons_False, filter_nil, app_nil_r; done.
  - intros c. rewrite lookup_insert_ne; [done|]. congruence.
Qed.

Lemma score_component_same row rel st st' spec :
  vehicle_id row = v → agree v st st' →
  agree v (score_component smoothing wear_rate stats row rel st spec)
        (score_component smoothing wear_rate stats row rel st' spec).
Proof.
  intros Hv [Hrecs Hscores]. unfold score_component.
  rewrite Hv, <-(Hscores (name spec)). split; simpl.
  - rewrite filter_app, filter_cons_True, filter_nil by done.
    by rewrite Hrecs.
  - intros c. destruct (decide (name spec = c)) as [->|Hc].
    + by rewrite !lookup_insert_eq.
    + rewrite !lookup_insert_ne by congruence. apply Hscores.
Qed.

Lemma score_components_other row rel st st' :
  vehicle_id row ≠ v → agree v st st' →
  agree v (foldl (score_component smoothing wear_rate stats row rel) st specs) st'.
Proof.
  intros Hv. revert st.
  induction specs as [|spec specs' IH]; intros st Hst; simpl; [done|].
  apply IH. by apply score_component_other.
Qed.

Lemma score_components_same row rel st st' :
  vehicle_id row = v → agree v st st' →
  agree v (foldl (score_component smoothing wear_rate stats row rel) st specs)
        (foldl (score_component smoothing wear_rate stats row rel) st' specs).
Proof.
  intros Hv. revert st st'.
  induction specs as [|spec specs' IH]; intros st st' Hst; simpl; [done|].
  apply IH. by apply score_component_same.
Qed.

Lemma scan_other_vehicles todo st st' :
  agree v (records st, smoothed_scores st) (records st', smoothed_scores st') →
  vehicle_start_laps st !! v = vehicle_start_laps st' !! v →
  filter (of_vehicle v)
    (records (foldl (scan_row specs smoothing wear_rate stats) st todo))
  = records (foldl (scan_row specs smoothing wear_rate stats) st'
               (filter (λ row, vehicle_id row = v) todo)).
Proof.
  revert st st'. induction todo as [|row todo IH]; intros st st' Hst Hstarts.
  - apply Hst.
  - rewrite filter_cons. simpl. destruct (decide (vehicle_id row = v)) as [Hv|Hv].
    + simpl. apply IH.
      * rewrite !scan_row_records.
        rewrite !(relative_lap_agree _ _ _ Hv Hstarts).
        by apply score_components_same.
      * rewrite !scan_row_starts. by apply track_start_agree.
    + apply IH.
      * rewrite scan_row_records. by apply score_components_other.
      * rewrite scan_row_starts, track_start_other; [done|congruence].
Qed.

End vehicle_independence.

(** X5: in the scan of [compute_stream], the records of one vehicle are
    exactly the records the same scan writes when it is given that
    vehicle's rows alone (with the same normalization bounds): what the
    loop keeps for the other vehicles, their smoothed scores and their
    start laps, is never read for this one. *)
Theorem scan_rows_vehicle_independent
    (specs : list karma_stream.ComponentSpec) (smoothing wear_rate : Q)
    (stats : gmap string (Q * Q)) (v : string)
    (sorted_rows : list karma_stream.LapRow) :
  filter (risk_facts.of_vehicle v)
    (karma_stream.records
       (karma_stream.scan_rows specs smoothing wear_rate stats sorted_rows))
  = karma_stream.records
      (karma_stream.scan_rows specs smoothing wear_rate stats
         (filter (λ row, karma_stream.vehicle_id row = v) sorted_rows)).
Proof.
  unfold karma_stream.scan_rows. apply scan_other_vehicles; [|done].
  by split.
Qed.

(** ** Risk engine: the karma series as a recurrence *)

Section karma_recurrence.
Import pandas karma_stream design scan_invariants samples risk_facts.
Local Open Scope Q_scope.

Context (specs : list ComponentSpec) (smoothing wear_rate : Q)
        (stats : gmap string (Q * Q)) (v c : string).

Lemma karma_chain_snoc start prev laps lap instant :
  karma_chain smoothing wear_rate start prev (laps ++ [(lap, instant)])
  = karma_chain smoothing wear_rate start prev laps
    ++ [karma_step smoothing wear_rate
          (match last (karma_chain smoothing wear_rate start prev laps) with
           | Some k => Some k
           | None => prev
           end) instant (lap - start + 1)].
Proof.
  revert prev. induction laps as [|[lap' instant'] laps IH]; intros prev; [done|].
  simpl. rewrite IH. f_equal.
  set (k := karma_step smoothing wear_rate prev instant' (lap' - start + 1)).
  rewrite last_cons. by destruct (last _).
Qed.

Lemma karma_replay_snoc lap0 instant0 laps lap instant :
  karma_replay smoothing wear_rate (((lap0, instant0) :: laps) ++ [(lap, instant)])
  = karma_replay smoothing wear_rate ((lap0, instant0) :: laps)
    ++ [karma_step smoothing wear_rate
          (last (karma_replay smoothing wear_rate ((lap0, instant0) :: laps)))
          instant (lap - lap0 + 1)].
Proof.
  unfold karma_replay. rewrite <-app_comm_cons, app_comm_cons, karma_chain_snoc.
  do 3 f_equal. simpl. rewrite last_cons. by destruct (last _).
Qed.

Lemma of_component_of_vehicle (recs : list ScoreRecord) :
  filter (of_component v c) recs
  = filter (λ r, component r = c) (filter (of_vehicle v) recs).
Proof.
  rewrite list_filter_filter. apply list_filter_iff.
  intros r. unfold of_component, of_vehicle. tauto.
Qed.

Lemma filter_snoc_component (recs : list ScoreRecord) r :
  filter (of_component v c) (recs ++ [r])
  = if decide (of_component v c r)
    then filter (of_component v c) recs ++ [r]
    else filter (of_component v c) recs.
Proof.
  rewrite filter_app. destruct (decide (of_component v c r)).
  - by rewrite filter_cons_True.
  - by rewrite filter_cons_False, app_nil_r.
Qed.

Lemma score_component_replaying row start done spec st :
  vehicle_id row = v → spec ∈ specs →
  replaying specs done smoothing wear_rate v c row start st →
  replaying specs (done ++ [spec]) smoothing wear_rate v c row start
    (score_component smoothing wear_rate stats row (lap row - start + 1) st spec).
Proof.
  intros Hv Hspec (Hser & Hlast & Hhead).
  unfold replaying, score_component, karma_series, lap_instants in *.
  cbn [fst snd]. rewrite filter_snoc_component.
  destruct (decide (of_component v c _)) as [[_ Hc]|Hc]; simpl in Hc.
  - rewrite Hv, Hc, !fmap_snoc, last_snoc, lookup_insert_eq. cbn beta.
    cbn [rec_lap instant_score karma_score].
    destruct (filter (of_component v c) st.1) as [|r0 recs] eqn:E.
    + simpl in *. destruct Hhead as [_ [Hno| ->]].
      * destruct Hno. rewrite <-Hc. apply list_elem_of_fmap. by exists spec.
      * rewrite Hlast. done.
    + rewrite !fmap_cons in *. cbn beta in *. subst start.
      split_and!; [|done..].
      rewrite karma_replay_snoc, <-Hser, Hlast. done.
  - assert (name spec ≠ c) as Hne by (intros Hc'; apply Hc; by split).
    rewrite lookup_insert_ne by congruence.
    split_and!; [done..|].
    clear Hser Hlast.
    destruct (_ <$> filter _ _) as [|[lap0 i0] l]; [|done].
    split; [|apply Hhead]. rewrite fmap_snoc, elem_of_app.
    intros [?|Hin%list_elem_of_singleton]; [by apply Hhead|done].
Qed.

Lemma score_components_replaying row start todo done st :
  vehicle_id row = v → done ++ todo = specs →
  replaying specs done smoothing wear_rate v c row start st →
  replaying specs specs smoothing wear_rate v c row start
    (foldl (score_component smoothing wear_rate stats row (lap row - start + 1))
           st todo).
Proof.
  intros Hv. revert done st.
  induction todo as [|spec todo IH]; intros done st Hsplit Hst; simpl.
  - by rewrite app_nil_r in Hsplit; subst done.
  - apply (IH (done ++ [spec])).
    + by rewrite <-app_assoc.
    + apply score_component_replaying; [done| |done].
      rewrite <-Hsplit. set_solver.
Qed.

Lemma scan_row_replayed row st :
  replayed specs smoothing wear_rate v c
    (records st, smoothed_scores st) (vehicle_start_laps st) →
  replayed specs smoothing wear_rate v c
    (records (scan_row specs smoothing wear_rate stats st row),
     smoothed_scores (scan_row specs smoothing wear_rate stats st row))
    (vehicle_start_laps (scan_row specs smoothing wear_rate stats st row)).
Proof.
  intros (Hser & Hlast & Hnone & Hsome).
  rewrite scan_row_records, scan_row_starts.
  destruct (decide (vehicle_id row = v)) as [Hv|Hv].
  - destruct (track_start_lookup (vehicle_start_laps st) row)
      as (start & Hstart & Hnew & Hold).
    unfold relative_lap. rewrite Hstart. cbn [default from_option].
    rewrite Hv in *.
    assert (replaying specs specs smoothing wear_rate v c row start
              (foldl (score_component smoothing wear_rate stats row
                        (lap row - start + 1))
                     (records st, smoothed_scores st) specs))
      as (Hser' & Hlast' & Hhead').
    { apply (score_components_replaying row start specs []); [done..|].
      split_and!; [done..|]. cbn [fst snd] in *.
      destruct (vehicle_start_laps st !! v) as [s|] eqn:E.
      - rewrite (Hold s eq_refl). specialize (Hsome s eq_refl).
        destruct (lap_instants v c (records st)) as [|[lap0 i0] l]; [|done].
        split; [apply not_elem_of_nil|by left].
      - unfold lap_instants. rewrite of_component_of_vehicle, Hnone by done.
        simpl. split; [apply not_elem_of_nil|right; by apply Hnew]. }
    split_and!; [done..| |].
    + by rewrite Hstart.
    + intros start' Hs. rewrite Hstart in Hs. injection Hs as <-.
      clear Hser Hser' Hlast Hlast' Hsome Hnone. cbn [fst] in *.
      destruct (lap_instants v c _) as [|[lap0 i0] l]; [apply Hhead'|done].
  - pose proof (score_components_other specs smoothing wear_rate stats v row
                  (relative_lap (track_start (vehicle_start_laps st) row) row)
                  (records st, smoothed_scores st)
                  (filter (of_vehicle v) (records st), smoothed_scores st)
                  Hv (conj eq_refl (λ _, eq_refl))) as [Hrecs Hscores].
    unfold replayed, karma_series, lap_instants in *. cbn [fst snd] in *.
    rewrite track_start_other by congruence.
    rewrite !of_component_of_vehicle in *. rewrite !Hrecs, Hscores.
    split_and!; done.
Qed.

Lemma scan_replayed todo st :
  replayed specs smoothing wear_rate v c
    (records st, smoothed_scores st) (vehicle_start_laps st) →
  karma_series v c
    (records (foldl (scan_row specs smoothing wear_rate stats) st todo))
  = karma_replay smoothing wear_rate
      (lap_instants v c
         (records (foldl (scan_row specs smoothing wear_rate stats) st todo))).
Proof.
  revert st. induction todo as [|row todo IH]; intros st Hst; simpl.
  - apply Hst.
  - apply IH. by apply scan_row_replayed.
Qed.

Lemma scan_rows_replayed sorted_rows :
  karma_series v c
    (records (scan_rows specs smoothing wear_rate stats sorted_rows))
  = karma_replay smoothing wear_rate
      (lap_instants v c
         (records (scan_rows specs smoothing wear_rate stats sorted_rows))).
Proof.
  apply scan_replayed. unfold replayed. simpl. split_and!; done.
Qed.

End karma_recurrence.

Section karma_series_facts.
Import pandas karma_stream design scan_invariants samples risk_facts.
Local Open Scope Q_scope.

(** X6: in the table [compute_stream] returns, the karma scores of one
    vehicle and component, read in output order, are the recurrence of
    the loop run over that series' laps and instant scores alone: the
    first karma is seeded with [None] as previous score, every later one
    smooths over the karma written just before it, and the wear of each
    lap counts laps from the lap of the first record. *)
Theorem karma_series_recurrence df smoothing wear_rate out v c :
  compute_stream df smoothing wear_rate = Returned out →
  karma_series v c (score_rows out)
  = karma_replay smoothing wear_rate (lap_instants v c (score_rows out)).
Proof.
  intros Hout. rewrite (compute_stream_returned _ _ _ _ Hout).
  destruct (empty df); [done|]. apply scan_rows_replayed.
Qed.

Lemma karma_series_recurrence_witness :
  ∃ out, compute_stream two_laps (6 # 10) (2 # 1000) = Returned out ∧
    (lap_instants "V1" "gearbox" (score_rows out)).*1 = [1%Z; 2%Z] ∧
    karma_series "V1" "gearbox" (score_rows out)
    = karma_replay (6 # 10) (2 # 1000) (lap_instants "V1" "gearbox" (score_rows out)).
Proof.
  eexists. split; [vm_compute; reflexivity|]. split; [vm_compute; reflexivity|].
  apply (karma_series_recurrence two_laps (6 # 10) (2 # 1000)).
  vm_compute; reflexivity.
Defined.

(** X7: the first record [compute_stream] writes for a vehicle and
    component is one step of the loop taken with the record's own instant
    score in the place of the previous score and with a relative lap of
    1, whatever the lap number of that row: its karma is
    [min(1.0, smoothing * instant + (1 - smoothing) * instant
    + min(0.5, wear_rate * 1) * (1.0 + instant * 0.5))], the expression
    the loop evaluates. *)
Theorem first_record_seeded df smoothing wear_rate out v c r rest :
  compute_stream df smoothing wear_rate = Returned out →
  filter (of_component v c) (score_rows out) = r :: rest →
  karma_score r = karma_step smoothing wear_rate None (instant_score r) 1.
Proof.
  intros Hout Hfirst.
  assert (karma_series v c (score_rows out)
          = karma_replay smoothing wear_rate (lap_instants v c (score_rows out)))
    as Hreplay.
  { rewrite (compute_stream_returned _ _ _ _ Hout).
    destruct (empty df); [done|]. apply scan_rows_replayed. }
  unfold karma_series, lap_instants in Hreplay. rewrite Hfirst in Hreplay.
  rewrite !fmap_cons in Hreplay. simpl in Hreplay.
  injection Hreplay as -> _.
  by replace (rec_lap r - rec_lap r + 1)%Z with 1%Z by lia.
Qed.

Lemma first_record_seeded_witness :
  ∃ out r rest, compute_stream two_laps (6 # 10) (2 # 1000) = Returned out ∧
    filter (of_component "V1" "engine") (score_rows out) = r :: rest ∧
    rec_lap r = 1%Z ∧
    karma_score r = karma_step (6 # 10) (2 # 1000) None (instant_score r) 1.
Proof.
  eexists _, _, _. split; [vm_compute; reflexivity|].
  split; [vm_compute; reflexivity|]. split; [reflexivity|].
  eapply (first_record_seeded two_laps (6 # 10) (2 # 1000) _ "V1" "engine");
    vm_compute; reflexivity.
Defined.

End karma_series_facts.

(** ** Lap tables: schema normalization *)

Section lap_schema_facts.
Import utils lap_schema.

Lemma ensure_columns_passed columns required :
  ensure_columns columns required = Passed ↔ ∀ col, col ∈ required → col ∈ columns.
Proof.
  unfold ensure_columns.
  destruct (filter _ required) as [|col missing] eqn:E.
  - split; [intros _ col Hcol|done].
    destruct (decide (col ∈ columns)) as [|Hno]; [done|].
    assert (col ∈ filter (λ col, col ∉ columns) required) as Hin
      by (by apply list_elem_of_filter).
    rewrite E in Hin. by apply elem_of_nil in Hin.
  - split; [done|]. intros Hall.
    assert (col ∈ filter (λ col, col ∉ columns) required) as Hin
      by (rewrite E; left).
    apply list_elem_of_filter in Hin as [Hno Hin]. destruct Hno. by apply Hall.
Qed.

Lemma ensure_columns_missing columns required missing :
  ensure_columns columns required = Missing missing →
  missing ≠ [] ∧ ∀ col, col ∈ missing ↔ col ∈ required ∧ col ∉ columns.
Proof.
  unfold ensure_columns.
  destruct (filter _ required) as [|col missing'] eqn:E; [done|].
  intros [= <-]. split; [done|]. intros c. rewrite <-E, list_elem_of_filter. tauto.
Qed.

(** What [_normalize_lap_bounds] does to one label. *)
Lemma normalize_lap_bounds_labels columns :
  _normalize_lap_bounds columns
  = (λ col,
       if decide (col = "lap" ∧ "lap_number" ∉ columns) then "lap_number"
       else if decide (col = "value" ∧ "timestamp" ∉ columns) then "timestamp"
       else col) <$> columns.
Proof.
  unfold _normalize_lap_bounds, rename.
  destruct (decide (("lap_number" ∉ columns) ∧ "lap" ∈ columns)) as [[Hl1 Hl2]|Hl];
    destruct (decide (("timestamp" ∉ columns) ∧ "value" ∈ columns)) as [[Ht1 Ht2]|Ht].
  - rewrite decide_False by apply insert_non_empty.
    apply list_fmap_ext. intros _ col _.
    destruct (decide (col = "lap")) as [->|Hcl].
    { rewrite lookup_insert_ne, lookup_insert_eq by done.
      by rewrite decide_True. }
    rewrite (decide_False (P := col = "lap" ∧ _)) by tauto.
    destruct (decide (col = "value")) as [->|Hcv].
    { rewrite lookup_insert_eq. by rewrite decide_True. }
    rewrite lookup_insert_ne, lookup_insert_ne, lookup_empty by done.
    by rewrite decide_False by tauto.
  - rewrite decide_False by apply insert_non_empty.
    apply list_fmap_ext. intros _ col Hcol%list_elem_of_lookup_2.
    destruct (decide (col = "lap")) as [->|Hcl].
    { rewrite lookup_insert_eq. by rewrite decide_True. }
    rewrite lookup_insert_ne, lookup_empty by done.
    rewrite (decide_False (P := col = "lap" ∧ _)) by tauto.
    rewrite decide_False; [done|]. intros [-> ?]. tauto.
  - rewrite decide_False by apply insert_non_empty.
    apply list_fmap_ext. intros _ col Hcol%list_elem_of_lookup_2.
    rewrite (decide_False (P := col = "lap" ∧ _)) by (intros [-> ?]; tauto).
    destruct (decide (col = "value")) as [->|Hcv].
    { rewrite lookup_insert_eq. by rewrite decide_True. }
    rewrite lookup_insert_ne, lookup_empty by done.
    by rewrite decide_False by tauto.
  - rewrite decide_True by done.
    rewrite <-(list_fmap_id columns) at 1.
    apply list_fmap_ext. intros _ col Hcol%list_elem_of_lookup_2.
    rewrite (decide_False (P := col = "lap" ∧ _)) by (intros [-> ?]; tauto).
    rewrite decide_False; [done|]. intros [-> ?]. tauto.
Qed.

Lemma elem_of_normalize_lap_bounds columns col :
  col ∈ _normalize_lap_bounds columns ↔
  (col ∈ columns ∧ ¬ (col = "lap" ∧ "lap_number" ∉ columns)
                 ∧ ¬ (col = "value" ∧ "timestamp" ∉ columns))
  ∨ (col = "lap_number" ∧ "lap" ∈ columns)
  ∨ (col = "timestamp" ∧ "value" ∈ columns).
Proof.
  rewrite normalize_lap_bounds_labels, list_elem_of_fmap. split.
  - intros (c & -> & Hc).
    destruct (decide (c = "lap" ∧ _)) as [[-> ?]|Hl]; [tauto|].
    destruct (decide (c = "value" ∧ _)) as [[-> ?]|Hv]; [tauto|].
    left. tauto.
  - intros [(Hc & Hl & Hv)|[[-> Hc]|[-> Hc]]].
    + exists col. by rewrite !decide_False.
    + destruct (decide ("lap_number" ∈ columns)) as [Hn|Hn].
      * exists "lap_number". split; [|done]. by rewrite !decide_False by (by intros []).
      * exists "lap". split; [|done]. by rewrite decide_True.
    + destruct (decide ("timestamp" ∈ columns)) as [Hn|Hn].
      * exists "timestamp". split; [|done]. by rewrite !decide_False by (by intros []).
      * exists "value". split; [|done].
        rewrite decide_False by (by intros []). by rewrite decide_True.
Qed.

(** X8: a lap table passes the schema check of [_prepare_lap_windows]
    exactly when it has a [vehicle_id] column, a [lap_number] or a [lap]
    column, and a [timestamp] or a [value] column. *)
Theorem lap_table_accepted columns :
  check_lap_table columns = Passed ↔
  "vehicle_id" ∈ columns ∧
  ("lap_number" ∈ columns ∨ "lap" ∈ columns) ∧
  ("timestamp" ∈ columns ∨ "value" ∈ columns).
Proof.
  unfold check_lap_table, required_cols. rewrite ensure_columns_passed. split.
  - intros Hall.
    assert ("vehicle_id" ∈ _normalize_lap_bounds columns) as Hv
      by (apply Hall; repeat constructor).
    assert ("lap_number" ∈ _normalize_lap_bounds columns) as Hl
      by (apply Hall; repeat constructor).
    assert ("timestamp" ∈ _normalize_lap_bounds columns) as Ht
      by (apply Hall; repeat constructor).
    rewrite elem_of_normalize_lap_bounds in Hv, Hl, Ht.
    split_and!.
    + by destruct Hv as [[? _]|[[? _]|[? _]]].
    + destruct Hl as [[? _]|[[_ ?]|[? _]]]; [by left|by right|done].
    + destruct Ht as [[? _]|[[? _]|[_ ?]]]; [by left|done|by right].
  - intros (Hv & Hl & Ht) col Hcol. rewrite elem_of_normalize_lap_bounds.
    list_cases Hcol.
    + left. split_and!; [done|by intros []..].
    + destruct (decide ("lap_number" ∈ columns)); [|tauto].
      left. split_and!; [done|by intros []..].
    + destruct (decide ("timestamp" ∈ columns)); [|tauto].
      left. split_and!; [done|by intros []..].
Qed.

(** X9: [_normalize_lap_bounds] only relabels: the number of columns is
    unchanged, a table that already has [lap_number] and [timestamp]
    keeps all its labels (a [lap] or [value] column beside them is not
    renamed), and normalizing twice is normalizing once. *)
Theorem normalize_lap_bounds_idempotent columns :
  length (_normalize_lap_bounds columns) = length columns ∧
  ("lap_number" ∈ columns → "timestamp" ∈ columns →
   _normalize_lap_bounds columns = columns) ∧
  _normalize_lap_bounds (_normalize_lap_bounds columns)
  = _normalize_lap_bounds columns.
Proof.
  split_and!.
  - by rewrite normalize_lap_bounds_labels, length_fmap.
  - intros Hl Ht. rewrite normalize_lap_bounds_labels.
    transitivity (id <$> columns); [|apply list_fmap_id].
    apply list_fmap_ext. intros _ col _. by rewrite !decide_False by tauto.
  - rewrite (normalize_lap_bounds_labels (_normalize_lap_bounds columns)).
    transitivity (id <$> _normalize_lap_bounds columns); [|apply list_fmap_id].
    apply list_fmap_ext. intros _ col Hcol%list_elem_of_lookup_2.
    rewrite elem_of_normalize_lap_bounds in Hcol.
    assert (col = "lap" → "lap_number" ∈ _normalize_lap_bounds columns) as Hl.
    { intros ->. rewrite elem_of_normalize_lap_bounds.
      destruct Hcol as [(Hc & Hl & _)|[[? _]|[? _]]]; [|done..].
      destruct (decide ("lap_number" ∈ columns)); [|tauto].
      left. split_and!; [done|by intros []..]. }
    assert (col = "value" → "timestamp" ∈ _normalize_lap_bounds columns) as Ht.
    { intros ->. rewrite elem_of_normalize_lap_bounds.
      destruct Hcol as [(Hc & _ & Ht)|[[? _]|[? _]]]; [|done..].
      destruct (decide ("timestamp" ∈ columns)); [|tauto].
      left. split_and!; [done|by intros []..]. }
    by rewrite !decide_False by tauto.
Qed.

Lemma normalize_lap_bounds_idempotent_witness :
  _normalize_lap_bounds ["vehicle_id"; "lap"; "value"; "lap"]
  = ["vehicle_id"; "lap_number"; "timestamp"; "lap_number"] ∧
  _normalize_lap_bounds ["lap"; "lap_number"; "timestamp"; "value"]
  = ["lap"; "lap_number"; "timestamp"; "value"].
Proof.
  split; [vm_compute; reflexivity|].
  apply (normalize_lap_bounds_idempotent ["lap"; "lap_number"; "timestamp"; "value"]);
    repeat constructor.
Defined.

End lap_schema_facts.

(** ** Lap windows: the order of the input rows *)

Section lap_window_order.
Import pandas feature_engineering lap_design lap_samples.

Lemma key_le_antisym a b : key_le a b → key_le b a → a = b.
Proof.
  destruct a as [v1 l1], b as [v2 l2]. intros [V12 L12] [V21 L21]; simpl in *.
  assert (v1 = v2) as -> by (by apply (anti_symm String.le)).
  f_equal. specialize (L12 eq_refl). specialize (L21 eq_refl). lia.
Qed.

Lemma event_le_antisym e1 e2 : LapEvent.le e1 e2 → LapEvent.le e2 e1 → e1 = e2.
Proof.
  intros [K12 T12] [K21 T21].
  pose proof (key_le_antisym _ _ K12 K21) as K.
  specialize (T12 K). specialize (T21 (eq_sym K)).
  destruct e1, e2. unfold LapEvent.key in K. simpl in *.
  injection K as -> ->. f_equal. unfold time_le in *. lia.
Qed.

Lemma sort_values_events_Permutation l l' :
  l ≡ₚ l' → sort_values LapEvent.le l = sort_values LapEvent.le l'.
Proof.
  intros Hperm. apply (StronglySorted_unique_strong LapEvent.le).
  - intros e1 e2 _ _. apply event_le_antisym.
  - apply sort_values_StronglySorted; apply _.
  - apply sort_values_StronglySorted; apply _.
  - by rewrite !sort_values_Permutation.
Qed.

(** X10: the lap windows do not depend on the order of the rows of the
    lap-start and lap-end tables: two pairs of tables with the same rows,
    in any order, give the same windows in the same order. *)
Theorem lap_windows_order_independent lap_start lap_end lap_start' lap_end' :
  lap_start ≡ₚ lap_start' → lap_end ≡ₚ lap_end' →
  _prepare_lap_windows lap_start lap_end
  = _prepare_lap_windows lap_start' lap_end'.
Proof.
  intros Hs He. unfold _prepare_lap_windows, first_starts, last_ends.
  by rewrite (sort_values_events_Permutation _ _ Hs),
             (sort_values_events_Permutation _ _ He).
Qed.

Lemma lap_windows_order_independent_witness :
  _prepare_lap_windows duplicated_starts some_ends
  = _prepare_lap_windows (reverse duplicated_starts) (reverse some_ends).
Proof.
  apply (lap_windows_order_independent duplicated_starts some_ends);
    symmetry; apply reverse_Permutation.
Defined.

End lap_window_order.

(** ** Lap assignment: windows that do not overlap *)

Section assign_laps_complete.
Import pandas feature_engineering lap_design window_design lap_samples.
Context {P : Type}.
Implicit Types (row : Telemetry.t P) (w : LapWindow.t).

#[global] Instance telemetry_le_trans : Transitive (@Telemetry.le P).
Proof.
  intros r1 r2 r3 [T12 V12] [T23 V23]. split; [lia|]. intros T13.
  assert (Telemetry.meta_time r1 = Telemetry.meta_time r2) as T by lia.
  specialize (V12 T). rewrite <-T in V23. specialize (V23 T13). by etrans.
Qed.

#[global] Instance telemetry_le_total : Total (@Telemetry.le P).
Proof.
  intros r1 r2. unfold Telemetry.le.
  destruct (Z.lt_trichotomy (Telemetry.meta_time r1)
              (Telemetry.meta_time r2)) as [?|[T|?]].
  - left. split; [lia|]. intros ?; lia.
  - rewrite T.
    destruct (total String.le (Telemetry.vehicle_id r1) (Telemetry.vehicle_id r2));
      [left|right]; split; done.
  - right. split; [lia|]. intros ?; lia.
Qed.

Lemma StronglySorted_sublist {A} (R : relation A) (l1 l2 : list A) :
  l1 `sublist_of` l2 → StronglySorted R l2 → StronglySorted R l1.
Proof.
  induction 1 as [|x l1 l2 Hsub IH|x l1 l2 Hsub IH]; intros Hsorted; [done|..].
  - apply StronglySorted_cons in Hsorted as [Hx Hl2].
    apply StronglySorted_cons. split; [|by apply IH].
    eapply Forall_forall. intros y Hy.
    eapply Forall_forall in Hx; [done|]. by eapply elem_of_sublist.
  - apply StronglySorted_cons in Hsorted as [_ Hl2]. by apply IH.
Qed.




(** X12: the rows [assign_laps] keeps come in (time, vehicle) order,
    whatever the order of the telemetry table, and a kept row carries the
    window of its vehicle that starts last at or before the row's time. *)
Theorem assign_laps_order telemetry lap_windows :
  StronglySorted Telemetry.le (assign_laps telemetry lap_windows).*1 ∧
  ∀ row w, (row, w) ∈ assign_laps telemetry lap_windows →
    ∀ w', w' ∈ lap_windows → candidate row w' →
      (LapWindow.lap_start_time w' ≤ LapWindow.lap_start_time w)%Z.
Proof.
  split.
  - eapply StronglySorted_sublist; [apply assigned_rows_sublist|].
    apply sort_values_StronglySorted; apply _.
  - intros row w Hin w' Hw' Hc'. by eapply assigned_window_nearest.
Qed.

End assign_laps_complete.

Section assign_laps_examples.
Import pandas feature_engineering lap_design window_design lap_samples.


End assign_laps_examples.

(** ** From the lap tables to the lap of a telemetry row *)

Section lap_pipeline.
Import pandas feature_engineering lap_design window_design lap_samples.
Context {P : Type}.
Implicit Types (row : Telemetry.t P) (w : LapWindow.t).







End lap_pipeline.

Section lap_pipeline_examples.
Import pandas feature_engineering lap_design window_design lap_samples.


End lap_pipeline_examples.

(** ** Per-lap aggregation: errors, order, counts and labels *)

Section per_lap_table.
Import pandas feature_engineering config per_lap_facts lap_samples.

Lemma required_present (columns : list string) :
  filter (λ col, col ∉ columns) ["lap"; "vehicle_id"] = [] ↔
  "lap" ∈ columns ∧ "vehicle_id" ∈ columns.
Proof.
  destruct (decide ("lap" ∈ columns)) as [Hl|Hl];
    destruct (decide ("vehicle_id" ∈ columns)) as [Hv|Hv].
  - rewrite !filter_cons_False, filter_nil by (by intros Hmissing). tauto.
  - rewrite filter_cons_False, filter_cons_True by (done || by intros Hmissing).
    split; [done|tauto].
  - rewrite filter_cons_True by done. split; [done|tauto].
  - rewrite filter_cons_True by done. split; [done|tauto].
Qed.

(** The table [aggregate_per_lap] returns when its checks pass. *)
Lemma aggregate_per_lap_table telemetry_with_laps :
  let columns := Wide.columns telemetry_with_laps in
  let rows := Wide.rows telemetry_with_laps in
  "lap" ∈ columns → "vehicle_id" ∈ columns → configured columns ≠ [] →
  ∃ row_of : string * Z → PerLap.t,
    aggregate_per_lap telemetry_with_laps
    = Aggregated
        {| PerLap.columns :=
             ["vehicle_id"; "lap"]
             ++ ('(col, stats) ← agg_dict columns;
                 (λ stat, col +:+ "_" +:+ stat_name stat) <$> stats)
             ++ ["samples_per_lap"] ++ available_meta columns;
           PerLap.rows := row_of <$> group_keys rows |} ∧
    ∀ k, PerLap.key (row_of k) = k ∧
         PerLap.samples_per_lap (row_of k) = Some (length (group rows k)) ∧
         PerLap.aggregates (row_of k) = agg_columns (agg_dict columns) (group rows k).
Proof.
  intros columns rows Hlap Hvehicle Hconf. unfold aggregate_per_lap.
  fold columns rows.
  rewrite (proj2 (required_present columns)) by done.
  unfold agg_dict, available_meta, configured in *.
  destruct (filter _ TELEMETRY_AGGREGATIONS) as [|spec0 specs]; [done|].
  rewrite fmap_cons. cbv beta iota zeta.
  set (agg := (AggregationSpec.column spec0, _) :: _).
  pose proof (group_keys_NoDup rows) as Hnodup.
  assert (Forall (λ k, k ∈ group_keys rows) (group_keys rows)) as Hall
    by (by apply Forall_forall).
  rewrite (merge_left_one_to_one fst fst
             (λ k, (k, agg_columns agg (group rows k)))
             (λ k, (k, length (group rows k)))) by done.
  destruct (filter _ ["lap_start_time"; "lap_end_time"; "lap_duration_s"])
    as [|c meta].
  - rewrite <-!list_fmap_compose. eexists. split; [done|]. by intros [v n].
  - set (available := c :: meta).
    rewrite (merge_left_one_to_one (fst ∘ fst) fst
               (λ k, ((k, agg_columns agg (group rows k)),
                      Some (k, length (group rows k))))
               (λ k, (k, meta_of available (group rows k)))) by done.
    rewrite <-!list_fmap_compose. eexists. split; [done|]. by intros [v n].
Qed.

Lemma elem_of_configured (columns : list string) spec :
  spec ∈ configured columns ↔
  spec ∈ TELEMETRY_AGGREGATIONS ∧ AggregationSpec.column spec ∈ columns.
Proof. unfold configured. rewrite list_elem_of_filter. tauto. Qed.

Lemma configured_nil (columns : list string) :
  configured columns = [] ↔
  ∀ spec, spec ∈ TELEMETRY_AGGREGATIONS → AggregationSpec.column spec ∉ columns.
Proof.
  split.
  - intros Hnil spec Hspec Hcol.
    assert (spec ∈ configured columns) as Hin by (by apply elem_of_configured).
    rewrite Hnil in Hin. by apply elem_of_nil in Hin.
  - intros Hall. apply filter_none. intros spec Hspec. by apply Hall.
Qed.

(** X14: which of its three outcomes [aggregate_per_lap] takes depends on
    the column labels alone: it raises for the missing ones of [lap] and
    [vehicle_id]; with both present it raises when no configured signal
    is a column; otherwise it returns a table. *)
Theorem aggregate_per_lap_outcome telemetry_with_laps :
  let columns := Wide.columns telemetry_with_laps in
  match aggregate_per_lap telemetry_with_laps with
  | MissingColumns missing =>
      missing ≠ [] ∧
      ∀ c, c ∈ missing ↔ c ∈ ["lap"; "vehicle_id"] ∧ c ∉ columns
  | NoConfiguredColumn =>
      "lap" ∈ columns ∧ "vehicle_id" ∈ columns ∧
      ∀ spec, spec ∈ TELEMETRY_AGGREGATIONS →
        AggregationSpec.column spec ∉ columns
  | Aggregated per_lap =>
      "lap" ∈ columns ∧ "vehicle_id" ∈ columns ∧
      ∃ spec, spec ∈ TELEMETRY_AGGREGATIONS ∧
              AggregationSpec.column spec ∈ columns
  end.
Proof.
  intros columns.
  destruct (filter (λ col, col ∉ columns) ["lap"; "vehicle_id"])
    as [|m missing] eqn:Emiss.
  - apply required_present in Emiss as [Hlap Hvehicle].
    destruct (configured columns) as [|spec specs] eqn:Econf.
    + unfold aggregate_per_lap. fold columns.
      rewrite (proj2 (required_present columns)) by done.
      fold (configured columns). rewrite Econf. simpl.
      split_and!; [done..|]. by apply configured_nil.
    + destruct (aggregate_per_lap_table telemetry_with_laps)
        as (row_of & -> & _); [done|done|by fold columns; rewrite Econf|].
      split_and!; [done..|].
      exists spec. apply elem_of_configured. rewrite Econf. left.
  - unfold aggregate_per_lap. fold columns. rewrite Emiss. cbv beta iota.
    split; [done|]. intros c. rewrite <-Emiss, list_elem_of_filter. tauto.
Qed.

Lemma aggregated_inv telemetry_with_laps per_lap :
  aggregate_per_lap telemetry_with_laps = Aggregated per_lap →
  "lap" ∈ Wide.columns telemetry_with_laps ∧
  "vehicle_id" ∈ Wide.columns telemetry_with_laps ∧
  configured (Wide.columns telemetry_with_laps) ≠ [].
Proof.
  unfold aggregate_per_lap.
  destruct (filter _ ["lap"; "vehicle_id"]) as [|m missing] eqn:Emiss; [|done].
  apply required_present in Emiss as [Hlap Hvehicle].
  fold (configured (Wide.columns telemetry_with_laps)).
  destruct (configured _); [done|]. done.
Qed.

Lemma group_sizes keys rows :
  NoDup keys → (∀ r, r ∈ rows → Wide.key r ∈ keys) →
  sum_list ((λ k, length (group rows k)) <$> keys) = length rows.
Proof.
  revert rows. induction keys as [|k keys IH]; intros rows Hnodup Hkeys.
  - destruct rows as [|r rows]; [done|].
    assert (Wide.key r ∈ []) as Hin by (apply Hkeys; left).
    by apply elem_of_nil in Hin.
  - apply NoDup_cons in Hnodup as [Hk Hnodup]. rewrite fmap_cons. simpl.
    set (others := filter (λ r, Wide.key r ≠ k) rows).
    assert ((λ k', length (group rows k')) <$> keys
            = (λ k', length (group others k')) <$> keys) as ->.
    { apply list_fmap_ext. intros _ k' Hk'%list_elem_of_lookup_2.
      unfold group, others. rewrite list_filter_filter. f_equal.
      apply list_filter_iff. intros r. split; [|tauto].
      intros ->. split; [done|]. by intros ->. }
    rewrite IH; [|done|].
    + rewrite <-(Permutation_length
                  (filter_app_complement (λ r, Wide.key r = k) rows)).
      by rewrite length_app.
    + intros r [Hne Hr]%list_elem_of_filter.
      specialize (Hkeys r Hr). apply elem_of_cons in Hkeys as [?|?]; done.
Qed.

(** X15: the table [aggregate_per_lap] returns is in (vehicle, lap)
    order, whatever the order of the telemetry rows, and no telemetry row
    is lost or counted twice: the sample counts of its rows add up to the
    number of telemetry rows (rows of [Wide.t], which all have a vehicle
    and a lap). *)
Theorem aggregate_per_lap_counts telemetry_with_laps per_lap :
  aggregate_per_lap telemetry_with_laps = Aggregated per_lap →
  StronglySorted key_le (PerLap.key <$> PerLap.rows per_lap) ∧
  sum_list (omap PerLap.samples_per_lap (PerLap.rows per_lap))
  = length (Wide.rows telemetry_with_laps).
Proof.
  intros Hagg.
  destruct (aggregated_inv _ _ Hagg) as (Hlap & Hvehicle & Hconf).
  destruct (aggregate_per_lap_table telemetry_with_laps Hlap Hvehicle Hconf)
    as (row_of & Htable & Hrow).
  rewrite Htable in Hagg. injection Hagg as <-. clear Htable. simpl.
  set (rows := Wide.rows telemetry_with_laps) in *. split.
  - rewrite <-list_fmap_compose.
    assert (PerLap.key ∘ row_of <$> group_keys rows = group_keys rows) as ->.
    { transitivity (id <$> group_keys rows); [|apply list_fmap_id].
      apply list_fmap_ext. intros _ k _. apply Hrow. }
    unfold group_keys, drop_duplicates_first.
    eapply StronglySorted_sublist; [apply keep_first_sublist|].
    apply sort_values_StronglySorted; apply _.
  - assert (omap PerLap.samples_per_lap (row_of <$> group_keys rows)
            = (λ k, length (group rows k)) <$> group_keys rows) as ->.
    { induction (group_keys rows) as [|k keys IH]; [done|].
      rewrite !fmap_cons, <-IH. cbn [omap list_omap].
      by destruct (Hrow k) as (_ & -> & _). }
    apply group_sizes; [apply group_keys_NoDup|].
    intros r Hr. apply elem_of_group_keys. by apply list_elem_of_fmap_2.
Qed.

Lemma aggregate_per_lap_counts_witness :
  ∃ per_lap,
    aggregate_per_lap three_rows = Aggregated per_lap ∧
    PerLap.key <$> PerLap.rows per_lap = [("V1", 1%Z); ("V1", 2%Z)] ∧
    sum_list (omap PerLap.samples_per_lap (PerLap.rows per_lap)) = 3.
Proof.
  eexists. split; [vm_compute; reflexivity|]. split; [vm_compute; reflexivity|].
  apply (aggregate_per_lap_counts three_rows). vm_compute; reflexivity.
Defined.

Lemma agg_dict_labels (columns : list string) :
  ('(col, stats) ← agg_dict columns;
   (λ stat, col +:+ "_" +:+ stat_name stat) <$> stats)
  = configured columns ≫= λ spec, output_columns spec None.
Proof.
  unfold agg_dict. rewrite list_fmap_bind. apply list_bind_ext; [|done].
  intros spec. unfold output_columns. simpl. apply list_fmap_ext.
  intros _ stat _. by rewrite lookup_empty.
Qed.

Lemma agg_columns_labels agg g :
  (agg_columns agg g).*1
  = '(col, stats) ← agg; (λ stat, col +:+ "_" +:+ stat_name stat) <$> stats.
Proof.
  unfold agg_columns. induction agg as [|[col stats] agg IH]; [done|].
  rewrite !bind_cons, fmap_app, IH. f_equal.
  rewrite <-list_fmap_compose. by apply list_fmap_ext.
Qed.

(** X16: the aggregate columns of the per-lap table are labelled as
    [AggregationSpec.output_columns] labels them, spec by spec in the
    order of [TELEMETRY_AGGREGATIONS], for the specs whose signal is a
    telemetry column; they stand between the two key columns and
    [samples_per_lap], before the lap metadata that is present; and every
    row has one aggregate cell per such label, in this order. *)
Theorem aggregate_per_lap_labels telemetry_with_laps per_lap :
  aggregate_per_lap telemetry_with_laps = Aggregated per_lap →
  let columns := Wide.columns telemetry_with_laps in
  let labels := configured columns ≫= λ spec, output_columns spec None in
  PerLap.columns per_lap
  = ["vehicle_id"; "lap"] ++ labels ++ ["samples_per_lap"]
    ++ available_meta columns ∧
  ∀ r, r ∈ PerLap.rows per_lap → (PerLap.aggregates r).*1 = labels.
Proof.
  intros Hagg columns labels.
  destruct (aggregated_inv _ _ Hagg) as (Hlap & Hvehicle & Hconf).
  destruct (aggregate_per_lap_table telemetry_with_laps Hlap Hvehicle Hconf)
    as (row_of & Htable & Hrow).
  rewrite Htable in Hagg. injection Hagg as <-. clear Htable. simpl.
  fold columns. rewrite agg_dict_labels. split; [done|].
  intros r (k & -> & _)%list_elem_of_fmap.
  destruct (Hrow k) as (_ & _ & ->).
  by rewrite agg_columns_labels, agg_dict_labels.
Qed.

Lemma aggregate_per_lap_labels_witness :
  ∃ per_lap,
    aggregate_per_lap three_rows = Aggregated per_lap ∧
    PerLap.columns per_lap
    = ["vehicle_id"; "lap"]
      ++ ["speed_mean"; "speed_max"; "gear_mean"; "gear_max"]
      ++ ["samples_per_lap"] ++ ["lap_start_time"].
Proof.
  eexists. split; [vm_compute; reflexivity|].
  apply (aggregate_per_lap_labels three_rows). vm_compute; reflexivity.
Defined.

End per_lap_table.

(** ** From the per-lap table to the risk engine *)

Section per_lap_to_risk.
Import pandas feature_engineering config per_lap_facts lap_samples.
Import karma_stream.

Lemma required_features c :
  c ∈ required_cols COMPONENT_SPECS ↔ c ∈ risk_features.*2.
Proof.
  rewrite <-elem_of_elements.
  assert (elements (required_cols COMPONENT_SPECS)
          = ["gear_mean"; "speed_mean"; "Steering_Angle_std"; "accx_can_std";
             "nmot_mean"; "pbrake_f_max"; "pbrake_r_max"]) as ->
    by (vm_compute; reflexivity).
  split; intros Hc; simpl in Hc; list_cases Hc; simpl; repeat constructor.
Qed.

Lemma compute_stream_returns df smoothing wear_rate :
  karma_stream.empty df = false →
  (∃ out, compute_stream df smoothing wear_rate = Returned out) ↔
  ∀ c, c ∈ required_cols COMPONENT_SPECS → c ∈ karma_stream.columns df.
Proof.
  intros Hempty. unfold compute_stream. rewrite Hempty.
  pose proof (elem_of_missing df) as Hmiss.
  remember (required_cols COMPONENT_SPECS) as required eqn:Hreq. clear Hreq.
  destruct (filter _ _) as [|m missing]; split.
  - intros _ c Hc. destruct (decide (c ∈ karma_stream.columns df)); [done|].
    assert (c ∈ []) as Hin by (by apply Hmiss). by apply elem_of_nil in Hin.
  - intros _. by eexists.
  - by intros [out Hout].
  - intros Hall. destruct (Hmiss m) as [Hm _].
    destruct Hm as [Hm Habs]; [left|]. destruct Habs. by apply Hall.
Qed.

Lemma elem_of_labels (columns : list string) label :
  label ∈ (configured columns ≫= λ spec, output_columns spec None) ↔
  ∃ spec, spec ∈ TELEMETRY_AGGREGATIONS ∧
    AggregationSpec.column spec ∈ columns ∧ label ∈ output_columns spec None.
Proof.
  rewrite list_elem_of_bind. split.
  - intros (spec & Hlabel & [Hspec Hcol]%elem_of_configured). by exists spec.
  - intros (spec & Hspec & Hcol & Hlabel). exists spec.
    split; [done|]. by apply elem_of_configured.
Qed.

Lemma feature_of_signal (columns : list string) signal feature :
  (signal, feature) ∈ risk_features →
  feature ∈ (configured columns ≫= λ spec, output_columns spec None) ↔
  signal ∈ columns.
Proof.
  intros Hpair. rewrite elem_of_labels. split.
  - intros (spec & Hspec & Hcol & Hlabel).
    unfold risk_features in Hpair. unfold TELEMETRY_AGGREGATIONS in Hspec.
    repeat (apply elem_of_cons in Hpair as [[= -> ->]|Hpair]);
      try (by apply elem_of_nil in Hpair);
      list_cases Hspec; unfold output_columns in Hlabel; simpl in Hlabel;
      repeat (apply elem_of_cons in Hlabel as [Heq|Hlabel];
              [try discriminate Heq|]);
      try (by apply elem_of_nil in Hlabel); exact Hcol.
  - intros Hsignal. unfold risk_features in Hpair.
    repeat (apply elem_of_cons in Hpair as [[= -> ->]|Hpair]);
      try (by apply elem_of_nil in Hpair);
      (eexists {| AggregationSpec.column := _; AggregationSpec.stats := _ |};
       split; [unfold TELEMETRY_AGGREGATIONS; repeat constructor|];
       split; [exact Hsignal|]; unfold output_columns; simpl; repeat constructor).
Qed.

Lemma elem_of_with_dnf_flag (columns : list string) c :
  c ∈ with_dnf_flag columns ↔ c ∈ columns ∨ c = "dnf_flag".
Proof.
  unfold with_dnf_flag. case_decide as Hflag.
  - split; [by left|]. by intros [?| ->].
  - rewrite elem_of_app, list_elem_of_singleton. tauto.
Qed.

Lemma elem_of_available_meta (columns : list string) c :
  c ∈ available_meta columns →
  c ∈ ["lap_start_time"; "lap_end_time"; "lap_duration_s"].
Proof. by intros [_ ?]%list_elem_of_filter. Qed.

(** X17: [aggregate_per_lap] followed by [compute_stream], as in the
    upload handler of [api.py]: on the per-lap table (with the [dnf_flag]
    column the handler adds), a table with rows, [compute_stream] passes
    its column check and returns exactly when the telemetry had all seven
    signals the risk features are aggregated from; if one is missing it
    raises. *)
Theorem per_lap_table_feeds_risk_engine
    telemetry_with_laps per_lap df smoothing wear_rate :
  aggregate_per_lap telemetry_with_laps = Aggregated per_lap →
  karma_stream.columns df = with_dnf_flag (PerLap.columns per_lap) →
  karma_stream.empty df = false →
  (∃ out, compute_stream df smoothing wear_rate = Returned out) ↔
  ∀ signal, signal ∈ risk_signals → signal ∈ Wide.columns telemetry_with_laps.
Proof.
  intros Hagg Hcolumns Hempty.
  rewrite (compute_stream_returns _ _ _ Hempty), Hcolumns.
  destruct (aggregated_inv _ _ Hagg) as (Hlap & Hvehicle & Hconf).
  destruct (aggregate_per_lap_table telemetry_with_laps Hlap Hvehicle Hconf)
    as (row_of & Htable & _).
  rewrite Htable in Hagg. injection Hagg as <-. clear Htable. simpl.
  rewrite agg_dict_labels.
  set (columns := Wide.columns telemetry_with_laps).
  assert (∀ signal feature, (signal, feature) ∈ risk_features →
            feature ∈ with_dnf_flag
                        ("vehicle_id" :: "lap"
                         :: (configured columns ≫= λ spec, output_columns spec None)
                         ++ "samples_per_lap" :: available_meta columns)
            ↔ signal ∈ columns) as Hfeature.
  { intros signal feature Hpair.
    rewrite <-(feature_of_signal columns signal feature Hpair).
    rewrite elem_of_with_dnf_flag, !elem_of_cons, elem_of_app, elem_of_cons.
    split; [|tauto].
    unfold risk_features in Hpair.
    repeat (apply elem_of_cons in Hpair as [[= -> ->]|Hpair]);
      try (by apply elem_of_nil in Hpair);
      (intros [[?|[?|[?|[?|Hmeta]]]]|?]; try done;
       apply elem_of_available_meta in Hmeta;
       repeat (apply elem_of_cons in Hmeta as [Heq|Hmeta]; [discriminate Heq|]);
       by apply elem_of_nil in Hmeta). }
  split.
  - intros Hall signal (pair & -> & Hpair)%list_elem_of_fmap.
    destruct pair as [signal feature]. simpl.
    apply (Hfeature signal feature Hpair), Hall, required_features.
    by apply (list_elem_of_fmap_2 snd) in Hpair.
  - intros Hall c (pair & -> & Hpair)%required_features%list_elem_of_fmap.
    destruct pair as [signal feature]. simpl.
    apply (Hfeature signal feature Hpair), Hall.
    by apply (list_elem_of_fmap_2 fst) in Hpair.
Qed.

Lemma per_lap_table_feeds_risk_engine_witness :
  ∃ out, compute_stream per_lap_samples.per_lap_features (6 # 10) (2 # 1000)
         = Returned out.
Proof.
  destruct (aggregate_per_lap per_lap_samples.seven_signals)
    as [per_lap| |] eqn:Hagg; [|discriminate Hagg..].
  apply (per_lap_table_feeds_risk_engine
           per_lap_samples.seven_signals per_lap _ _ _ Hagg).
  - injection Hagg as <-. vm_compute; reflexivity.
  - vm_compute; reflexivity.
  - intros signal Hsignal. unfold risk_signals in Hsignal. simpl in Hsignal.
    list_cases Hsignal; simpl; repeat constructor.
Defined.

End per_lap_to_risk.

(** ** Signal pivot: the columns that are kept and read *)

Section pivot_source.
Import pandas feature_engineering lap_samples.

Lemma loc_not_same_length {A B} mask (l : list A) (columns : list B) :
  length l = length columns →
  length (loc_not mask l) = length (loc_not mask columns).
Proof.
  revert l columns. induction mask as [|m mask IH]; intros l columns; [done|].
  destruct l as [|x l], columns as [|c columns]; try done.
  intros [= Hlen]. specialize (IH l columns Hlen). destruct m; simpl; lia.
Qed.

(** The first column with a label is kept, and keeps its cells. *)
Lemma loc_not_first {A} seen columns c i :
  c ∉ seen → list_find (λ x, x = c) columns = Some (i, c) →
  ∃ j, list_find (λ x, x = c) (loc_not (duplicated seen columns) columns)
       = Some (j, c) ∧
    ∀ row : list A, loc_not (duplicated seen columns) row !! j = row !! i.
Proof.
  revert seen i. induction columns as [|x columns IH]; intros seen i Hseen; [done|].
  simpl. case_decide as Hx.
  - subst x. intros [= <-]. rewrite bool_decide_eq_false_2 by done.
    exists 0. simpl. rewrite decide_True by done. split; [done|].
    by intros [|y row].
  - destruct (list_find _ columns) as [[i' c']|] eqn:Hfind; [|done].
    simpl. intros [= <- ->].
    destruct (IH (x :: seen) i') as (j & Hj & Hrow); [|done|].
    { rewrite not_elem_of_cons. split; [congruence|done]. }
    case_bool_decide.
    + exists j. split; [done|]. intros [|y row]; [done|apply Hrow].
    + exists (S j). simpl. rewrite decide_False by done. rewrite Hj.
      split; [done|]. intros [|y row]; [done|apply Hrow].
Qed.

(** X18: [~columns.duplicated()] keeps, of the columns that share a
    label, the first one: the labels left are distinct and are the
    labels of the table, every row stays (rows of a rectangular table
    stay as long as the column list), and under each label a row keeps
    the cell it had in the first column with that label. *)
Theorem duplicated_columns_keep_first table :
  let kept := drop_duplicated_columns table in
  NoDup (Table.columns kept) ∧
  (∀ c, c ∈ Table.columns kept ↔ c ∈ Table.columns table) ∧
  (Table.rectangular table → Table.rectangular kept) ∧
  ∀ c i, list_find (λ x, x = c) (Table.columns table) = Some (i, c) →
    ∃ j, list_find (λ x, x = c) (Table.columns kept) = Some (j, c) ∧
      ∀ k row, Table.rows table !! k = Some row →
        ∃ row', Table.rows kept !! k = Some row' ∧ row' !! j = row !! i.
Proof.
  intros kept. split_and!.
  - apply loc_not_duplicated_NoDup.
  - apply drop_duplicated_columns_labels.
  - unfold Table.rectangular, kept. simpl. intros Hrect.
    apply Forall_fmap. eapply Forall_impl; [exact Hrect|].
    intros row Hrow. simpl. by apply loc_not_same_length.
  - intros c i Hfind.
    destruct (loc_not_first (A := Table.cell) [] (Table.columns table) c i)
      as (j & Hj & Hrow); [apply not_elem_of_nil|done|].
    exists j. split; [done|]. intros k row Hk. unfold kept. simpl.
    rewrite list_lookup_fmap, Hk. simpl. eexists. split; [done|]. apply Hrow.
Qed.

Lemma duplicated_columns_keep_first_witness :
  Table.rows (drop_duplicated_columns repeated_label)
  = [[Table.Str "V1"; Table.Num 100; Table.Int 1]] ∧
  ∃ j, list_find (λ x, x = "speed")
         (Table.columns (drop_duplicated_columns repeated_label))
       = Some (j, "speed") ∧
    ∀ k row, Table.rows repeated_label !! k = Some row →
      ∃ row', Table.rows (drop_duplicated_columns repeated_label) !! k = Some row' ∧
        row' !! j = row !! 1.
Proof.
  split; [vm_compute; reflexivity|].
  apply (duplicated_columns_keep_first repeated_label). vm_compute; reflexivity.
Defined.

(** X19: when the five long-format columns are labels of the table,
    [pivot_telemetry_signals] pivots, whether or not labels repeat; the
    table it hands to [pivot_table] has the index columns, the lap
    metadata columns the table has, and the two signal columns, in this
    order, one row per telemetry row, and each cell is the one the row
    had in the first column with that label. *)
Theorem pivot_source_shape table signal_name_col signal_value_col :
  long_format_columns signal_name_col signal_value_col ⊆ Table.columns table →
  ∃ pivot_source meta_cols,
    pivot_telemetry_signals table signal_name_col signal_value_col
    = PivotTable pivot_source [DEFAULT_VEHICLE_COL; "lap"; DEFAULT_TIMESTAMP_COL]
        meta_cols signal_name_col signal_value_col ∧
    meta_cols = filter (λ col, col ∈ Table.columns table)
                  ["lap_start_time"; "lap_end_time"; "lap_duration_s"] ∧
    Table.columns pivot_source
    = [DEFAULT_VEHICLE_COL; "lap"; DEFAULT_TIMESTAMP_COL] ++ meta_cols
      ++ [signal_name_col; signal_value_col] ∧
    Table.rectangular pivot_source ∧
    ∀ k row, Table.rows table !! k = Some row →
      ∃ row', Table.rows pivot_source !! k = Some row' ∧
        ∀ p label i, Table.columns pivot_source !! p = Some label →
          list_find (λ x, x = label) (Table.columns table) = Some (i, label) →
          row' !! p = Some (default Table.NaN (row !! i)).
Proof.
  intros Hlong. unfold pivot_telemetry_signals.
  rewrite decide_True
    by (intros c Hc; by apply drop_duplicated_columns_labels, Hlong).
  eexists _, _. split; [done|]. split.
  { apply list_filter_iff. intros c. apply drop_duplicated_columns_labels. }
  split; [done|]. split.
  { unfold Table.rectangular, select_columns. simpl.
    apply Forall_fmap, Forall_forall. intros row _. simpl.
    by rewrite length_fmap. }
  intros k row Hk.
  assert (Table.rows (drop_duplicated_columns table) !! k
          = Some (loc_not (duplicated [] (Table.columns table)) row)) as Hk'.
  { unfold drop_duplicated_columns. simpl. by rewrite list_lookup_fmap, Hk. }
  unfold select_columns. cbn [Table.rows Table.columns].
  rewrite list_lookup_fmap, Hk'. cbn [fmap option_fmap option_map].
  eexists. split; [reflexivity|]. cbv beta.
  intros p label i Hp Hfind. rewrite list_lookup_fmap, Hp.
  cbn [fmap option_fmap option_map]. f_equal.
  destruct (loc_not_first (A := Table.cell) [] (Table.columns table) label i)
    as (j & Hj & Hrow); [apply not_elem_of_nil|done|].
  unfold drop_duplicated_columns. cbn [Table.columns].
  rewrite Hj. by rewrite Hrow.
Qed.

Lemma pivot_source_shape_witness :
  ∃ pivot_source meta_cols,
    pivot_telemetry_signals pivot_samples.long_table
      "telemetry_name" "telemetry_value"
    = PivotTable pivot_source ["vehicle_id"; "lap"; "meta_time"] meta_cols
        "telemetry_name" "telemetry_value" ∧
    meta_cols = ["lap_end_time"] ∧
    Table.rows pivot_source
    = [[Table.Str "V1"; Table.Int 1; Table.Int 10; Table.Int 25;
        Table.Str "speed"; Table.Num 100];
       [Table.Str "V1"; Table.Int 1; Table.Int 10; Table.Int 25;
        Table.Str "gear"; Table.Num 3]].
Proof.
  destruct (pivot_source_shape pivot_samples.long_table
              "telemetry_name" "telemetry_value")
    as (pivot_source & meta_cols & Hpivot & Hmeta & _).
  { intros c Hc. unfold long_format_columns in Hc.
    list_cases Hc; apply (bool_decide_unpack _); vm_compute; exact I. }
  exists pivot_source, meta_cols. split; [done|]. split.
  - rewrite Hmeta. vm_compute; reflexivity.
  - assert (PivotTable pivot_source ["vehicle_id"; "lap"; "meta_time"] meta_cols
              "telemetry_name" "telemetry_value"
            = pivot_telemetry_signals pivot_samples.long_table
                "telemetry_name" "telemetry_value") as Heq by done.
    vm_compute in Heq. by injection Heq as -> _.
Defined.

End pivot_source.

(** ** Race results: the label of a lap *)

Section results_facts.
Import pandas feature_engineering utils race_results.
Context {L R K : Type} `{EqDecision K}.

Lemma elem_of_merge_left (left_key : L → K) (right_key : R → K) left right l o :
  (l, o) ∈ merge_left left_key right_key left right ↔
  l ∈ left ∧
  match o with
  | Some r => r ∈ right ∧ right_key r = left_key l
  | None => ∀ r, r ∈ right → right_key r ≠ left_key l
  end.
Proof.
  unfold merge_left. rewrite list_elem_of_bind. split.
  - intros (l' & Hin & Hl').
    destruct (filter _ right) as [|r0 rs] eqn:Efilter.
    + apply list_elem_of_singleton in Hin as [= -> ->]. split; [done|].
      intros r Hr Hkey.
      assert (r ∈ filter (λ r, right_key r = left_key l') right) as Hfiltered
        by (by apply list_elem_of_filter).
      rewrite Efilter in Hfiltered. by apply elem_of_nil in Hfiltered.
    + apply list_elem_of_fmap in Hin as (r & [= -> ->] & Hr).
      rewrite <-Efilter in Hr. apply list_elem_of_filter in Hr as [Hkey Hr].
      done.
  - intros [Hl Ho]. exists l. split; [|done]. destruct o as [r|].
    + destruct Ho as [Hr Hkey].
      assert (r ∈ filter (λ r, right_key r = left_key l) right) as Hfiltered
        by (by apply list_elem_of_filter).
      destruct (filter _ right) as [|r0 rs]; [by apply elem_of_nil in Hfiltered|].
      apply list_elem_of_fmap. by exists r.
    + rewrite filter_none by done. by apply list_elem_of_singleton.
Qed.

Lemma filter_key_NoDup (right_key : R → K) right k :
  NoDup (right_key <$> right) →
  filter (λ r, right_key r = k) right = [] ∨
  ∃ r, filter (λ r, right_key r = k) right = [r].
Proof.
  induction right as [|r right IH]; intros Hnodup; [by left|].
  rewrite fmap_cons in Hnodup. apply NoDup_cons in Hnodup as [Hr Hnodup].
  destruct (decide (right_key r = k)) as [Hk|Hk].
  - right. exists r. rewrite filter_cons_True by done. f_equal.
    apply filter_none. intros r' Hr' Hk'. apply Hr.
    rewrite Hk, <-Hk'. by apply list_elem_of_fmap_2.
  - rewrite filter_cons_False by done. by apply IH.
Qed.

Lemma merge_left_unique_right (left_key : L → K) (right_key : R → K) left right :
  NoDup (right_key <$> right) →
  (merge_left left_key right_key left right).*1 = left.
Proof.
  intros Hnodup. unfold merge_left.
  induction left as [|l left IH]; [done|].
  rewrite bind_cons, fmap_app, IH.
  by destruct (filter_key_NoDup right_key right (left_key l) Hnodup)
    as [->|[r ->]].
Qed.

End results_facts.

Section merge_with_results_facts.
Import pandas feature_engineering utils race_results.
Context {L R : Type} (vehicle_id : L → string).

(** X20: when the results table has its two columns, [merge_with_results]
    returns; its rows are the per-lap rows, each with every results row
    of its vehicle, or once without any; [dnf_flag] is 1 on the rows
    merged to a result whose status is DNF and 0 on all others, also on
    the laps of a vehicle without a results row; and when no vehicle has
    two results rows, the per-lap rows come out one for one, in order. *)
Theorem merge_with_results_labels per_lap (results : Result.frame R) :
  "vehicle_id" ∈ Result.columns results →
  STATUS_COLUMN ∈ Result.columns results →
  ∃ merged,
    merge_with_results vehicle_id per_lap results = Labelled merged ∧
    (∀ l o flag, (l, o, flag) ∈ merged ↔
       l ∈ per_lap ∧ flag = dnf_flag (o ≫= Result.STATUS) ∧
       match o with
       | Some r => r ∈ Result.rows results ∧ Result.vehicle_id r = vehicle_id l
       | None => vehicle_id l ∉ Result.vehicle_id <$> Result.rows results
       end) ∧
    (∀ l o flag, (l, o, flag) ∈ merged →
       (flag = 1%Z ∧ ∃ r, o = Some r ∧ Result.STATUS r = Some "DNF") ∨
       (flag = 0%Z ∧ ∀ r, o = Some r → Result.STATUS r ≠ Some "DNF")) ∧
    (NoDup (Result.vehicle_id <$> Result.rows results) →
     merged.*1.*1 = per_lap).
Proof.
  intros Hvehicle Hstatus. unfold merge_with_results.
  rewrite (proj2 (ensure_columns_passed _ _)).
  2:{ intros c Hc. list_cases Hc; done. }
  eexists. split; [done|].
  assert (∀ l o flag,
            (l, o, flag)
            ∈ (λ m, (m, dnf_flag (m.2 ≫= Result.STATUS)))
              <$> merge_left vehicle_id Result.vehicle_id per_lap
                    (Result.rows results)
            ↔ (l, o) ∈ merge_left vehicle_id Result.vehicle_id per_lap
                         (Result.rows results)
              ∧ flag = dnf_flag (o ≫= Result.STATUS)) as Hmerged.
  { intros l o flag. rewrite list_elem_of_fmap. split.
    - by intros ([l' o'] & [= -> -> ->] & Hin).
    - intros [Hin ->]. by exists (l, o). }
  split_and!.
  - intros l o flag. rewrite Hmerged, elem_of_merge_left.
    destruct o as [r|]; [tauto|].
    rewrite list_elem_of_fmap. split.
    + intros ((Hl & Hnone) & Hflag). split_and!; [done..|].
      intros (r & Hkey & Hr). by apply (Hnone r).
    + intros (Hl & Hflag & Hnone). split_and!; [done| |done].
      intros r Hr Hkey. apply Hnone. by exists r.
  - intros l o flag [_ ->]%Hmerged. unfold dnf_flag.
    destruct o as [r|]; simpl.
    + case_decide as Hdnf.
      * left. split; [done|]. exists r. done.
      * right. split; [done|]. by intros r' [= <-].
    + right. split; [done|]. by intros r.
  - intros Hnodup.
    transitivity (merge_left vehicle_id Result.vehicle_id per_lap
                    (Result.rows results)).*1;
      [|by apply merge_left_unique_right].
    f_equal. rewrite <-list_fmap_compose.
    transitivity (id <$> merge_left vehicle_id Result.vehicle_id per_lap
                           (Result.rows results));
      [by apply list_fmap_ext|apply list_fmap_id].
Qed.

End merge_with_results_facts.

Section merge_with_results_examples.
Import pandas feature_engineering utils race_results results_samples.

Lemma merge_with_results_labels_witness :
  ∃ merged,
    merge_with_results id laps results = Labelled merged ∧
    merged.*1.*1 = laps ∧ merged.*2 = [1%Z; 0%Z; 1%Z; 0%Z].
Proof.
  destruct (merge_with_results_labels id laps results)
    as (merged & Hmerged & _ & _ & Hrows).
  - apply (bool_decide_unpack _); vm_compute; exact I.
  - apply (bool_decide_unpack _); vm_compute; exact I.
  - exists merged. split; [done|]. split.
    + apply Hrows. apply (bool_decide_unpack _); vm_compute; exact I.
    + assert (Labelled merged = merge_with_results id laps results) as Heq by done.
      vm_compute in Heq. by injection Heq as ->.
Defined.

End merge_with_results_examples.

(** ** Weather: the time column *)

Section weather_facts.
Import pandas feature_engineering config per_lap_facts utils weather.

Lemma no_timestamp_label (columns : list string) :
  "timestamp" ∉ configured columns ≫= λ spec, output_columns spec None.
Proof.
  rewrite elem_of_labels. intros (spec & Hspec & _ & Hlabel).
  unfold TELEMETRY_AGGREGATIONS in Hspec.
  list_cases Hspec; unfold output_columns in Hlabel; simpl in Hlabel;
    repeat (apply elem_of_cons in Hlabel as [Heq|Hlabel]; [discriminate Heq|]);
    by apply elem_of_nil in Hlabel.
Qed.

(** X21: the per-lap table [aggregate_per_lap] returns has no
    [timestamp] column, so [merge_weather] with its default time column
    never merges it with a weather table: past the check of the weather
    table, the sort in the call of [merge_asof], which the guard two
    lines above does not protect, raises [KeyError]. *)
Theorem merge_weather_after_aggregation
    telemetry_with_laps per_lap weather_columns :
  aggregate_per_lap telemetry_with_laps = Aggregated per_lap →
  merge_weather (PerLap.columns per_lap) weather_columns "timestamp"
  = if decide ("timestamp" ∈ weather_columns) then KeyError "timestamp"
    else WeatherMissing ["timestamp"].
Proof.
  intros Hagg.
  destruct (aggregated_inv _ _ Hagg) as (Hlap & Hvehicle & Hconf).
  destruct (aggregate_per_lap_table telemetry_with_laps Hlap Hvehicle Hconf)
    as (row_of & Htable & _).
  rewrite Htable in Hagg. injection Hagg as <-. clear Htable.
  cbn [PerLap.columns]. rewrite agg_dict_labels.
  set (columns := Wide.columns telemetry_with_laps).
  assert ("timestamp" ∉ ["vehicle_id"; "lap"]
            ++ (configured columns ≫= λ spec, output_columns spec None)
            ++ ["samples_per_lap"] ++ available_meta columns) as Hno.
  { rewrite !elem_of_app, !elem_of_cons.
    intros [[?|[?|?%elem_of_nil]]|[?%no_timestamp_label|[[?|?%elem_of_nil]|Hmeta]]];
      try done.
    apply elem_of_available_meta in Hmeta.
    repeat (apply elem_of_cons in Hmeta as [Heq|Hmeta]; [discriminate Heq|]).
    by apply elem_of_nil in Hmeta. }
  unfold merge_weather, ensure_columns.
  destruct (decide ("timestamp" ∈ weather_columns)) as [Hw|Hw].
  - rewrite filter_cons_False, filter_nil by (by intros Hmissing).
    by rewrite decide_False.
  - by rewrite filter_cons_True, filter_nil.
Qed.

Lemma merge_weather_after_aggregation_witness :
  ∃ per_lap,
    aggregate_per_lap lap_samples.three_rows = Aggregated per_lap ∧
    merge_weather (PerLap.columns per_lap) ["timestamp"; "AIR_TEMP"] "timestamp"
    = KeyError "timestamp".
Proof.
  eexists. split; [vm_compute; reflexivity|].
  apply (merge_weather_after_aggregation lap_samples.three_rows).
  vm_compute; reflexivity.
Defined.

End weather_facts.

(** ** Model training: the feature columns *)

Section split_features_facts.
Import utils modeling component_modeling.

(** X22: [_split_features] never takes the target as a feature, nor the
    lap, the vehicle, the status or a failure column: it raises when the
    target is not a column, and otherwise its features are the numeric
    columns outside the ignored ones, in column order, or it raises when
    there is none; [_split_features_for_component] selects the same
    features, but does not ask for the target column. *)
Theorem split_features_excludes_target df :
  match _split_features df with
  | Split X y =>
      y = TARGET_COLUMN ∧ y ∈ columns df ∧ (y ∉ X) ∧ X ≠ [] ∧
      X `sublist_of` columns df ∧
      (∀ c, c ∈ X ↔
         c ∈ columns df ∧ (c ∉ ignore_cols) ∧ is_numeric_dtype df c = true) ∧
      _split_features_for_component df = Some X
  | TargetMissing missing =>
      missing = [TARGET_COLUMN] ∧ TARGET_COLUMN ∉ columns df
  | NoNumericColumn =>
      TARGET_COLUMN ∈ columns df ∧
      (∀ c, c ∈ columns df → c ∉ ignore_cols → is_numeric_dtype df c = false) ∧
      _split_features_for_component df = None
  end.
Proof.
  unfold _split_features, ensure_columns, _split_features_for_component.
  fold ignore_cols. fold (numeric_cols df).
  destruct (decide (TARGET_COLUMN ∈ columns df)) as [Htarget|Htarget].
  - rewrite filter_cons_False, filter_nil by (by intros Hmissing).
    destruct (numeric_cols df) as [|c X] eqn:Hnumeric.
    + split_and!; [done| |done]. intros c Hc Hignored.
      destruct (is_numeric_dtype df c) eqn:Hdtype; [|done].
      assert (c ∈ numeric_cols df) as Hin by (by apply list_elem_of_filter).
      rewrite Hnumeric in Hin. by apply elem_of_nil in Hin.
    + rewrite <-Hnumeric. unfold numeric_cols. split_and!; try done.
      * intros [[Hignored _] _]%list_elem_of_filter. apply Hignored.
        unfold ignore_cols. left.
      * fold (numeric_cols df). by rewrite Hnumeric.
      * apply sublist_filter.
      * intros c'. rewrite list_elem_of_filter. tauto.
  - by rewrite filter_cons_True, filter_nil.
Qed.

End split_features_facts.

(** ** Risk engine: monotonicity of the karma step *)

Section karma_monotonicity.
Import pandas karma_stream design scan_invariants samples risk_facts.
Local Open Scope Q_scope.

(** X24: with a smoothing factor in [0, 1] and a wear rate that is not
    negative, the karma the loop writes never gets smaller when the
    instant score, the previous karma or the count of laps gets larger;
    on a first lap, which has no previous karma, the same holds for the
    instant score and the count of laps. *)
Theorem karma_step_monotone
    smoothing wear_rate prev prev' instant instant' relative_lap relative_lap' :
  0 <= smoothing <= 1 → 0 <= wear_rate →
  0 <= instant → instant <= instant' → prev <= prev' →
  (0 ≤ relative_lap ≤ relative_lap')%Z →
  karma_step smoothing wear_rate (Some prev) instant relative_lap
  <= karma_step smoothing wear_rate (Some prev') instant' relative_lap' ∧
  karma_step smoothing wear_rate None instant relative_lap
  <= karma_step smoothing wear_rate None instant' relative_lap'.
Proof.
  intros [Hs0 Hs1] Hw Hi0 Hi Hp [Hl0 Hl].
  pose proof (wear_nonneg wear_rate relative_lap Hw Hl0) as Hwear0.
  pose proof (wear_mono wear_rate relative_lap relative_lap' Hw Hl) as Hwear.
  unfold karma_step, wear in *. cbn [default from_option].
  set (w := Qmin (1 # 2) (wear_rate * inject_Z relative_lap)) in *.
  set (w' := Qmin (1 # 2) (wear_rate * inject_Z relative_lap')) in *.
  assert (0 <= smoothing * (prev' - prev)) as H1
    by (apply Qmult_le_0_compat; lra).
  assert (0 <= (1 - smoothing) * (instant' - instant)) as H2
    by (apply Qmult_le_0_compat; lra).
  assert (0 <= smoothing * (instant' - instant)) as H3
    by (apply Qmult_le_0_compat; lra).
  assert (0 <= (w' - w) * (1 + instant' * (1 # 2))) as H4
    by (apply Qmult_le_0_compat; lra).
  assert (0 <= w * (instant' - instant)) as H5
    by (apply Qmult_le_0_compat; lra).
  clearbody w w'. unfold id. split; apply Q.min_le_compat_l; lra.
Qed.

Lemma karma_step_monotone_witness :
  karma_step (6 # 10) (2 # 1000) (Some (3 # 10)) (2 # 10) 1
  <= karma_step (6 # 10) (2 # 1000) (Some (4 # 10)) (5 # 10) 3.
Proof.
  apply (karma_step_monotone (6 # 10) (2 # 1000) (3 # 10) (4 # 10)
           (2 # 10) (5 # 10) 1 3);
    first [split; (discriminate || lia)|discriminate].
Defined.

End karma_monotonicity.
